(** * xdg-desktop-portal: file-transfer sessions and the request handlers

    A shallow embedding of

    - [document-portal/file-transfer.c]: the registry of file-transfer
      sessions and its four D-Bus methods;
    - [src/request.h], [src/actions.c], [src/geolocation.c] and
      [src/gnome-accounts.c]: the [Request] object and the worker bodies
      that answer it;
    - [src/notification.c] and [src/proxy-resolver.c]: the checks of a
      notification, the table of active notifications and the proxy
      lookup.

    Handlers are functions from the state they touch to the new state and
    what was sent on the bus.  Each per-object [GMutex] is held for a whole
    handler body, so a handler is one atomic step here; interleavings of
    several handlers are sequences of such steps. *)

From Stdlib Require Import ZArith List Ascii String Bool Lia DecimalString
  DecimalN DecimalPos.
From stdpp Require Import base option gmap strings list.

Open Scope string_scope.
Open Scope list_scope.
Open Scope Z_scope.

(** ** GLib and GDBus vocabulary shared by both halves *)

Module GLib.

(** The error names the sources raise themselves; [OTHER_ERROR] stands
    for whatever a callee puts into a [GError]. *)
Inductive ErrorName :=
| G_DBUS_ERROR_ACCESS_DENIED
| G_DBUS_ERROR_INVALID_ARGS
| XDG_DESKTOP_PORTAL_ERROR_NOT_ALLOWED
| XDG_DESKTOP_PORTAL_ERROR_INVALID_ARGUMENT
| OTHER_ERROR (n : Z).

Record GError := { error_name : ErrorName; error_message : string }.

(** The values a [GVariant] carries in the payloads read here. *)
Inductive GVariant :=
| VBool (b : bool)
| VString (s : string)
| VUint32 (n : Z)
| VStrv (l : list string).

(** An [a{sv}] dictionary is an array of entries. *)
Definition VarDict := list (string * GVariant).

(** [g_variant_lookup_value]: the first entry with that key. *)
Fixpoint g_variant_lookup_value (dict : VarDict) (key : string)
  : option GVariant :=
  match dict with
  | [] => None
  | (k, v) :: rest =>
      if String.eqb k key then Some v else g_variant_lookup_value rest key
  end.

(** [g_variant_lookup (dict, key, "b", &out)]: FALSE when the key is
    absent or its value is not a boolean. *)
Definition g_variant_lookup_b (dict : VarDict) (key : string) : option bool :=
  match g_variant_lookup_value dict key with
  | Some (VBool b) => Some b
  | _ => None
  end.

(** What a method handler hands back through its invocation. *)
Inductive RetVal :=
| RetNone
| RetString (s : string)
| RetStrv (l : list string).

(** How a method call ends.  [NoReplyNullError] is
    [g_dbus_method_invocation_return_gerror] called with [error == NULL]:
    GLib rejects the call with a critical log entry and nothing is put on
    the bus.  [Undefined] is a read of an indeterminate value or outside
    an array. *)
Inductive Completion :=
| Returned (v : RetVal)
| Failed (e : GError)
| NoReplyNullError
| Undefined.

Definition g_dbus_method_invocation_return_value (v : RetVal) : Completion :=
  Returned v.

Definition g_dbus_method_invocation_return_error
  (name : ErrorName) (message : string) : Completion :=
  Failed {| error_name := name; error_message := message |}.

Definition g_dbus_method_invocation_return_gerror (error : option GError)
  : Completion :=
  match error with
  | Some e => Failed e
  | None => NoReplyNullError
  end.

(** A string vector as [g_strdupv] sees it: [None] is the NULL pointer,
    and inside a buffer [None] is a NULL cell. *)
Fixpoint strv_until_null (cells : list (option string)) : list string :=
  match cells with
  | Some s :: rest => s :: strv_until_null rest
  | _ => []
  end.

Definition g_strdupv (str_array : option (list (option string)))
  : option (list string) :=
  match str_array with
  | None => None
  | Some cells => Some (strv_until_null cells)
  end.

(** [g_strdup_printf ("%u", n)]. *)
Definition printf_u (n : N) : string := NilZero.string_of_uint (N.to_uint n).

(** What a method call carries besides its parameters: the caller's
    unique bus name and the descriptors attached to the message
    ([None]: the message has no descriptor list). *)
Record Invocation := {
  inv_sender : string;
  inv_fd_list : option (list Z)
}.

End GLib.
Export GLib.

(** ** document-portal/file-transfer.c *)

Module FileTransfer.

(** Modelled from the spec: [XdpAppInfo] is declared in xdp-utils.h, which
    is not among the sources.  The code reads two things from it: the
    application id and whether it is the unconfined host. *)
Record XdpAppInfo := {
  xdp_app_info_get_id : string;
  xdp_app_info_is_host : bool
}.

(** The callees of file-transfer.c that live in other files, and the flag
    constants of document-enums.h. *)
Record Externals := {
  (** [xdp_app_info_get_path_for_fd (app_info, fd, 0, NULL, &writable)]:
      NULL, or the path together with whether [fd] is open for writing. *)
  xdp_app_info_get_path_for_fd : XdpAppInfo -> Z -> option (string * bool);
  (** [open (file, O_PATH | O_CLOEXEC)] *)
  open_path : string -> Z;
  (** [document_add_full (fds, n_fds, flags, owner, target, perms, &error)] *)
  document_add_full :
    list Z -> Z -> XdpAppInfo -> string -> Z -> list string + GError;
  xdp_fuse_get_mountpoint : string;
  g_path_get_basename : string -> string;
  g_build_filename : list string -> string;
  DOCUMENT_PERMISSION_FLAGS_READ : Z;
  DOCUMENT_PERMISSION_FLAGS_WRITE : Z;
  DOCUMENT_ADD_FLAGS_REUSE_EXISTING : Z;
  DOCUMENT_ADD_FLAGS_AS_NEEDED_BY_APP : Z
}.

(** [struct FileTransfer]; [files] is the [GPtrArray] of paths. *)
Record FileTransfer := {
  files : list string;
  writable : bool;
  autostop : bool;
  key : string;
  sender : string;
  app_info : XdpAppInfo
}.

Definition set_files (transfer : FileTransfer) (fs : list string)
  : FileTransfer :=
  {| files := fs;
     writable := writable transfer;
     autostop := autostop transfer;
     key := key transfer;
     sender := sender transfer;
     app_info := app_info transfer |}.

(** One call of [document_add_full], as the document store receives it. *)
Record DocumentAdd := {
  add_fds : list Z;
  add_flags : Z;
  add_owner : XdpAppInfo;
  add_target_app_id : string;
  add_perms : Z
}.

(** The process state the four methods share: the [transfers] hash table,
    the transfers handed to [g_idle_add (stop, ...)] and not yet freed,
    and the calls made into the document store. *)
Record State := {
  transfers : gmap string FileTransfer;
  idle : list FileTransfer;
  document_adds : list DocumentAdd
}.

Definition file_transfer_create : State :=
  {| transfers := ∅; idle := []; document_adds := [] |}.

Definition set_transfers (st : State) (m : gmap string FileTransfer) : State :=
  {| transfers := m; idle := idle st; document_adds := document_adds st |}.

Definition lookup_transfer (st : State) (k : string) : option FileTransfer :=
  transfers st !! k.

(** [g_random_int ()] is the argument [rnd]. *)
Definition file_transfer_start (app : XdpAppInfo) (sndr : string)
  (w a : bool) (rnd : N) (st : State) : FileTransfer * State :=
  let transfer :=
    {| files := [];
       writable := w;
       autostop := a;
       key := printf_u rnd;
       sender := sndr;
       app_info := app |} in
  (transfer, set_transfers st (<[key transfer := transfer]> (transfers st))).

(** [g_hash_table_steal] under the transfer's own key, then
    [g_idle_add (stop, transfer)]. *)
Definition file_transfer_stop (transfer : FileTransfer) (st : State) : State :=
  {| transfers := delete (key transfer) (transfers st);
     idle := idle st ++ [transfer];
     document_adds := document_adds st |}.

(** The loop of [g_ptr_array_add] calls. *)
Definition file_transfer_add_files (transfer : FileTransfer)
  (fs : list string) : FileTransfer :=
  set_files transfer (files transfer ++ fs).

(** [transfer->files->pdata] as a string vector.  An array nothing was
    ever added to has no buffer.  Otherwise the buffer holds the elements
    and then whatever the allocation contains after them, [slack]; a
    [GPtrArray] made by [g_ptr_array_new_with_free_func] writes no
    terminator of its own. *)
Definition pdata (fs : list string) (slack : list (option string))
  : option (list (option string)) :=
  match fs with
  | [] => None
  | _ => Some (map Some fs ++ slack)
  end.

Section WithExternals.

Variable E : Externals.

(** The second loop of [file_transfer_execute]: a file whose id is
    empty is returned as it is, the others under the mount point. *)
Definition exported_name (file id : string) : string :=
  match id with
  | EmptyString => file
  | _ => g_build_filename E
           [xdp_fuse_get_mountpoint E; id; g_path_get_basename E file]
  end.

(** [file_transfer_execute]: the files and the error, and the calls made
    into the document store.  [slack] is what [g_strdupv] finds behind the
    array's elements when the host retrieves.  The second loop reads
    [ids[i][0]] for every [i < n_fds]: where the store returned fewer ids
    than there are files it reads the vector's NULL terminator as a
    string, and the function has no result ([None]). *)
Definition file_transfer_execute (transfer : FileTransfer)
  (target_app_info : XdpAppInfo) (slack : list (option string))
  : option (option (list string) * option GError) * list DocumentAdd :=
  if xdp_app_info_is_host target_app_info then
    (Some (g_strdupv (pdata (files transfer) slack), None), [])
  else
    let flags := Z.lor (DOCUMENT_ADD_FLAGS_REUSE_EXISTING E)
                       (DOCUMENT_ADD_FLAGS_AS_NEEDED_BY_APP E) in
    let perms := DOCUMENT_PERMISSION_FLAGS_READ E in
    let perms := if writable transfer
                 then Z.lor perms (DOCUMENT_PERMISSION_FLAGS_WRITE E)
                 else perms in
    let target_app_id := xdp_app_info_get_id target_app_info in
    let fds := map (open_path E) (files transfer) in
    let call :=
      {| add_fds := fds;
         add_flags := flags;
         add_owner := app_info transfer;
         add_target_app_id := target_app_id;
         add_perms := perms |} in
    match document_add_full E fds flags (app_info transfer)
            target_app_id perms with
    | inl ids =>
        if (length ids <? length (files transfer))%nat then (None, [call])
        else
          (Some (Some (map (fun p => exported_name (fst p) (snd p))
                           (combine (files transfer) ids)),
                 None),
           [call])
    | inr error => (Some (None, Some error), [call])
    end.

(** [start_transfer] *)
Definition start_transfer (invocation : Invocation) (options : VarDict)
  (app : XdpAppInfo) (rnd : N) (st : State) : Completion * State :=
  let w := match g_variant_lookup_b options "writable" with
           | Some b => b
           | None => false
           end in
  let a := match g_variant_lookup_b options "autostop" with
           | Some b => b
           | None => true
           end in
  let '(transfer, st') :=
    file_transfer_start app (inv_sender invocation) w a rnd st in
  (g_dbus_method_invocation_return_value (RetString (key transfer)), st').

(** [fds[fd_id]] guarded by [fd_id < n_fds]; reading below the array is
    undefined. *)
Definition fd_at (fds : list Z) (fd_id : Z) : option Z :=
  if fd_id <? Z.of_nat (length fds) then
    if fd_id <? 0 then None else Some (nth (Z.to_nat fd_id) fds (-1))
  else Some (-1).

(** The [while (g_variant_iter_next (iter, "h", &fd_id))] loop of
    [add_files]: the paths gathered, or how the call ended early.
    Without a descriptor list [g_unix_fd_list_peek_fds] fails its
    precondition and leaves [n_fds] unset, so the first comparison
    reads an indeterminate value. *)
Fixpoint add_files_loop (transfer : FileTransfer) (app : XdpAppInfo)
  (fds : option (list Z)) (fd_ids : list Z) (acc : list string)
  : Completion + list string :=
  match fd_ids with
  | [] => inr acc
  | fd_id :: rest =>
      match fds with
      | None => inl Undefined
      | Some fdl =>
          match fd_at fdl fd_id with
          | None => inl Undefined
          | Some fd =>
              if fd =? -1 then
                inl (g_dbus_method_invocation_return_gerror None)
              else
                match xdp_app_info_get_path_for_fd E app fd with
                | None =>
                    inl (g_dbus_method_invocation_return_error
                           XDG_DESKTOP_PORTAL_ERROR_NOT_ALLOWED
                           "Can't export file")
                | Some (path, fd_is_writable) =>
                    if writable transfer && negb fd_is_writable then
                      inl (g_dbus_method_invocation_return_error
                             XDG_DESKTOP_PORTAL_ERROR_NOT_ALLOWED
                             "Can't export file")
                    else
                      add_files_loop transfer app fds rest (acc ++ [path])
                end
          end
      end
  end.

(** [add_files].  The transfer is mutated in place, so the entry found
    under [k] is the one that changes. *)
Definition add_files (invocation : Invocation) (k : string)
  (fd_ids : list Z) (app : XdpAppInfo) (st : State) : Completion * State :=
  match lookup_transfer st k with
  | None =>
      (g_dbus_method_invocation_return_error
         G_DBUS_ERROR_ACCESS_DENIED "Invalid transfer", st)
  | Some transfer =>
      if negb (String.eqb (sender transfer) (inv_sender invocation)) then
        (g_dbus_method_invocation_return_error
           G_DBUS_ERROR_ACCESS_DENIED "Invalid transfer", st)
      else
        match add_files_loop transfer app (inv_fd_list invocation)
                fd_ids [] with
        | inl early => (early, st)
        | inr paths =>
            (g_dbus_method_invocation_return_value RetNone,
             set_transfers st
               (<[k := file_transfer_add_files transfer paths]>
                  (transfers st)))
        end
  end.

(** [retrieve_files] *)
Definition retrieve_files (invocation : Invocation) (k : string)
  (app : XdpAppInfo) (slack : list (option string)) (st : State)
  : Completion * State :=
  match lookup_transfer st k with
  | None =>
      (g_dbus_method_invocation_return_error
         G_DBUS_ERROR_ACCESS_DENIED "Invalid transfer", st)
  | Some transfer =>
      let '(result, calls) :=
        file_transfer_execute transfer app slack in
      let reply :=
        match result with
        | None => Undefined
        | Some (None, error) => g_dbus_method_invocation_return_gerror error
        | Some (Some l, _) =>
            g_dbus_method_invocation_return_value (RetStrv l)
        end in
      let st1 :=
        {| transfers := transfers st;
           idle := idle st;
           document_adds := document_adds st ++ calls |} in
      (reply, if autostop transfer then file_transfer_stop transfer st1
              else st1)
  end.

(** [stop_transfer] *)
Definition stop_transfer (invocation : Invocation) (k : string)
  (app : XdpAppInfo) (st : State) : Completion * State :=
  match lookup_transfer st k with
  | None =>
      (g_dbus_method_invocation_return_error
         G_DBUS_ERROR_ACCESS_DENIED "Invalid transfer", st)
  | Some transfer =>
      (g_dbus_method_invocation_return_value RetNone,
       file_transfer_stop transfer st)
  end.

End WithExternals.

End FileTransfer.

(** ** src/request.h, src/actions.c, src/geolocation.c, src/gnome-accounts.c *)

Module Portal.

(** [struct _Request] of request.h.  [impl_request] is the backend's
    handle for the call ([None]: NULL), [data] the pairs attached with
    [g_object_set_data].  actions.c reads the application id through
    [request->app_info]; it is the same [app_id]. *)
Record Request := {
  exported : bool;
  app_id : string;
  id : string;
  sender : string;
  impl_request : option string;
  data : gmap string GVariant
}.

Definition set_exported (request : Request) (b : bool) : Request :=
  {| exported := b;
     app_id := app_id request;
     id := id request;
     sender := sender request;
     impl_request := impl_request request;
     data := data request |}.

Definition request_set_impl_request (request : Request)
  (impl : option string) : Request :=
  {| exported := exported request;
     app_id := app_id request;
     id := id request;
     sender := sender request;
     impl_request := impl;
     data := data request |}.

Definition g_object_set_data (request : Request) (k : string) (v : GVariant)
  : Request :=
  {| exported := exported request;
     app_id := app_id request;
     id := id request;
     sender := sender request;
     impl_request := impl_request request;
     data := <[k := v]> (data request) |}.

(** A string attached to the request.  The handlers read the keys that
    the method entry point has set from the (non-NULL) call arguments. *)
Definition data_string (request : Request) (k : string) : string :=
  match data request !! k with
  | Some (VString s) => s
  | _ => ""
  end.

(** [GPOINTER_TO_INT (g_object_get_data (...))]: 0 when nothing is
    attached. *)
Definition data_int (request : Request) (k : string) : Z :=
  match data request !! k with
  | Some (VUint32 n) => n
  | _ => 0
  end.

(** Modelled from the spec: the response codes are declared in
    xdp-utils.h, which is not among the sources; the spec gives
    success=0, cancelled=1, other-failure=2. *)
Definition XDG_DESKTOP_PORTAL_RESPONSE_SUCCESS : Z := 0.
Definition XDG_DESKTOP_PORTAL_RESPONSE_CANCELLED : Z := 1.
Definition XDG_DESKTOP_PORTAL_RESPONSE_OTHER : Z := 2.

(** What a handler does that is visible outside the request object.
    [ActivateAction] is the call of [g_dbus_connection_call_sync] with
    the bus name, the object path and the action.  [Crash] is a read
    through a NULL pointer: the handler ends there, whatever is left of
    its body is not run. *)
Inductive Event :=
| Warning (message : string)
| Response (request_id : string) (response : Z)
| AccessDialog (request_id app window : string)
| SetPermission (table object app : string) (permissions : list string)
| ActivateAction (application path action : string)
| LocationUpdated (request_id : string)
| CloseImpl (handle : string)
| Crash.

(** Modelled from the spec: the permission store is a separate service
    with two operations, lookup(table,id)->record and
    set(table,id,app,value); a record maps application ids to lists of
    string tokens.  Looking up an object that is not there is an error.
    [geolocation_requests] is the [requests] table of geolocation.c, by
    request id. *)
Record World := {
  store : gmap (string * string) (gmap string (list string));
  geolocation_requests : gset string;
  trace : list Event
}.

Definition emit (e : Event) (w : World) : World :=
  {| store := store w;
     geolocation_requests := geolocation_requests w;
     trace := trace w ++ [e] |}.

Definition set_store (w : World)
  (s : gmap (string * string) (gmap string (list string))) : World :=
  {| store := s;
     geolocation_requests := geolocation_requests w;
     trace := trace w |}.

Definition set_geolocation_requests (w : World) (s : gset string) : World :=
  {| store := store w; geolocation_requests := s; trace := trace w |}.

(** What the services outside the process answer during one handler run:
    an error for the store's two calls ([None]: the call goes through),
    the access dialog's result, the result of the call into the target
    application, the proxy made for the backend request, the clock.
    With them, what a handler run takes from GLib and from the rest of
    the process: [g_ascii_strtoll]; the two predicates
    [g_dbus_connection_call_sync] checks its bus name and object path
    with; and for the purge of the location worker, the requests other
    than its own that are no longer exported when it runs (their objects
    belong to other calls). *)
Record Backend := {
  lookup_error : option GError;
  set_permission_error : option GError;
  access_dialog : GError + Z;
  activate_error : option GError;
  impl_request_proxy : option string;
  g_get_monotonic_time : Z;
  g_ascii_strtoll : string -> Z;
  g_dbus_is_name : string -> bool;
  g_variant_is_object_path : string -> bool;
  unexported_requests : gset string
}.

(** [xdp_impl_permission_store_call_lookup_sync] *)
Definition call_lookup_sync (B : Backend) (w : World) (table object : string)
  : option (gmap string (list string)) :=
  match lookup_error B with
  | Some _ => None
  | None => store w !! (table, object)
  end.

(** [xdp_impl_permission_store_call_set_permission_sync] with
    [create = TRUE]: the call is an event whether or not it succeeds. *)
Definition call_set_permission_sync (B : Backend) (w : World)
  (table object app : string) (permissions : list string) : bool * World :=
  let w := emit (SetPermission table object app permissions) w in
  match set_permission_error B with
  | Some _ => (false, w)
  | None =>
      let record := default ∅ (store w !! (table, object)) in
      (true,
       set_store w (<[(table, object) := <[app := permissions]> record]>
                      (store w)))
  end.

(** Modelled from the spec: request.c is not among the sources.
    [request_export] publishes the request, [request_unexport] retires
    it. *)
Definition request_export (request : Request) : Request :=
  set_exported request true.

Definition request_unexport (request : Request) : Request :=
  set_exported request false.

(** Modelled from the spec: respond(Request, code, result) of the request
    engine (request.c is not among the sources): emits one response, then
    unexports and removes the request; on a request that is already
    terminal it is a silent no-op. *)
Definition respond (response : Z) (rw : Request * World) : Request * World :=
  let '(request, w) := rw in
  if exported request then
    (request_unexport request, emit (Response (id request) response) w)
  else (request, w).

(** Modelled from the spec: close(Request) of the request engine
    (request.c is not among the sources): forwards the cancellation to an
    attached delegate, then removes the request, emitting a cancelled
    response only if it is still exported. *)
Definition close (rw : Request * World) : Request * World :=
  let '(request, w) := rw in
  let w := match impl_request request with
           | Some handle => emit (CloseImpl handle) w
           | None => w
           end in
  if exported request then
    (request_unexport request,
     emit (Response (id request) XDG_DESKTOP_PORTAL_RESPONSE_CANCELLED) w)
  else (request, w).

(** *** actions.c *)

Inductive Permission := UNSET | NO | YES | ASK.

Definition TABLE_NAME : string := "actions".

Definition get_permission (B : Backend) (w : World)
  (app application action : string) : Permission * World :=
  let obj := application +:+ "::" +:+ action in
  match call_lookup_sync B w TABLE_NAME obj with
  | None => (UNSET, emit (Warning "Error reading from permission store") w)
  | Some out_perms =>
      match out_perms !! app with
      | None => (UNSET, w)
      | Some [p] =>
          if String.eqb p "yes" then (YES, w)
          else if String.eqb p "no" then (NO, w)
          else if String.eqb p "ask" then (ASK, w)
          else (UNSET, emit (Warning "Wrong permission format, ignoring") w)
      | Some _ =>
          (UNSET, emit (Warning "Wrong permission format, ignoring") w)
      end
  end.

Definition set_permission (B : Backend) (w : World)
  (app application action : string) (permission : Permission) : World :=
  let obj := application +:+ "::" +:+ action in
  let token :=
    match permission with
    | ASK => Some "ask"
    | YES => Some "yes"
    | NO => Some "no"
    | UNSET => None
    end in
  match token with
  | None => emit (Warning "Wrong permission format, ignoring") w
  | Some t =>
      let '(ok, w) := call_set_permission_sync B w TABLE_NAME obj app [t] in
      if ok then w else emit (Warning "Error updating permission store") w
  end.

Definition path_char (c : Ascii.ascii) : Ascii.ascii :=
  if Ascii.eqb c "."%char then "/"%char
  else if Ascii.eqb c "-"%char then "_"%char
  else c.

Fixpoint map_string (f : Ascii.ascii -> Ascii.ascii) (s : string) : string :=
  match s with
  | EmptyString => EmptyString
  | String c rest => String (f c) (map_string f rest)
  end.

Definition application_path_from_appid (appid : string) : string :=
  map_string path_char ("/" +:+ appid).

(** [g_dbus_connection_call_sync] starts with
    [g_return_val_if_fail (bus_name == NULL || g_dbus_is_name (bus_name),
    NULL)] and the like for the object path: for a bus name or a path
    that is none it returns NULL at once and leaves [error] unset. *)
Definition call_refused (B : Backend) (bus_name object_path : string) : bool :=
  negb (g_dbus_is_name B bus_name && g_variant_is_object_path B object_path).

(** [handle_activate_action_in_thread].  The texts of the dialog (title,
    subtitle, body, built from the applications' display names) are left
    out of the [AccessDialog] event.  When the call into the application
    returns NULL the handler logs [error->message]; after a call that
    was refused for its arguments [error] is NULL, and the handler ends
    in that read. *)
Definition handle_activate_action_in_thread (B : Backend)
  (rw : Request * World) : Request * World :=
  let '(request, w) := rw in
  let app := app_id request in
  let window := data_string request "window" in
  let application := data_string request "application" in
  let action := data_string request "action" in
  let '(permission, w) := get_permission B w app application action in
  let '(allowed, w) :=
    match permission with
    | ASK | UNSET =>
        let w := emit (AccessDialog (id request) app window) w in
        let '(access_response, w) :=
          match access_dialog B with
          | inl _ => (2, emit (Warning "A backend call failed") w)
          | inr r => (r, w)
          end in
        let allowed := access_response =? 0 in
        let w :=
          match permission with
          | UNSET =>
              set_permission B w app application action
                (if allowed then YES else NO)
          | _ => w
          end in
        (allowed, w)
    | YES => (true, w)
    | NO => (false, w)
    end in
  let '(response, w) :=
    if allowed then
      let path := application_path_from_appid application in
      let w := emit (ActivateAction application path action) w in
      if call_refused B application path then (None, emit Crash w)
      else
        match activate_error B with
        | Some _ =>
            (Some XDG_DESKTOP_PORTAL_RESPONSE_OTHER,
             emit (Warning "Failed to activate action") w)
        | None => (Some XDG_DESKTOP_PORTAL_RESPONSE_SUCCESS, w)
        end
    else (Some XDG_DESKTOP_PORTAL_RESPONSE_CANCELLED, w) in
  match response with
  | None => (request, w)
  | Some response =>
      if exported request then
        (request_unexport request, emit (Response (id request) response) w)
      else (request, w)
  end.

(** *** geolocation.c *)

Definition PERMISSIONS_TABLE : string := "portals".
Definition PERMISSIONS_ID : string := "geolocation".

(** [g_strdup_printf ("%li", n)]. *)
Definition printf_li (n : Z) : string := NilZero.string_of_int (Z.to_int n).

(** [None] is the FALSE return; otherwise [allowed] and [last_used]. *)
Definition get_geolocation_permissions (B : Backend) (w : World)
  (app : string) : option (bool * Z) * World :=
  match call_lookup_sync B w PERMISSIONS_TABLE PERMISSIONS_ID with
  | None => (None, emit (Warning "Error getting permissions") w)
  | Some out_perms =>
      match out_perms !! app with
      | None => (None, w)
      | Some (p0 :: p1 :: _) =>
          (Some (negb (String.eqb p0 "NONE"), g_ascii_strtoll B p1), w)
      | Some _ => (None, emit (Warning "Wrong permission format") w)
      end
  end.

Definition set_geolocation_permissions (B : Backend) (w : World)
  (app : string) (allowed : bool) (timestamp : Z) : World :=
  let permissions :=
    [if allowed then "EXACT" else "NONE"; printf_li timestamp] in
  let '(ok, w) :=
    call_set_permission_sync B w PERMISSIONS_TABLE PERMISSIONS_ID app
      permissions in
  if ok then w else emit (Warning "Error setting permissions") w.

(** [emit_location_updated]: one signal per connection the request is
    exported on. *)
Definition emit_location_updated (request : Request) (w : World) : World :=
  if exported request then emit (LocationUpdated (id request)) w else w.

(** [purge_dead_requests]: every request of the table that is no longer
    exported is removed.  [dead] holds the ids of those requests. *)
Definition purge_dead_requests (dead : gset string) (w : World) : World :=
  set_geolocation_requests w (geolocation_requests w ∖ dead).

(** [g_hash_table_insert (requests, ...)] followed by
    [purge_dead_requests ()].  The request at hand is dead or not by its
    own [exported]; the other requests by what [B] says of them. *)
Definition track_request (B : Backend) (request : Request) (w : World)
  : World :=
  let w :=
    set_geolocation_requests w ({[id request]} ∪ geolocation_requests w) in
  purge_dead_requests
    (if exported request then unexported_requests B ∖ {[id request]}
     else unexported_requests B ∪ {[id request]})
    w.

(** The part of [handle_track_in_thread_func] before its first use of
    [allowed]: [inl] is the [goto out] taken when the dialog call fails. *)
Definition track_permission (B : Backend) (request : Request) (w : World)
  : Request * World + bool * Z * Request * World :=
  let parent_window := data_string request "parent-window" in
  let app := app_id request in
  let '(found, w) := get_geolocation_permissions B w app in
  match found with
  | Some (allowed, last_used) => inr (allowed, last_used, request, w)
  | None =>
      let request := request_set_impl_request request (impl_request_proxy B) in
      let w := emit (AccessDialog (id request) app parent_window) w in
      match access_dialog B with
      | inl _ => inl (request, emit (Warning "Failed to show access dialog") w)
      | inr access_response =>
          inr (access_response =? 0, 0,
               request_set_impl_request request None, w)
      end
  end.

(** [handle_track_in_thread_func]; its last statement emits the response
    and does not unexport. *)
Definition handle_track_in_thread_func (B : Backend)
  (rw : Request * World) : Request * World :=
  let '(request, w) := rw in
  let app := app_id request in
  let '(response, request, w) :=
    match track_permission B request w with
    | inl (request, w) => (2, request, w)
    | inr (allowed, last_used, request, w) =>
        let w :=
          set_geolocation_permissions B w app allowed
            (if allowed then g_get_monotonic_time B else last_used) in
        if negb allowed then (1, request, w)
        else
          let w := track_request B request w in
          let w := emit_location_updated request w in
          (0, request, w)
    end in
  if exported request then
    (request, emit (Response (id request) response) w)
  else (request, w).

(** *** gnome-accounts.c *)

Definition send_response_in_thread_func (rw : Request * World)
  : Request * World :=
  let '(request, w) := rw in
  let response := data_int request "response" in
  if exported request then
    (request_unexport request, emit (Response (id request) response) w)
  else (request, w).

(** [get_accounts_done]; [add_account_done] and [ensure_credentials_done]
    have the same body.  [finish] is what the [..._finish] call gives: an
    error, or the backend's response code.  The backend's results are
    attached to the request too; the response task sends an empty
    dictionary and never reads them.  The function ends by starting the
    task that runs [send_response_in_thread_func]. *)
Definition get_accounts_done (finish : GError + Z) (rw : Request * World)
  : Request * World :=
  let '(request, w) := rw in
  let '(response, w) :=
    match finish with
    | inl _ => (2, emit (Warning "Backend call failed") w)
    | inr r => (r, w)
    end in
  (g_object_set_data request "response" (VUint32 response), w).

(** *** The life of one request *)

(** The steps that can hit a request once it is exported: the three
    worker bodies, and the engine's respond and close. *)
Inductive Step :=
| ActivateActionThread (B : Backend)
| TrackThread (B : Backend)
| AccountsDone (finish : GError + Z)
| SendResponseThread
| Respond (response : Z)
| Close.

Definition step (s : Step) (rw : Request * World) : Request * World :=
  match s with
  | ActivateActionThread B => handle_activate_action_in_thread B rw
  | TrackThread B => handle_track_in_thread_func B rw
  | AccountsDone finish => get_accounts_done finish rw
  | SendResponseThread => send_response_in_thread_func rw
  | Respond response => respond response rw
  | Close => close rw
  end.

(** Any sequence of steps, those included that no process gets to run
    (a step after a [Crash]): what holds of all sequences holds of the
    ones that happen. *)
Definition run_steps (steps : list Step) (rw : Request * World)
  : Request * World :=
  fold_left (fun acc s => step s acc) steps rw.

(** The steps that unexport a request they answer: all but the location
    worker, which keeps its request exported for the updates to come. *)
Definition retires (s : Step) : bool :=
  match s with
  | TrackThread _ => false
  | _ => true
  end.

(** The response codes emitted for one request, oldest first. *)
Fixpoint responses_for (rid : string) (events : list Event) : list Z :=
  match events with
  | [] => []
  | Response r code :: rest =>
      if String.eqb r rid then code :: responses_for rid rest
      else responses_for rid rest
  | _ :: rest => responses_for rid rest
  end.

Definition is_dialog (e : Event) : bool :=
  match e with AccessDialog _ _ _ => true | _ => false end.

Definition is_store_write (e : Event) : bool :=
  match e with SetPermission _ _ _ _ => true | _ => false end.

Definition is_warning (e : Event) : bool :=
  match e with Warning _ => true | _ => false end.

(** The events a handler run added to the trace. *)
Definition new_events (before after : World) : list Event :=
  drop (length (trace before)) (trace after).

End Portal.

(** ** Vocabulary for the properties of the file-transfer sessions *)

Module Sessions.
Import FileTransfer.

(** The error every method gives for a key it does not accept. *)
Definition access_denied : Completion :=
  Failed {| error_name := G_DBUS_ERROR_ACCESS_DENIED;
            error_message := "Invalid transfer" |}.

(** The error [add_files] gives for a descriptor it cannot export. *)
Definition not_allowed : Completion :=
  Failed {| error_name := XDG_DESKTOP_PORTAL_ERROR_NOT_ALLOWED;
            error_message := "Can't export file" |}.

(** An error of the caller's making: access denied or invalid argument. *)
Definition caller_error (c : Completion) : bool :=
  match c with
  | Failed e =>
      match error_name e with
      | G_DBUS_ERROR_ACCESS_DENIED
      | G_DBUS_ERROR_INVALID_ARGS
      | XDG_DESKTOP_PORTAL_ERROR_INVALID_ARGUMENT => true
      | _ => false
      end
  | _ => false
  end.

(** An error reply of any kind reached the caller. *)
Definition error_reply (c : Completion) : bool :=
  match c with
  | Failed _ => true
  | _ => false
  end.

(** The descriptor a payload index refers to: the message has a
    descriptor list, the index lies inside it, and the slot holds a
    descriptor. *)
Definition descriptor (invocation : Invocation) (fd_id : Z) : option Z :=
  match inv_fd_list invocation with
  | None => None
  | Some fds =>
      if (0 <=? fd_id) && (fd_id <? Z.of_nat (length fds)) then
        let fd := nth (Z.to_nat fd_id) fds (-1) in
        if fd =? -1 then None else Some fd
      else None
  end.

Definition attached (invocation : Invocation) (fd_id : Z) : bool :=
  match descriptor invocation fd_id with
  | Some _ => true
  | None => false
  end.

(** A descriptor the session cannot take: it does not resolve to a path,
    or the session is writable and the descriptor is not open for
    writing. *)
Definition refused (E : Externals) (transfer : FileTransfer)
  (app : XdpAppInfo) (fd : Z) : bool :=
  match xdp_app_info_get_path_for_fd E app fd with
  | None => true
  | Some (_, fd_is_writable) => writable transfer && negb fd_is_writable
  end.

(** The path a descriptor resolves to. *)
Definition path_of (E : Externals) (app : XdpAppInfo) (fd : Z)
  : option string :=
  fst <$> xdp_app_info_get_path_for_fd E app fd.

(** The cell after the array's last element is NULL (or the buffer ends
    there). *)
Definition terminated (slack : list (option string)) : bool :=
  match slack with
  | Some _ :: _ => false
  | _ => true
  end.


(** The method calls a client can make. *)
Inductive Call :=
| StartTransfer (invocation : Invocation) (options : VarDict)
    (app : XdpAppInfo) (rnd : N)
| AddFiles (invocation : Invocation) (k : string) (fd_ids : list Z)
    (app : XdpAppInfo)
| RetrieveFiles (invocation : Invocation) (k : string) (app : XdpAppInfo)
    (slack : list (option string))
| StopTransfer (invocation : Invocation) (k : string) (app : XdpAppInfo).

Definition call (E : Externals) (c : Call) (st : State) : Completion * State :=
  match c with
  | StartTransfer invocation options app rnd =>
      start_transfer invocation options app rnd st
  | AddFiles invocation k fd_ids app => add_files E invocation k fd_ids app st
  | RetrieveFiles invocation k app slack =>
      retrieve_files E invocation k app slack st
  | StopTransfer invocation k app => stop_transfer invocation k app st
  end.

Definition run_calls (E : Externals) (cs : list Call) (st : State) : State :=
  fold_left (fun acc c => snd (call E c acc)) cs st.

(** The states the process can be in. *)
Definition reachable (E : Externals) (st : State) : Prop :=
  exists cs, run_calls E cs file_transfer_create = st.

(** Every transfer sits in the table under its own key. *)
Definition keys_agree (st : State) : Prop :=
  forall k transfer, transfers st !! k = Some transfer -> key transfer = k.

(** A call that neither stops the session under [k] nor starts a session
    whose generated key is [k] again. *)
Definition spares (k : string) (c : Call) : bool :=
  match c with
  | StopTransfer _ k' _ => negb (String.eqb k' k)
  | StartTransfer _ _ _ rnd => negb (String.eqb (printf_u rnd) k)
  | _ => true
  end.

(** *** Concrete values for the examples *)

(** Descriptor 3 is a read-only file, 4 a read-write file, 5 does not
    resolve; the document store gives every file the id "doc"; the flag
    values are those of document-enums.h. *)
Definition example_externals : Externals :=
  {| xdp_app_info_get_path_for_fd := fun _ fd =>
       if fd =? 3 then Some ("/home/u/a.txt", false)
       else if fd =? 4 then Some ("/home/u/b.txt", true)
       else None;
     open_path := fun _ => 9;
     document_add_full := fun fds _ _ _ _ => inl (map (fun _ => "doc") fds);
     xdp_fuse_get_mountpoint := "/run/user/1000/doc";
     g_path_get_basename := fun s => s;
     g_build_filename := fun l => String.concat "/" l;
     DOCUMENT_PERMISSION_FLAGS_READ := 1;
     DOCUMENT_PERMISSION_FLAGS_WRITE := 2;
     DOCUMENT_ADD_FLAGS_REUSE_EXISTING := 1;
     DOCUMENT_ADD_FLAGS_AS_NEEDED_BY_APP := 4 |}.

Definition host_app : XdpAppInfo :=
  {| xdp_app_info_get_id := ""; xdp_app_info_is_host := true |}.

Definition sandboxed_app : XdpAppInfo :=
  {| xdp_app_info_get_id := "org.example.App"; xdp_app_info_is_host := false |}.

(** The owner's connection, with descriptors 3, 4 and 5 attached, and
    another connection. *)
Definition owner_call : Invocation :=
  {| inv_sender := ":1.10"; inv_fd_list := Some [3; 4; 5] |}.

Definition other_call : Invocation :=
  {| inv_sender := ":1.20"; inv_fd_list := None |}.

(** The state after the owner started a transfer with the given options
    and [g_random_int] gave 7. *)
Definition started (options : VarDict) : State :=
  snd (start_transfer owner_call options sandboxed_app 7
         file_transfer_create).

End Sessions.

(** ** Vocabulary for the properties of the request handlers *)

Module Requests.
Import Portal.

(** Both calls into the permission store go through. *)
Definition store_up (B : Backend) : bool :=
  match lookup_error B, set_permission_error B with
  | None, None => true
  | _, _ => false
  end.

Definition count_where (p : Event -> bool) (events : list Event) : nat :=
  length (List.filter p events).

Definition store_writes (events : list Event) : list Event :=
  List.filter is_store_write events.

(** Two requests made by the same application for the same action of the
    same target application. *)
Definition same_triple (r1 r2 : Request) : Prop :=
  app_id r1 = app_id r2 /\
  data_string r1 "application" = data_string r2 "application" /\
  data_string r1 "action" = data_string r2 "action".

(** A series of ActivateAction calls, each with its own request and its
    own answers from outside. *)
Definition run_activations (calls : list (Backend * Request)) (w : World)
  : World :=
  fold_left
    (fun acc c => snd (handle_activate_action_in_thread (fst c) (snd c, acc)))
    calls w.

(** A series of TrackLocation calls, each with its own request and its
    own answers from outside. *)
Definition run_tracks (calls : list (Backend * Request)) (w : World) : World :=
  fold_left
    (fun acc c => snd (handle_track_in_thread_func (fst c) (snd c, acc)))
    calls w.

(** The token [set_permission] stores for a dialog answer. *)
Definition decision_token (answer : GError + Z) : string :=
  match answer with
  | inr 0 => "yes"
  | _ => "no"
  end.

Definition decision (answer : GError + Z) : Permission :=
  match answer with
  | inr 0 => YES
  | _ => NO
  end.

(** [w'] continues [w] with the events [events]. *)
Definition extends (w w' : World) (events : list Event) : Prop :=
  trace w' = trace w ++ events.

Definition is_response (e : Event) : bool :=
  match e with Response _ _ => true | _ => false end.

(** The object under which actions.c files a decision. *)
Definition action_object (request : Request) : string :=
  data_string request "application" +:+ "::" +:+ data_string request "action".

(** The permission actions.c finds stored for a request's triple. *)
Definition stored_permission (B : Backend) (w : World) (request : Request)
  : Permission :=
  fst (get_permission B w (app_id request)
         (data_string request "application") (data_string request "action")).

(** The response code the ActivateAction worker arrives at, from the
    permission it found stored and the answers from outside. *)
Definition activate_response (B : Backend) (p : Permission) : Z :=
  let allowed :=
    match p with
    | YES => true
    | NO => false
    | ASK | UNSET =>
        match access_dialog B with
        | inr 0 => true
        | _ => false
        end
    end in
  if allowed then
    match activate_error B with
    | Some _ => XDG_DESKTOP_PORTAL_RESPONSE_OTHER
    | None => XDG_DESKTOP_PORTAL_RESPONSE_SUCCESS
    end
  else XDG_DESKTOP_PORTAL_RESPONSE_CANCELLED.

(** The token geolocation.c stores for a decision. *)
Definition accuracy_token (allowed : bool) : string :=
  if allowed then "EXACT" else "NONE".

(** The writes of a series of TrackLocation calls of one application that
    has its decision on file, with [stamp] the time on file before the
    first of them: each call files the decision again, with the clock's
    time when the location is allowed and else with the time it has read
    back. *)
Fixpoint track_writes (app : string) (allowed : bool) (stamp : string)
  (calls : list (Backend * Request)) : list Event :=
  match calls with
  | [] => []
  | c :: rest =>
      let stamp' :=
        printf_li (if allowed then g_get_monotonic_time (fst c)
                   else g_ascii_strtoll (fst c) stamp) in
      SetPermission PERMISSIONS_TABLE PERMISSIONS_ID app
        [accuracy_token allowed; stamp']
      :: track_writes app allowed stamp' rest
  end.

(** *** Concrete values for the examples *)

Definition strtoll_decimal (s : string) : Z :=
  match NilZero.int_of_string s with
  | Some i => Z.of_int i
  | None => 0
  end.

Definition backend_error : GError :=
  {| error_name := OTHER_ERROR 0; error_message := "backend unavailable" |}.

(** Outside services that all work; the dialog is answered with
    [answer].  Of the strings the examples use, org.example.Target is a
    bus name and /org/example/Target an object path; no other request is
    being tracked. *)
Definition working_backend (answer : GError + Z) : Backend :=
  {| lookup_error := None;
     set_permission_error := None;
     access_dialog := answer;
     activate_error := None;
     impl_request_proxy := Some "/org/freedesktop/portal/desktop/request/1_10/t";
     g_get_monotonic_time := 1000;
     g_ascii_strtoll := strtoll_decimal;
     g_dbus_is_name := fun s => String.eqb s "org.example.Target";
     g_variant_is_object_path := fun s => String.eqb s "/org/example/Target";
     unexported_requests := ∅ |}.

(** An exported request of org.example.App for the action "open" of
    org.example.Target. *)
Definition example_request : Request :=
  {| exported := true;
     app_id := "org.example.App";
     id := "/org/freedesktop/portal/desktop/request/1_10/t";
     sender := ":1.10";
     impl_request := None;
     data := <["window" := VString ""]>
               (<["application" := VString "org.example.Target"]>
                  (<["action" := VString "open"]>
                     (<["parent-window" := VString ""]> ∅))) |}.

(** A world whose permission store has the two records, with nothing in
    them for org.example.App. *)
Definition example_world : World :=
  {| store := <[("actions", "org.example.Target::open") := ∅]>
                (<[("portals", "geolocation") := ∅]> ∅);
     geolocation_requests := ∅;
     trace := [] |}.

End Requests.

(** ** src/notification.c *)

Module Notification.
Import Portal.

(** The values found in a notification: a string, an [(sv)] pair, an
    array of [a{sv}] dictionaries, or a value of any other type, given by
    its type string (none of the three before). *)
#[local] Unset Elimination Schemes.
Inductive Value :=
| VS (s : string)
| VSV (s : string) (v : Value)
| VDicts (l : list (list (string * Value)))
| VOther (type : string).
#[local] Set Elimination Schemes.

Inductive VariantType := TYPE_STRING | TYPE_SV | TYPE_AASV.

Definition type_string (t : VariantType) : string :=
  match t with
  | TYPE_STRING => "s"
  | TYPE_SV => "(sv)"
  | TYPE_AASV => "aa{sv}"
  end.

Definition g_variant_get_type (value : Value) : string :=
  match value with
  | VS _ => "s"
  | VSV _ _ => "(sv)"
  | VDicts _ => "aa{sv}"
  | VOther t => t
  end.

Definition g_variant_is_of_type (value : Value) (t : VariantType) : bool :=
  match value, t with
  | VS _, TYPE_STRING => true
  | VSV _ _, TYPE_SV => true
  | VDicts _, TYPE_AASV => true
  | _, _ => false
  end.

(** [g_set_error (error, XDG_DESKTOP_PORTAL_ERROR,
    XDG_DESKTOP_PORTAL_ERROR_INVALID_ARGUMENT, ...)] *)
Definition invalid_argument (message : string) : GError :=
  {| error_name := XDG_DESKTOP_PORTAL_ERROR_INVALID_ARGUMENT;
     error_message := message |}.

Definition g_prefix_error (prefix : string) (error : GError) : GError :=
  {| error_name := error_name error;
     error_message := prefix +:+ error_message error |}.

(** The checks return [None] for TRUE and the error for FALSE. *)
Definition check_value_type (k : string) (value : Value) (t : VariantType)
  : option GError :=
  if g_variant_is_of_type value t then None
  else Some (invalid_argument
               ("expected type for key " +:+ k +:+ " is " +:+ type_string t
                +:+ ", found " +:+ g_variant_get_type value)).

Definition priorities : list string := ["low"; "normal"; "high"; "urgent"].

(** [g_strv_contains] *)
Definition g_strv_contains (strv : list string) (s : string) : bool :=
  existsb (String.eqb s) strv.

Definition check_priority (value : Value) : option GError :=
  match check_value_type "priority" value TYPE_STRING with
  | Some error => Some error
  | None =>
      match value with
      | VS s =>
          if g_strv_contains priorities s then None
          else Some (invalid_argument (s +:+ " not a priority"))
      | _ => None
      end
  end.

(** The loop of [check_button] over the entries left, with the two flags
    as they stand; [None] when an entry has a key that is not valid. *)
Fixpoint check_button_loop (entries : list (string * Value))
  (has_label has_action : bool) : GError + bool * bool :=
  match entries with
  | [] => inr (has_label, has_action)
  | (k, _) :: rest =>
      if String.eqb k "label" then check_button_loop rest true has_action
      else if String.eqb k "action" then check_button_loop rest has_label true
      else if String.eqb k "target" then
        check_button_loop rest has_label has_action
      else inl (invalid_argument (k +:+ " not valid key"))
  end.

Definition check_button (button : list (string * Value)) : option GError :=
  match check_button_loop button false false with
  | inl error => Some error
  | inr (has_label, has_action) =>
      if negb has_label then Some (invalid_argument "label key is missing")
      else if negb has_action then
        Some (invalid_argument "action key is missing")
      else None
  end.

Fixpoint check_buttons_loop (buttons : list (list (string * Value)))
  : option GError :=
  match buttons with
  | [] => None
  | button :: rest =>
      match check_button button with
      | Some error => Some (g_prefix_error "invalid button: " error)
      | None => check_buttons_loop rest
      end
  end.

Definition check_buttons (value : Value) : option GError :=
  match check_value_type "buttons" value TYPE_AASV with
  | Some error => Some error
  | None =>
      match value with
      | VDicts buttons => check_buttons_loop buttons
      | _ => None
      end
  end.

Section WithIcons.

(** [g_icon_deserialize (value) != NULL] *)
Variable g_icon_deserialize : Value -> bool.

Definition check_serialized_icon (value : Value) : option GError :=
  let icon :=
    if g_variant_is_of_type value TYPE_STRING
       || g_variant_is_of_type value TYPE_SV
    then g_icon_deserialize value
    else false in
  if icon then None else Some (invalid_argument "invalid icon").

Definition check_entry (k : string) (value : Value) : option GError :=
  if String.eqb k "title" || String.eqb k "body" then
    check_value_type k value TYPE_STRING
  else if String.eqb k "icon" then check_serialized_icon value
  else if String.eqb k "priority" then check_priority value
  else if String.eqb k "default-action" then
    check_value_type k value TYPE_STRING
  else if String.eqb k "default-action-target" then None
  else if String.eqb k "buttons" then check_buttons value
  else Some (invalid_argument (k +:+ " not valid key")).

(** [check_notification].  The argument arrives through a method whose
    signature makes it an [a{sv}] dictionary, so the first type check of
    the function always passes; the body of its loop is [check_entry]. *)
Fixpoint check_notification (notification : list (string * Value))
  : option GError :=
  match notification with
  | [] => None
  | (k, value) :: rest =>
      match check_entry k value with
      | Some error => Some error
      | None => check_notification rest
      end
  end.

End WithIcons.

(** What goes out of the process and what is logged. *)
Inductive Event :=
| Warning (message : string)
| CallAddNotification (app id : string)
    (notification : list (string * Value))
| CallRemoveNotification (app id : string)
| ActionInvoked (destination id action : string).

(** The [active] table (application id and notification id to the bus
    name of the caller), the permission store as in [Portal.World], and
    the events so far. *)
Record State := {
  active : gmap (string * string) string;
  store : gmap (string * string) (gmap string (list string));
  trace : list Event
}.

Definition emit (e : Event) (st : State) : State :=
  {| active := active st; store := store st; trace := trace st ++ [e] |}.

Definition set_active (st : State) (m : gmap (string * string) string)
  : State :=
  {| active := m; store := store st; trace := trace st |}.

Definition TABLE_NAME : string := "notifications".

(** [get_notification_allowed]; [lookup_error] is the error of the call
    into the store, if it fails. *)
Definition get_notification_allowed (lookup_error : option GError)
  (st : State) (app : string) : bool * State :=
  match lookup_error with
  | Some _ => (true, emit (Warning "Error getting permissions") st)
  | None =>
      match store st !! (TABLE_NAME, "notification") with
      | None => (true, emit (Warning "Error getting permissions") st)
      | Some out_perms =>
          match out_perms !! app with
          | Some perms => (negb (g_strv_contains perms "no"), st)
          | None => (true, st)
          end
      end
  end.

(** A request of the notification interface: the request object, with the
    id attached under "id", and the notification attached to it. *)
Record Task := {
  task_request : Request;
  task_notification : list (string * Value)
}.

(** [handle_add_in_thread_func] *)
Definition handle_add_in_thread_func (lookup_error : option GError)
  (task : Task) (st : State) : State :=
  let request := task_request task in
  let '(denied, st) :=
    if negb (String.eqb (app_id request) "") then
      let '(allowed, st) :=
        get_notification_allowed lookup_error st (app_id request) in
      (negb allowed, st)
    else (false, st) in
  if denied then st
  else
    emit (CallAddNotification (app_id request) (data_string request "id")
            (task_notification task)) st.

(** [add_done]; [finish] is the error of the backend call, if it
    failed. *)
Definition add_done (finish : option GError) (task : Task) (st : State)
  : State :=
  let request := task_request task in
  match finish with
  | Some _ => emit (Warning "Backend call failed") st
  | None =>
      set_active st
        (<[(app_id request, data_string request "id") := sender request]>
           (active st))
  end.

(** [notification_handle_add_notification]: the reply, and the task
    started, if any. *)
Definition notification_handle_add_notification
  (g_icon_deserialize : Value -> bool) (request : Request) (arg_id : string)
  (notification : list (string * Value)) : Completion * option Task :=
  let request := g_object_set_data request "id" (VString arg_id) in
  match check_notification g_icon_deserialize notification with
  | Some error =>
      (g_dbus_method_invocation_return_gerror
         (Some (g_prefix_error "invalid notification: " error)), None)
  | None =>
      (g_dbus_method_invocation_return_value RetNone,
       Some {| task_request := request; task_notification := notification |})
  end.

(** [notification_handle_remove_notification]: the call into the backend
    and the reply. *)
Definition notification_handle_remove_notification (request : Request)
  (arg_id : string) (st : State) : Completion * Request * State :=
  let request := g_object_set_data request "id" (VString arg_id) in
  (g_dbus_method_invocation_return_value RetNone, request,
   emit (CallRemoveNotification (app_id request) arg_id) st).

(** [remove_done] *)
Definition remove_done (finish : option GError) (request : Request)
  (st : State) : State :=
  match finish with
  | Some _ => emit (Warning "Backend call failed") st
  | None =>
      set_active st
        (delete (app_id request, data_string request "id") (active st))
  end.

(** [action_invoked]: the backend's signal, sent on to the caller on
    record. *)
Definition action_invoked (app id action : string) (st : State) : State :=
  match active st !! (app, id) with
  | None => st
  | Some destination => emit (ActionInvoked destination id action) st
  end.

(** [name[0] == ':'] *)
Definition is_unique_name (name : string) : bool :=
  match name with
  | String c _ => Ascii.eqb c ":"%char
  | EmptyString => false
  end.

(** [name_owner_changed] *)
Definition name_owner_changed (name from to : string) (st : State) : State :=
  if is_unique_name name && String.eqb name from && String.eqb to "" then
    set_active st
      (filter (fun entry => fst (fst entry) <> name) (active st))
  else st.

End Notification.

(** ** src/proxy-resolver.c *)

Module ProxyResolver.

(** A [GKeyFile], by group and key, with the string lists it holds. *)
Definition g_key_file_get_string_list
  (key_file : gmap (string * string) (list string)) (group k : string)
  : option (list string) :=
  key_file !! (group, k).

(** [proxy_resolver_handle_lookup].  [app_info] is what
    [xdp_get_app_info (request->app_id)] gives ([None]: no key file);
    [lookup] is [g_proxy_resolver_lookup] on the default resolver.  The
    second component lists the URIs handed to the resolver. *)
Definition proxy_resolver_handle_lookup
  (app_info : option (gmap (string * string) (list string)))
  (lookup : string -> GError + list string) (arg_uri : string)
  : Completion * list string :=
  let network_available :=
    match app_info with
    | Some key_file =>
        match g_key_file_get_string_list key_file "Context" "shared" with
        | Some shared => Notification.g_strv_contains shared "network"
        | None => false
        end
    | None => true
    end in
  if negb network_available then
    (g_dbus_method_invocation_return_error
       XDG_DESKTOP_PORTAL_ERROR_NOT_ALLOWED
       "This call is not available inside the sandbox", [])
  else
    match lookup arg_uri with
    | inl error => (Failed error, [arg_uri])
    | inr proxies =>
        (g_dbus_method_invocation_return_value (RetStrv proxies), [arg_uri])
    end.

End ProxyResolver.

(** ** The method entry points in front of the workers *)

Module PortalMethods.
Import Portal.

(** [handle_activate_action].  [proxy] is what
    [xdp_impl_request_proxy_new_sync] gives.  The reply, and the request
    handed to the worker when one is started.  (The parameters, which the
    model of the worker does not read, are left off the request.)

    The platform data are looked up with
    [g_variant_lookup (arg_options, "@a{sv}", "platform-data", ...)]: the
    second argument is the key and the third the format string, so the
    key looked up is "@a{sv}" and the entry "platform-data" is never
    read.  Options without the key "@a{sv}" give FALSE and nothing is
    attached; with it, GLib is handed "platform-data" as a format string,
    which is none, and the call has no defined outcome. *)
Definition handle_activate_action (proxy : GError + string)
  (request : Request) (arg_parent_window arg_application arg_action : string)
  (arg_options : VarDict) : Completion * option Request :=
  let request := g_object_set_data request "window" (VString arg_parent_window) in
  let request := g_object_set_data request "application" (VString arg_application) in
  let request := g_object_set_data request "action" (VString arg_action) in
  match g_variant_lookup_value arg_options "@a{sv}" with
  | Some _ => (Undefined, None)
  | None =>
      match proxy with
      | inl error =>
          (g_dbus_method_invocation_return_gerror (Some error), None)
      | inr impl =>
          let request := request_set_impl_request request (Some impl) in
          let request := request_export request in
          (g_dbus_method_invocation_return_value (RetString (id request)),
           Some request)
      end
  end.

(** [handle_get_accounts]; [handle_add_account] and
    [handle_ensure_credentials] differ in the backend method they call.
    The reply, and the request the completion callback will get. *)
Definition handle_get_accounts (proxy : GError + string) (request : Request)
  : Completion * option Request :=
  match proxy with
  | inl error => (g_dbus_method_invocation_return_gerror (Some error), None)
  | inr impl =>
      let request := request_set_impl_request request (Some impl) in
      let request := request_export request in
      (g_dbus_method_invocation_return_value (RetString (id request)),
       Some request)
  end.

(** [geolocation_handle_track_location] *)
Definition geolocation_handle_track_location (request : Request)
  (arg_parent_window : string) : Completion * Request :=
  let request :=
    g_object_set_data request "parent-window" (VString arg_parent_window) in
  let request := request_export request in
  (g_dbus_method_invocation_return_value (RetString (id request)), request).

End PortalMethods.

(** ** More vocabulary for properties *)

Module Vocabulary.
Import FileTransfer Sessions.

(** The key a call addresses: the one it names, or for a start the one it
    generates. *)
Definition call_key (c : Call) : string :=
  match c with
  | StartTransfer _ _ _ rnd => printf_u rnd
  | AddFiles _ k _ _ => k
  | RetrieveFiles _ k _ _ => k
  | StopTransfer _ k _ => k
  end.

(** The connection a call comes from. *)
Definition call_sender (c : Call) : string :=
  match c with
  | StartTransfer invocation _ _ _ => inv_sender invocation
  | AddFiles invocation _ _ _ => inv_sender invocation
  | RetrieveFiles invocation _ _ _ => inv_sender invocation
  | StopTransfer invocation _ _ => inv_sender invocation
  end.

(** A descriptor index resolves to a path the session accepts. *)
Definition resolves (E : Externals) (transfer : FileTransfer)
  (invocation : Invocation) (app : XdpAppInfo) (fd_id : Z) (p : string)
  : Prop :=
  exists fd,
    descriptor invocation fd_id = Some fd /\
    refused E transfer app fd = false /\
    path_of E app fd = Some p.

(** The worker of ActivateAction goes on to call the target application:
    a yes is stored, or nothing usable is stored and the dialog is
    answered with 0. *)
Definition activation_allowed (B : Portal.Backend) (p : Portal.Permission)
  : bool :=
  match p with
  | Portal.YES => true
  | Portal.NO => false
  | Portal.ASK | Portal.UNSET =>
      match Portal.access_dialog B with
      | inr 0 => true
      | _ => false
      end
  end.

(** The worker of ActivateAction ends in the read of the unset error: it
    goes on to call the target application, and the call is refused for
    its bus name or its object path. *)
Definition activation_crashes (B : Portal.Backend) (p : Portal.Permission)
  (application : string) : bool :=
  activation_allowed B p
  && Portal.call_refused B application
       (Portal.application_path_from_appid application).

Definition is_activation (e : Portal.Event) : bool :=
  match e with Portal.ActivateAction _ _ _ => true | _ => false end.

Definition is_location_update (e : Portal.Event) : bool :=
  match e with Portal.LocationUpdated _ => true | _ => false end.

(** The worker of TrackLocation finds the location allowed: by the stored
    decision, or without one by a dialog answered with 0. *)
Definition track_allowed (B : Portal.Backend) (w : Portal.World)
  (request : Portal.Request) : bool :=
  match fst (Portal.get_geolocation_permissions B w (Portal.app_id request)) with
  | Some (allowed, _) => allowed
  | None =>
      match Portal.access_dialog B with
      | inr 0 => true
      | _ => false
      end
  end.

(** Concrete values for the examples: the request of an earlier
    TrackLocation call that has been closed since is still in the table
    of tracked requests when the location worker runs. *)
Definition closed_request_id : string :=
  "/org/freedesktop/portal/desktop/request/1_10/old".

Definition purging_backend : Portal.Backend :=
  {| Portal.lookup_error := None;
     Portal.set_permission_error := None;
     Portal.access_dialog := inr 0;
     Portal.activate_error := None;
     Portal.impl_request_proxy := None;
     Portal.g_get_monotonic_time := 1000;
     Portal.g_ascii_strtoll := Requests.strtoll_decimal;
     Portal.g_dbus_is_name := fun s => String.eqb s "org.example.Target";
     Portal.g_variant_is_object_path :=
       fun s => String.eqb s "/org/example/Target";
     Portal.unexported_requests := {[closed_request_id]} |}.

Definition tracking_world : Portal.World :=
  {| Portal.store := Portal.store Requests.example_world;
     Portal.geolocation_requests := {[closed_request_id]};
     Portal.trace := [] |}.

(** The keys [check_button] lets pass. *)
Definition button_keys : list string := ["label"; "action"; "target"].

(** An entry [check_notification] lets pass. *)
Definition entry_ok (g_icon_deserialize : Notification.Value -> bool)
  (entry : string * Notification.Value) : Prop :=
  Notification.check_entry g_icon_deserialize (fst entry) (snd entry) = None.

(** Concrete values for the examples: a request of org.example.App for
    notification "n1", coming from connection :1.10. *)
Definition notification_request : Portal.Request :=
  {| Portal.exported := false;
     Portal.app_id := "org.example.App";
     Portal.id := "/org/freedesktop/portal/desktop/request/1_10/n";
     Portal.sender := ":1.10";
     Portal.impl_request := None;
     Portal.data := <["id" := VString "n1"]> ∅ |}.

Definition notification_task : Notification.Task :=
  {| Notification.task_request := notification_request;
     Notification.task_notification :=
       [("title", Notification.VS "Hello")] |}.

Definition notifications_empty : Notification.State :=
  {| Notification.active := ∅;
     Notification.store := <[("notifications", "notification") := ∅]> ∅;
     Notification.trace := [] |}.

End Vocabulary.

(** * Properties of the file-transfer sessions *)

Section SessionProperties.
Import FileTransfer Sessions.

Variable E : Externals.

(** ** Unknown and foreign keys *)

Lemma add_files_unknown_key invocation k fd_ids app st :
  lookup_transfer st k = None ->
  add_files E invocation k fd_ids app st = (access_denied, st).
Proof. intros Hk. unfold add_files. rewrite Hk. reflexivity. Qed.

Lemma add_files_foreign_key invocation k fd_ids app st transfer :
  lookup_transfer st k = Some transfer ->
  sender transfer <> inv_sender invocation ->
  add_files E invocation k fd_ids app st = (access_denied, st).
Proof.
  intros Hk Hne. unfold add_files. rewrite Hk.
  destruct (String.eqb_spec (sender transfer) (inv_sender invocation))
    as [Heq | _]; [contradiction | reflexivity].
Qed.

Lemma retrieve_files_unknown_key invocation k app slack st :
  lookup_transfer st k = None ->
  retrieve_files E invocation k app slack st = (access_denied, st).
Proof. intros Hk. unfold retrieve_files. rewrite Hk. reflexivity. Qed.

Lemma stop_transfer_unknown_key invocation k app st :
  lookup_transfer st k = None ->
  stop_transfer invocation k app st = (access_denied, st).
Proof. intros Hk. unfold stop_transfer. rewrite Hk. reflexivity. Qed.

(** C1, as the code has it.  A key that is not registered is answered by
    [add_files], [retrieve_files] and [stop_transfer] with the same
    access-denied error and no change of state; [add_files] answers a key
    owned by another connection with that very error, again without a
    change.  What [retrieve_files] does never depends on which connection
    calls: it is open to every connection that knows the key. *)
Theorem unknown_or_foreign_key_denied invocation k fd_ids app slack st :
  (lookup_transfer st k = None ->
   add_files E invocation k fd_ids app st = (access_denied, st) /\
   retrieve_files E invocation k app slack st = (access_denied, st) /\
   stop_transfer invocation k app st = (access_denied, st)) /\
  (forall transfer,
      lookup_transfer st k = Some transfer ->
      sender transfer <> inv_sender invocation ->
      add_files E invocation k fd_ids app st = (access_denied, st)) /\
  (forall invocation',
      retrieve_files E invocation' k app slack st
      = retrieve_files E invocation k app slack st).
Proof.
  split; [| split].
  - intros Hk. repeat split.
    + now apply add_files_unknown_key.
    + now apply retrieve_files_unknown_key.
    + now apply stop_transfer_unknown_key.
  - intros transfer Hk Hne. eapply add_files_foreign_key; eassumption.
  - reflexivity.
Qed.

(** ** The loop of add_files *)

Lemma descriptor_fd_at invocation fd_id fd :
  descriptor invocation fd_id = Some fd ->
  exists fds,
    inv_fd_list invocation = Some fds /\
    fd_at fds fd_id = Some fd /\
    (fd =? -1) = false.
Proof.
  unfold descriptor, fd_at. intros H.
  destruct (inv_fd_list invocation) as [fds |]; [| discriminate].
  exists fds. split; [reflexivity |].
  destruct (0 <=? fd_id) eqn:H0; [| discriminate].
  destruct (fd_id <? Z.of_nat (length fds)) eqn:H1; [| discriminate].
  simpl in H.
  destruct (nth (Z.to_nat fd_id) fds (-1) =? -1) eqn:H2; [discriminate |].
  inversion H; subst.
  assert (Hlt : (fd_id <? 0) = false) by (apply Z.ltb_ge; lia).
  rewrite Hlt. split; [reflexivity | assumption].
Qed.

(** The loop leaves early in one of three ways only. *)
Lemma add_files_loop_early transfer app fds fd_ids acc c :
  add_files_loop E transfer app fds fd_ids acc = inl c ->
  c = NoReplyNullError \/ c = Undefined \/ c = not_allowed.
Proof.
  revert acc. induction fd_ids as [| fd_id rest IH]; intros acc H; simpl in H.
  - discriminate.
  - destruct fds as [fdl |]; [| inversion H; auto].
    destruct (fd_at fdl fd_id) as [fd |]; [| inversion H; auto].
    destruct (fd =? -1); [inversion H; auto |].
    destruct (xdp_app_info_get_path_for_fd E app fd) as [[path w] |];
      [| inversion H; auto].
    destruct (writable transfer && negb w); [inversion H; auto |].
    eapply IH; eassumption.
Qed.

(** When the loop runs to its end, every index named an attached
    descriptor, none was refused, and the paths gathered are the
    descriptors' paths in payload order. *)
Lemma add_files_loop_complete transfer app invocation fd_ids acc paths :
  add_files_loop E transfer app (inv_fd_list invocation) fd_ids acc
    = inr paths ->
  exists ps,
    paths = acc ++ ps /\
    Forall2
      (fun fd_id p =>
         exists fd, descriptor invocation fd_id = Some fd /\
                    refused E transfer app fd = false /\
                    path_of E app fd = Some p)
      fd_ids ps.
Proof.
  revert acc. induction fd_ids as [| fd_id rest IH]; intros acc H; simpl in H.
  - inversion H; subst. exists []. split; [now rewrite app_nil_r | constructor].
  - destruct (inv_fd_list invocation) as [fdl |] eqn:Hl; [| discriminate].
    unfold fd_at in H.
    destruct (fd_id <? Z.of_nat (length fdl)) eqn:H1;
      [| simpl in H; discriminate].
    destruct (fd_id <? 0) eqn:H0; [discriminate |].
    destruct (nth (Z.to_nat fd_id) fdl (-1) =? -1) eqn:H2; [discriminate |].
    destruct (xdp_app_info_get_path_for_fd E app
                (nth (Z.to_nat fd_id) fdl (-1))) as [[path w] |] eqn:Hp;
      [| discriminate].
    destruct (writable transfer && negb w) eqn:Hw; [discriminate |].
    destruct (IH _ H) as (ps & -> & Hall).
    exists (path :: ps). split; [now rewrite <- app_assoc |].
    constructor; [| assumption].
    exists (nth (Z.to_nat fd_id) fdl (-1)). repeat split.
    + unfold descriptor. rewrite Hl.
      assert (H0' : (0 <=? fd_id) = true) by (apply Z.leb_le; apply Z.ltb_ge in H0; lia).
      rewrite H0', H1. simpl. now rewrite H2.
    + unfold refused. now rewrite Hp.
    + unfold path_of. now rewrite Hp.
Qed.

(** A refused descriptor anywhere in the payload stops the loop; the stop
    is the not-allowed error when every index names an attached
    descriptor. *)
Lemma add_files_loop_refused transfer app invocation fd_ids acc :
  (exists fd_id fd,
      In fd_id fd_ids /\
      descriptor invocation fd_id = Some fd /\
      refused E transfer app fd = true) ->
  exists c,
    add_files_loop E transfer app (inv_fd_list invocation) fd_ids acc = inl c /\
    (forallb (attached invocation) fd_ids = true -> c = not_allowed).
Proof.
  revert acc. induction fd_ids as [| a rest IH]; intros acc (fd_id & fd & Hin & Hd & Hr).
  - destruct Hin.
  - simpl.
    destruct (inv_fd_list invocation) as [fdl |] eqn:Hl.
    2:{ exists Undefined. split; [reflexivity |].
        unfold attached, descriptor. rewrite Hl. simpl. discriminate. }
    destruct (descriptor invocation a) as [fda |] eqn:Hda.
    + destruct (descriptor_fd_at _ _ _ Hda) as (fds' & Hl' & Hat & Hne).
      rewrite Hl in Hl'. inversion Hl'; subst fds'.
      rewrite Hat, Hne.
      destruct (refused E transfer app fda) eqn:Hra.
      * unfold refused in Hra.
        destruct (xdp_app_info_get_path_for_fd E app fda) as [[path w] |].
        -- rewrite Hra. exists not_allowed. split; [reflexivity | auto].
        -- exists not_allowed. split; [reflexivity | auto].
      * unfold refused in Hra.
        destruct (xdp_app_info_get_path_for_fd E app fda) as [[path w] |] eqn:Hp;
          [| discriminate].
        rewrite Hra.
        assert (Hrest : In fd_id rest).
        { destruct Hin as [-> | Hin]; [| assumption].
          rewrite Hda in Hd. inversion Hd; subst fda.
          unfold refused in Hr. rewrite Hp in Hr. congruence. }
        destruct (IH (acc ++ [path])) as (c & Hc & Hall).
        { exists fd_id, fd. auto. }
        exists c. split; [assumption |].
        intros Hf. apply Hall. apply andb_prop in Hf. tauto.
    + assert (Hatt : attached invocation a = false)
        by (unfold attached; now rewrite Hda).
      destruct (fd_at fdl a) as [fdx |] eqn:Hat.
      2:{ exists Undefined. split; [reflexivity |]. rewrite Hatt. discriminate. }
      destruct (fdx =? -1) eqn:Hx.
      { exists NoReplyNullError. split; [reflexivity |].
        rewrite Hatt. discriminate. }
      exfalso. unfold descriptor in Hda. rewrite Hl in Hda.
      unfold fd_at in Hat.
      destruct (a <? Z.of_nat (length fdl)) eqn:H1.
      * destruct (a <? 0) eqn:H0; [discriminate |].
        inversion Hat; subst fdx.
        assert (H0' : (0 <=? a) = true) by (apply Z.leb_le; apply Z.ltb_ge in H0; lia).
        rewrite H0' in Hda. simpl in Hda. rewrite Hx in Hda. discriminate.
      * inversion Hat; subst fdx. discriminate.
Qed.

(** A call by the owner either changes nothing or answers with success
    and appends the paths of all its descriptors, in payload order. *)
Lemma add_files_appends_all_or_nothing invocation k fd_ids app st transfer :
  lookup_transfer st k = Some transfer ->
  snd (add_files E invocation k fd_ids app st) = st \/
  (fst (add_files E invocation k fd_ids app st) = Returned RetNone /\
   exists paths,
     Forall2
       (fun fd_id p =>
          exists fd, descriptor invocation fd_id = Some fd /\
                     refused E transfer app fd = false /\
                     path_of E app fd = Some p)
       fd_ids paths /\
     snd (add_files E invocation k fd_ids app st)
       = set_transfers st
           (<[k := set_files transfer (files transfer ++ paths)]>
              (transfers st))).
Proof.
  intros Hk. unfold add_files. rewrite Hk.
  destruct (negb (sender transfer =? inv_sender invocation)%string);
    [left; reflexivity |].
  destruct (add_files_loop E transfer app (inv_fd_list invocation) fd_ids [])
    as [c | paths] eqn:Hloop; [left; reflexivity |].
  right. split; [reflexivity |].
  destruct (add_files_loop_complete _ _ _ _ _ _ Hloop) as (ps & -> & Hall).
  exists ps. split; [assumption | reflexivity].
Qed.

(** Take a call by the session's owner.  If every index of its payload
    names a descriptor attached to the message, and one of these
    descriptors does not resolve, or is not open for writing while the
    session is writable, the call returns the not-allowed error and the
    state, the session's path list included, is exactly what it was.  With
    such a descriptor in the payload the call never succeeds, whatever the
    other indices are.  And unless its behaviour is undefined, a call
    leaves the state as it was or answers with success and has appended
    the paths of all its descriptors, in payload order: there is no
    partial append. *)
Theorem add_files_all_or_nothing invocation k fd_ids app st transfer :
  lookup_transfer st k = Some transfer ->
  sender transfer = inv_sender invocation ->
  (forallb (attached invocation) fd_ids = true ->
   (exists fd_id fd,
       In fd_id fd_ids /\
       descriptor invocation fd_id = Some fd /\
       refused E transfer app fd = true) ->
   add_files E invocation k fd_ids app st = (not_allowed, st)) /\
  ((exists fd_id fd,
       In fd_id fd_ids /\
       descriptor invocation fd_id = Some fd /\
       refused E transfer app fd = true) ->
   forall v, fst (add_files E invocation k fd_ids app st) <> Returned v) /\
  (fst (add_files E invocation k fd_ids app st) = Undefined \/
   snd (add_files E invocation k fd_ids app st) = st \/
   exists paths,
     Forall2
       (fun fd_id p =>
          exists fd, descriptor invocation fd_id = Some fd /\
                     refused E transfer app fd = false /\
                     path_of E app fd = Some p)
       fd_ids paths /\
     fst (add_files E invocation k fd_ids app st) = Returned RetNone /\
     lookup_transfer (snd (add_files E invocation k fd_ids app st)) k
       = Some (set_files transfer (files transfer ++ paths))).
Proof.
  intros Hk Hs. split; [| split].
  - intros Hatt Hbad.
    destruct (add_files_loop_refused transfer app invocation fd_ids [] Hbad)
      as (c & Hc & Hall).
    unfold add_files. rewrite Hk, Hs, String.eqb_refl. simpl. rewrite Hc.
    now rewrite (Hall Hatt).
  - intros Hbad v.
    destruct (add_files_loop_refused transfer app invocation fd_ids [] Hbad)
      as (c & Hc & _).
    unfold add_files. rewrite Hk, Hs, String.eqb_refl. simpl. rewrite Hc.
    simpl. intros ->.
    destruct (add_files_loop_early _ _ _ _ _ _ Hc) as [H | [H | H]];
      discriminate.
  - destruct (add_files_appends_all_or_nothing invocation k fd_ids app st
                transfer Hk) as [H | (Hr & paths & Hall & Hst)].
    + right. left. assumption.
    + right. right. exists paths. split; [assumption | split; [assumption |]].
      rewrite Hst. unfold lookup_transfer, set_transfers. simpl.
      apply lookup_insert_eq.
Qed.

(** The entries of a payload that name descriptors the session takes are
    gathered one after the other. *)
Lemma add_files_loop_prefix transfer app invocation good l acc :
  Forall
    (fun fd_id =>
       exists fd, descriptor invocation fd_id = Some fd /\
                  refused E transfer app fd = false)
    good ->
  exists ps,
    add_files_loop E transfer app (inv_fd_list invocation) (good ++ l) acc
    = add_files_loop E transfer app (inv_fd_list invocation) l (acc ++ ps).
Proof.
  intros Hgood. revert acc.
  induction Hgood as [| fd_id good (fd & Hd & Hr) _ IH]; intros acc.
  - exists []. now rewrite app_nil_r.
  - destruct (descriptor_fd_at _ _ _ Hd) as (fds & Hl & Hat & Hne).
    unfold refused in Hr.
    destruct (xdp_app_info_get_path_for_fd E app fd) as [[path w] |] eqn:Hp;
      [| discriminate].
    destruct (IH (acc ++ [path])) as (ps & Hps).
    exists (path :: ps). simpl. rewrite Hl, Hat, Hne, Hp, Hr.
    rewrite <- Hl, Hps, <- app_assoc. reflexivity.
Qed.

(** In a call of the owner the first entry of the payload that fails
    decides how the call ends, whatever comes behind it: with the
    not-allowed error when it names a descriptor the session does not
    take; with no reply at all when its index, not negative, names no
    descriptor of the message.  Nothing is appended either way. *)
Lemma add_files_first_failure invocation k app st transfer fds good bad rest :
  lookup_transfer st k = Some transfer ->
  sender transfer = inv_sender invocation ->
  inv_fd_list invocation = Some fds ->
  Forall
    (fun fd_id =>
       exists fd, descriptor invocation fd_id = Some fd /\
                  refused E transfer app fd = false)
    good ->
  ((exists fd, descriptor invocation bad = Some fd /\
               refused E transfer app fd = true) ->
   add_files E invocation k (good ++ bad :: rest) app st = (not_allowed, st)) /\
  (0 <= bad -> descriptor invocation bad = None ->
   add_files E invocation k (good ++ bad :: rest) app st
   = (NoReplyNullError, st)).
Proof.
  intros Hk Hs Hl Hgood.
  destruct (add_files_loop_prefix transfer app invocation good (bad :: rest) []
              Hgood) as (ps & Hps).
  unfold add_files. rewrite Hk, Hs, String.eqb_refl. cbn [negb].
  rewrite Hps. clear Hps. split.
  - intros (fd & Hd & Hr).
    destruct (descriptor_fd_at _ _ _ Hd) as (fds' & Hl' & Hat & Hne).
    simpl. rewrite Hl', Hat, Hne. unfold refused in Hr.
    destruct (xdp_app_info_get_path_for_fd E app fd) as [[path w] |];
      [rewrite Hr |]; reflexivity.
  - intros Hpos Hnone. simpl. rewrite Hl.
    unfold descriptor in Hnone. rewrite Hl in Hnone. unfold fd_at.
    assert (H0 : (0 <=? bad) = true) by (apply Z.leb_le; lia).
    assert (H0' : (bad <? 0) = false) by (apply Z.ltb_ge; lia).
    rewrite H0 in Hnone. rewrite H0'.
    destruct (bad <? Z.of_nat (length fds)); simpl in Hnone |- *;
      [| reflexivity].
    destruct (nth (Z.to_nat bad) fds (-1) =? -1); [reflexivity | discriminate].
Qed.

(** ** The registry under the four methods *)

Lemma retrieve_files_transfers invocation k app slack st transfer :
  lookup_transfer st k = Some transfer ->
  transfers (snd (retrieve_files E invocation k app slack st))
    = if autostop transfer then delete (key transfer) (transfers st)
      else transfers st.
Proof.
  intros Hk. unfold retrieve_files. rewrite Hk.
  destruct (file_transfer_execute E transfer app slack) as [result calls].
  simpl. destruct (autostop transfer); reflexivity.
Qed.

Lemma stop_transfer_transfers invocation k app st transfer :
  lookup_transfer st k = Some transfer ->
  transfers (snd (stop_transfer invocation k app st))
    = delete (key transfer) (transfers st).
Proof. intros Hk. unfold stop_transfer. rewrite Hk. reflexivity. Qed.

Lemma add_files_transfers invocation k fd_ids app st :
  transfers (snd (add_files E invocation k fd_ids app st)) = transfers st \/
  exists transfer paths,
    lookup_transfer st k = Some transfer /\
    transfers (snd (add_files E invocation k fd_ids app st))
      = <[k := set_files transfer (files transfer ++ paths)]> (transfers st).
Proof.
  unfold add_files.
  destruct (lookup_transfer st k) as [transfer |] eqn:Hk; [| now left].
  destruct (negb (sender transfer =? inv_sender invocation)%string);
    [now left |].
  destruct (add_files_loop E transfer app (inv_fd_list invocation) fd_ids [])
    as [c | paths]; [now left |].
  right. exists transfer, paths. split; reflexivity.
Qed.

Lemma keys_agree_create : keys_agree file_transfer_create.
Proof. intros k transfer H. simpl in H. rewrite lookup_empty in H. discriminate. Qed.

Lemma keys_agree_delete st k' m :
  keys_agree st -> m = delete k' (transfers st) ->
  forall k transfer, m !! k = Some transfer -> key transfer = k.
Proof.
  intros Hst -> k transfer H.
  destruct (decide (k' = k)) as [-> | Hne].
  - rewrite lookup_delete_eq in H. discriminate.
  - rewrite lookup_delete_ne in H by assumption. now apply Hst.
Qed.

Lemma keys_agree_call c st :
  keys_agree st -> keys_agree (snd (call E c st)).
Proof.
  intros Hst. destruct c as [inv options app rnd | inv k fd_ids app
                            | inv k app slack | inv k app]; simpl.
  - unfold start_transfer, file_transfer_start. simpl.
    intros k transfer H. simpl in H.
    destruct (decide (printf_u rnd = k)) as [<- | Hne].
    + rewrite lookup_insert_eq in H. inversion H; subst. reflexivity.
    + rewrite lookup_insert_ne in H by assumption. now apply Hst.
  - destruct (add_files_transfers inv k fd_ids app st)
      as [Heq | (transfer & paths & Hk & Heq)];
      intros k0 t0 H; unfold keys_agree in Hst; rewrite Heq in H.
    + now apply Hst.
    + destruct (decide (k = k0)) as [<- | Hne].
      * rewrite lookup_insert_eq in H. inversion H; subst. simpl.
        now apply Hst.
      * rewrite lookup_insert_ne in H by assumption. now apply Hst.
  - destruct (lookup_transfer st k) as [transfer |] eqn:Hk.
    + intros k0 t0 H. rewrite (retrieve_files_transfers _ _ _ _ _ _ Hk) in H.
      destruct (autostop transfer); [| now apply Hst].
      eapply keys_agree_delete; [exact Hst | reflexivity | exact H].
    + now rewrite retrieve_files_unknown_key.
  - destruct (lookup_transfer st k) as [transfer |] eqn:Hk.
    + intros k0 t0 H. rewrite (stop_transfer_transfers _ _ _ _ _ Hk) in H.
      eapply keys_agree_delete; [exact Hst | reflexivity | exact H].
    + now rewrite stop_transfer_unknown_key.
Qed.

Lemma keys_agree_run cs st :
  keys_agree st -> keys_agree (run_calls E cs st).
Proof.
  revert st. induction cs as [| c cs IH]; intros st Hst; simpl.
  - assumption.
  - apply IH. now apply keys_agree_call.
Qed.

Lemma reachable_keys_agree st : reachable E st -> keys_agree st.
Proof. intros [cs <-]. apply keys_agree_run, keys_agree_create. Qed.

(** A call that spares key [k] leaves a session without autostop
    registered under it. *)
Lemma spared_session_stays c k st transfer :
  keys_agree st ->
  lookup_transfer st k = Some transfer ->
  autostop transfer = false ->
  spares k c = true ->
  exists transfer',
    lookup_transfer (snd (call E c st)) k = Some transfer' /\
    autostop transfer' = false /\
    sender transfer' = sender transfer /\
    writable transfer' = writable transfer.
Proof.
  intros Hst Hk Ha Hsp. unfold lookup_transfer in *.
  destruct c as [inv options app rnd | inv k2 fd_ids app
                | inv k2 app slack | inv k2 app]; simpl in *.
  - exists transfer. rewrite lookup_insert_ne; [auto |].
    intros Heq. rewrite Heq, String.eqb_refl in Hsp. discriminate.
  - destruct (add_files_transfers inv k2 fd_ids app st)
      as [Heq | (t2 & paths & Hk2 & Heq)]; rewrite Heq.
    + exists transfer. auto.
    + destruct (decide (k2 = k)) as [-> | Hne].
      * unfold lookup_transfer in Hk2. rewrite Hk in Hk2.
        inversion Hk2; subst t2.
        rewrite lookup_insert_eq. eexists. split; [reflexivity |]. auto.
      * rewrite lookup_insert_ne by assumption. exists transfer. auto.
  - destruct (lookup_transfer st k2) as [t2 |] eqn:Hk2.
    + rewrite (retrieve_files_transfers _ _ _ _ _ _ Hk2).
      destruct (autostop t2) eqn:Ha2; [| exists transfer; auto].
      rewrite lookup_delete_ne; [exists transfer; auto |].
      rewrite (Hst _ _ Hk2). intros ->.
      unfold lookup_transfer in Hk2. congruence.
    + rewrite retrieve_files_unknown_key by assumption. exists transfer. auto.
  - destruct (lookup_transfer st k2) as [t2 |] eqn:Hk2.
    + rewrite (stop_transfer_transfers _ _ _ _ _ Hk2).
      rewrite lookup_delete_ne; [exists transfer; auto |].
      rewrite (Hst _ _ Hk2). intros ->.
      rewrite String.eqb_refl in Hsp. discriminate.
    + rewrite stop_transfer_unknown_key by assumption. exists transfer. auto.
Qed.

Lemma spared_session_survives cs k st transfer :
  keys_agree st ->
  lookup_transfer st k = Some transfer ->
  autostop transfer = false ->
  forallb (spares k) cs = true ->
  exists transfer',
    lookup_transfer (run_calls E cs st) k = Some transfer' /\
    autostop transfer' = false /\
    sender transfer' = sender transfer /\
    writable transfer' = writable transfer.
Proof.
  revert st transfer. induction cs as [| c cs IH]; intros st transfer Hst Hk Ha Hsp.
  - exists transfer. auto.
  - simpl in Hsp. apply andb_prop in Hsp. destruct Hsp as [Hc Hcs]. simpl.
    destruct (spared_session_stays c k st transfer Hst Hk Ha Hc)
      as (t1 & Hk1 & Ha1 & Hs1 & Hw1).
    destruct (IH (snd (call E c st)) t1) as (t2 & Hk2 & Ha2 & Hs2 & Hw2);
      [now apply keys_agree_call | assumption | assumption | assumption |].
    exists t2. repeat split; congruence.
Qed.

(** A call that spares key [k] does not bring it back once it is gone. *)
Lemma spared_key_stays_gone c k st :
  lookup_transfer st k = None ->
  spares k c = true ->
  lookup_transfer (snd (call E c st)) k = None.
Proof.
  intros Hk Hsp. unfold lookup_transfer in *.
  destruct c as [inv options app rnd | inv k2 fd_ids app
                | inv k2 app slack | inv k2 app]; simpl in *.
  - rewrite lookup_insert_ne; [assumption |].
    intros Heq. rewrite Heq, String.eqb_refl in Hsp. discriminate.
  - destruct (add_files_transfers inv k2 fd_ids app st)
      as [Heq | (t2 & paths & Hk2 & Heq)]; rewrite Heq; [assumption |].
    rewrite lookup_insert_ne; [assumption |].
    intros ->. unfold lookup_transfer in Hk2. congruence.
  - destruct (lookup_transfer st k2) as [t2 |] eqn:Hk2.
    + rewrite (retrieve_files_transfers _ _ _ _ _ _ Hk2).
      destruct (autostop t2); [| assumption].
      destruct (decide (key t2 = k)) as [-> | Hne].
      * apply lookup_delete_eq.
      * now rewrite lookup_delete_ne.
    + now rewrite retrieve_files_unknown_key.
  - destruct (lookup_transfer st k2) as [t2 |] eqn:Hk2.
    + rewrite (stop_transfer_transfers _ _ _ _ _ Hk2).
      destruct (decide (key t2 = k)) as [-> | Hne].
      * apply lookup_delete_eq.
      * now rewrite lookup_delete_ne.
    + now rewrite stop_transfer_unknown_key.
Qed.

(** A call that spares key [k] changes nothing of the session under it
    but its list of files. *)
Lemma session_fields_fixed c k st transfer transfer' :
  lookup_transfer st k = Some transfer ->
  spares k c = true ->
  lookup_transfer (snd (call E c st)) k = Some transfer' ->
  writable transfer' = writable transfer /\
  autostop transfer' = autostop transfer /\
  sender transfer' = sender transfer.
Proof.
  intros Hk Hsp Hk'. unfold lookup_transfer in *.
  destruct c as [inv options app rnd | inv k2 fd_ids app
                | inv k2 app slack | inv k2 app]; simpl in *.
  - rewrite lookup_insert_ne in Hk'.
    + rewrite Hk in Hk'. inversion Hk'. auto.
    + intros Heq. rewrite Heq, String.eqb_refl in Hsp. discriminate.
  - destruct (add_files_transfers inv k2 fd_ids app st)
      as [Heq | (t2 & paths & Hk2 & Heq)]; rewrite Heq in Hk'.
    + rewrite Hk in Hk'. inversion Hk'. auto.
    + destruct (decide (k2 = k)) as [-> | Hne].
      * unfold lookup_transfer in Hk2. rewrite Hk in Hk2.
        inversion Hk2; subst t2.
        rewrite lookup_insert_eq in Hk'. inversion Hk'. auto.
      * rewrite lookup_insert_ne in Hk' by assumption.
        rewrite Hk in Hk'. inversion Hk'. auto.
  - destruct (lookup_transfer st k2) as [t2 |] eqn:Hk2.
    + rewrite (retrieve_files_transfers _ _ _ _ _ _ Hk2) in Hk'.
      destruct (autostop t2).
      * destruct (decide (key t2 = k)) as [Heq | Hne].
        -- rewrite Heq, lookup_delete_eq in Hk'. discriminate.
        -- rewrite lookup_delete_ne in Hk' by assumption.
           rewrite Hk in Hk'. inversion Hk'. auto.
      * rewrite Hk in Hk'. inversion Hk'. auto.
    + rewrite retrieve_files_unknown_key in Hk' by assumption.
      simpl in Hk'. rewrite Hk in Hk'. inversion Hk'. auto.
  - destruct (lookup_transfer st k2) as [t2 |] eqn:Hk2.
    + rewrite (stop_transfer_transfers _ _ _ _ _ Hk2) in Hk'.
      destruct (decide (key t2 = k)) as [Heq | Hne].
      * rewrite Heq, lookup_delete_eq in Hk'. discriminate.
      * rewrite lookup_delete_ne in Hk' by assumption.
        rewrite Hk in Hk'. inversion Hk'. auto.
    + rewrite stop_transfer_unknown_key in Hk' by assumption.
      simpl in Hk'. rewrite Hk in Hk'. inversion Hk'. auto.
Qed.

Lemma spared_key_stays_gone_run cs k st :
  lookup_transfer st k = None ->
  forallb (spares k) cs = true ->
  lookup_transfer (run_calls E cs st) k = None.
Proof.
  revert st. induction cs as [| c cs IH]; intros st Hk Hsp; [assumption |].
  simpl in Hsp. apply andb_prop in Hsp. destruct Hsp as [Hc Hcs].
  simpl. apply IH; [| assumption]. now apply spared_key_stays_gone.
Qed.


(** C3.  In a state the process can reach, take a session registered under
    [k].  If it has autostop, then after a [retrieve_files] call on it,
    whatever the call answered, [k] resolves no more and the session waits
    in the idle queue to be freed.  If it does not have autostop, [k] goes
    on resolving to it through any series of calls, [retrieve_files]
    included, that neither stop [k] nor start a session whose generated key
    is [k] again. *)
Theorem autostop_decides_teardown invocation k app slack st transfer :
  reachable E st ->
  lookup_transfer st k = Some transfer ->
  (autostop transfer = true ->
   lookup_transfer (snd (retrieve_files E invocation k app slack st)) k = None /\
   In transfer (idle (snd (retrieve_files E invocation k app slack st)))) /\
  (autostop transfer = false ->
   lookup_transfer (snd (retrieve_files E invocation k app slack st)) k
     = Some transfer /\
   forall cs,
     forallb (spares k) cs = true ->
     exists transfer',
       lookup_transfer (run_calls E cs st) k = Some transfer' /\
       autostop transfer' = false /\
       sender transfer' = sender transfer /\
       writable transfer' = writable transfer).
Proof.
  intros Hreach Hk.
  pose proof (reachable_keys_agree st Hreach) as Hst.
  split; intros Ha.
  - split.
    + unfold lookup_transfer.
      rewrite (retrieve_files_transfers _ _ _ _ _ _ Hk), Ha.
      rewrite (Hst _ _ Hk). apply lookup_delete_eq.
    + unfold retrieve_files. rewrite Hk.
      destruct (file_transfer_execute E transfer app slack) as [result calls].
      rewrite Ha. simpl. apply in_or_app. right. now left.
  - split.
    + unfold lookup_transfer.
      rewrite (retrieve_files_transfers _ _ _ _ _ _ Hk), Ha. exact Hk.
    + intros cs Hcs. now apply spared_session_survives.
Qed.

(** ** What a successful add_files did *)

Lemma add_files_returned invocation k fd_ids app st v :
  fst (add_files E invocation k fd_ids app st) = Returned v ->
  exists transfer paths,
    lookup_transfer st k = Some transfer /\
    add_files_loop E transfer app (inv_fd_list invocation) fd_ids []
      = inr paths /\
    snd (add_files E invocation k fd_ids app st)
      = set_transfers st
          (<[k := set_files transfer (files transfer ++ paths)]>
             (transfers st)).
Proof.
  unfold add_files.
  destruct (lookup_transfer st k) as [transfer |]; [| discriminate].
  destruct (negb (sender transfer =? inv_sender invocation)%string);
    [discriminate |].
  destruct (add_files_loop E transfer app (inv_fd_list invocation) fd_ids [])
    as [c | paths] eqn:Hloop.
  - simpl. intros ->.
    destruct (add_files_loop_early _ _ _ _ _ _ Hloop) as [H | [H | H]];
      discriminate.
  - intros _. exists transfer, paths. auto.
Qed.

Lemma strv_until_null_elements fs slack :
  strv_until_null (map Some fs ++ slack) = fs ++ strv_until_null slack.
Proof. induction fs as [| f fs IH]; simpl; [reflexivity | now rewrite IH]. Qed.

Lemma strv_until_null_terminated slack :
  terminated slack = true -> strv_until_null slack = [].
Proof. destruct slack as [| [s |] rest]; simpl; [reflexivity | discriminate | reflexivity]. Qed.

(** The host gets the session's paths as they are, provided there is one
    at least and the array's buffer is terminated. *)
Lemma retrieve_files_host invocation k host slack st transfer :
  lookup_transfer st k = Some transfer ->
  xdp_app_info_is_host host = true ->
  files transfer <> [] ->
  terminated slack = true ->
  fst (retrieve_files E invocation k host slack st)
    = Returned (RetStrv (files transfer)).
Proof.
  intros Hk Hh Hne Ht. unfold retrieve_files, file_transfer_execute.
  rewrite Hk, Hh. unfold pdata.
  destruct (files transfer) as [| f fs] eqn:Hf; [contradiction |].
  simpl. rewrite strv_until_null_elements, strv_until_null_terminated by assumption.
  now rewrite app_nil_r.
Qed.

(** What the host gets in general: the session's paths, and behind them
    whatever strings the array's buffer holds up to its first NULL
    cell. *)
Lemma retrieve_files_host_reads_on invocation k host slack st transfer :
  lookup_transfer st k = Some transfer ->
  xdp_app_info_is_host host = true ->
  files transfer <> [] ->
  fst (retrieve_files E invocation k host slack st)
    = Returned (RetStrv (files transfer ++ strv_until_null slack)).
Proof.
  intros Hk Hh Hne. unfold retrieve_files, file_transfer_execute.
  rewrite Hk, Hh. unfold pdata.
  destruct (files transfer) as [| f fs] eqn:Hf; [contradiction |].
  simpl. now rewrite strv_until_null_elements.
Qed.

(** ** Permissions handed to the document store *)




(** Start a session, let a successful [add_files] bring two descriptors
    that resolve to [f1] and [f2], and let the host retrieve: if the cell
    behind the array's elements is NULL, the answer is the list [f1; f2],
    no more and no less, in that order. *)
Theorem host_round_trip
  inv1 options app1 rnd st0 inv2 app2 i1 i2 fd1 fd2 f1 f2 inv3 host slack :
  descriptor inv2 i1 = Some fd1 ->
  descriptor inv2 i2 = Some fd2 ->
  path_of E app2 fd1 = Some f1 ->
  path_of E app2 fd2 = Some f2 ->
  fst (add_files E inv2 (printf_u rnd) [i1; i2] app2
         (snd (start_transfer inv1 options app1 rnd st0)))
    = Returned RetNone ->
  xdp_app_info_is_host host = true ->
  terminated slack = true ->
  fst (retrieve_files E inv3 (printf_u rnd) host slack
         (snd (add_files E inv2 (printf_u rnd) [i1; i2] app2
                 (snd (start_transfer inv1 options app1 rnd st0)))))
    = Returned (RetStrv [f1; f2]).
Proof.
  intros Hd1 Hd2 Hp1 Hp2 Hok Hh Ht.
  destruct (add_files_returned _ _ _ _ _ _ Hok)
    as (transfer & paths & Hk & Hloop & Hst).
  assert (Hfresh : files transfer = []).
  { unfold start_transfer, file_transfer_start, lookup_transfer in Hk.
    simpl in Hk. rewrite lookup_insert_eq in Hk. inversion Hk. reflexivity. }
  destruct (add_files_loop_complete _ _ _ _ _ _ Hloop) as (ps & -> & Hall).
  inversion Hall as [| x p l l' Hx Hrest]; subst.
  inversion Hrest as [| x' p' l2 l2' Hx' Hrest']; subst.
  inversion Hrest'; subst.
  destruct Hx as (fda & Hda & _ & Hpa). destruct Hx' as (fdb & Hdb & _ & Hpb).
  assert (p = f1) by congruence. assert (p' = f2) by congruence. subst p p'.
  rewrite Hst.
  rewrite (retrieve_files_host inv3 (printf_u rnd) host slack _
             (set_files transfer (files transfer ++ [] ++ [f1; f2]))).
  - simpl. rewrite Hfresh. reflexivity.
  - unfold lookup_transfer, set_transfers. simpl. apply lookup_insert_eq.
  - assumption.
  - simpl. rewrite Hfresh. discriminate.
  - assumption.
Qed.

(** ** An index without a descriptor *)

(** When the first index of the owner's payload lies past the attached
    descriptors, [add_files] hands GLib a NULL error: nothing is sent. *)
Lemma add_files_index_past_end invocation k fd_id rest app st transfer fds :
  lookup_transfer st k = Some transfer ->
  sender transfer = inv_sender invocation ->
  inv_fd_list invocation = Some fds ->
  Z.of_nat (length fds) <= fd_id ->
  add_files E invocation k (fd_id :: rest) app st = (NoReplyNullError, st).
Proof.
  intros Hk Hs Hl Hge. unfold add_files. rewrite Hk, Hs, String.eqb_refl.
  simpl. rewrite Hl. unfold fd_at.
  assert (H : (fd_id <? Z.of_nat (length fds)) = false) by (apply Z.ltb_ge; lia).
  rewrite H. reflexivity.
Qed.

(** ** Defaults of start_transfer *)

Lemma start_transfer_registers invocation options app rnd st :
  lookup_transfer (snd (start_transfer invocation options app rnd st))
    (printf_u rnd)
  = Some {| files := [];
            writable := default false (g_variant_lookup_b options "writable");
            autostop := default true (g_variant_lookup_b options "autostop");
            key := printf_u rnd;
            sender := inv_sender invocation;
            app_info := app |}.
Proof.
  unfold start_transfer, file_transfer_start, lookup_transfer. simpl.
  rewrite lookup_insert_eq.
  destruct (g_variant_lookup_b options "writable"),
           (g_variant_lookup_b options "autostop"); reflexivity.
Qed.

Lemma g_variant_lookup_b_absent options k :
  g_variant_lookup_value options k = None -> g_variant_lookup_b options k = None.
Proof. unfold g_variant_lookup_b. now intros ->. Qed.

(** C10.  After [start_transfer] the generated key resolves to a session
    that is not writable when the options have no "writable" entry and has
    autostop when they have no "autostop" entry.  A [retrieve_files] call
    right after the start leaves the key resolvable exactly when the
    options carry the boolean autostop = false; in particular it unregisters
    the session started without an "autostop" entry. *)
Theorem start_transfer_defaults invocation options app rnd st :
  exists transfer,
    lookup_transfer (snd (start_transfer invocation options app rnd st))
      (printf_u rnd) = Some transfer /\
    (g_variant_lookup_value options "writable" = None ->
     writable transfer = false) /\
    (g_variant_lookup_value options "autostop" = None ->
     autostop transfer = true) /\
    (forall invocation' app' slack,
        let after :=
          snd (retrieve_files E invocation' (printf_u rnd) app' slack
                 (snd (start_transfer invocation options app rnd st))) in
        (g_variant_lookup_value options "autostop" = None ->
         lookup_transfer after (printf_u rnd) = None) /\
        (is_Some (lookup_transfer after (printf_u rnd)) <->
         g_variant_lookup_b options "autostop" = Some false)).
Proof.
  eexists. split; [apply start_transfer_registers |]. simpl.
  split; [| split].
  - intros H. now rewrite (g_variant_lookup_b_absent _ _ H).
  - intros H. now rewrite (g_variant_lookup_b_absent _ _ H).
  - intros invocation' app' slack.
    pose proof (start_transfer_registers invocation options app rnd st) as Hk.
    assert (Hafter :
              forall x,
                lookup_transfer
                  (snd (retrieve_files E invocation' (printf_u rnd) app' slack
                          (snd (start_transfer invocation options app rnd st))))
                  x
                = (if default true (g_variant_lookup_b options "autostop")
                   then delete (printf_u rnd)
                          (transfers
                             (snd (start_transfer invocation options app rnd st)))
                   else transfers
                          (snd (start_transfer invocation options app rnd st)))
                  !! x).
    { intros x. unfold lookup_transfer at 1.
      now rewrite (retrieve_files_transfers _ _ _ _ _ _ Hk). }
    rewrite !Hafter.
    split.
    + intros H. rewrite (g_variant_lookup_b_absent _ _ H). simpl.
      apply lookup_delete_eq.
    + unfold lookup_transfer in Hk.
      destruct (g_variant_lookup_b options "autostop") as [[|] |];
        cbn [default from_option id].
      * rewrite lookup_delete_eq.
        split; [intros [x Hx]; discriminate | discriminate].
      * rewrite Hk. split; [reflexivity | eauto].
      * rewrite lookup_delete_eq.
        split; [intros [x Hx]; discriminate | discriminate].
Qed.


(** ** From the options of start_transfer to the document store *)


End SessionProperties.

(** ** The session properties at concrete calls *)

Section SessionExamples.
Import FileTransfer Sessions.

(** The owner started a transfer with no options (key "7") and added the
    descriptors at indices 0 and 1. *)
Lemma started_then_added :
  add_files example_externals owner_call "7" [0; 1] sandboxed_app (started [])
  = (Returned RetNone,
     {| transfers :=
          {[ "7" := {| files := ["/home/u/a.txt"; "/home/u/b.txt"];
                       writable := false;
                       autostop := true;
                       key := "7";
                       sender := ":1.10";
                       app_info := sandboxed_app |} ]};
        idle := [];
        document_adds := [] |}).
Proof. reflexivity. Qed.

(** C1, counterexample.  A connection that does not own the session under
    key "7" calls [retrieve_files] with it: the answer is the list of
    paths, not the access-denied error an unknown key gets, and the call
    unregisters the session. *)
Lemma foreign_connection_retrieves :
  let st := snd (add_files example_externals owner_call "7" [0; 1]
                   sandboxed_app (started [])) in
  (exists transfer,
      lookup_transfer st "7" = Some transfer /\
      sender transfer <> inv_sender other_call) /\
  fst (retrieve_files example_externals other_call "7" host_app [] st)
    = Returned (RetStrv ["/home/u/a.txt"; "/home/u/b.txt"]) /\
  fst (retrieve_files example_externals other_call "8" host_app [] st)
    = access_denied /\
  lookup_transfer
    (snd (retrieve_files example_externals other_call "7" host_app [] st)) "7"
    = None.
Proof.
  rewrite started_then_added. simpl. split; [| split; [| split]].
  - eexists. split; [reflexivity | discriminate].
  - reflexivity.
  - reflexivity.
  - reflexivity.
Qed.

(** [stop_transfer] never reads its invocation: a connection that does not
    own the session under key "7" unregisters it and is answered with
    success. *)
Lemma foreign_connection_stops :
  stop_transfer other_call "7" sandboxed_app (started [])
  = (Returned RetNone,
     {| transfers := ∅;
        idle := [ {| files := [];
                     writable := false;
                     autostop := true;
                     key := "7";
                     sender := ":1.10";
                     app_info := sandboxed_app |} ];
        document_adds := [] |}).
Proof. reflexivity. Qed.

Lemma unknown_or_foreign_key_denied_witness :
  add_files example_externals other_call "8" [0] sandboxed_app (started [])
    = (access_denied, started []) /\
  retrieve_files example_externals other_call "8" host_app [] (started [])
    = (access_denied, started []) /\
  stop_transfer other_call "8" host_app (started [])
    = (access_denied, started []) /\
  add_files example_externals other_call "7" [0] sandboxed_app (started [])
    = (access_denied, started []).
Proof.
  pose proof (unknown_or_foreign_key_denied example_externals other_call "8"
                [0] sandboxed_app [] (started [])) as [Hunknown _].
  pose proof (unknown_or_foreign_key_denied example_externals other_call "7"
                [0] sandboxed_app [] (started [])) as (_ & Hforeign & _).
  destruct (Hunknown eq_refl) as (Ha & _ & _).
  pose proof (unknown_or_foreign_key_denied example_externals other_call "8"
                [0] host_app [] (started [])) as [Hunknown' _].
  destruct (Hunknown' eq_refl) as (_ & Hr & Hs).
  split; [exact Ha |]. split; [exact Hr |]. split; [exact Hs |].
  eapply Hforeign; [reflexivity | discriminate].
Defined.

(** Index 2 names descriptor 5, which does not resolve: the owner's call
    with indices 0, 2 fails and appends nothing. *)
Lemma add_files_all_or_nothing_witness :
  add_files example_externals owner_call "7" [0; 2] sandboxed_app (started [])
  = (not_allowed, started []).
Proof.
  destruct (add_files_all_or_nothing example_externals owner_call "7" [0; 2]
              sandboxed_app (started [])
              {| files := [];
                 writable := false;
                 autostop := true;
                 key := "7";
                 sender := ":1.10";
                 app_info := sandboxed_app |} eq_refl eq_refl)
    as [Hfail _].
  apply Hfail; [reflexivity |].
  exists 2, 5. split; [simpl; auto | split; reflexivity].
Defined.

Lemma autostop_decides_teardown_witness :
  lookup_transfer
    (snd (retrieve_files example_externals other_call "7" host_app []
            (started []))) "7" = None /\
  exists transfer,
    lookup_transfer
      (run_calls example_externals
         [RetrieveFiles other_call "7" host_app [];
          AddFiles owner_call "7" [0] sandboxed_app;
          RetrieveFiles other_call "7" sandboxed_app []]
         (started [("autostop", VBool false)])) "7" = Some transfer /\
    autostop transfer = false.
Proof.
  split.
  - destruct (autostop_decides_teardown example_externals other_call "7"
                host_app [] (started [])
                {| files := [];
                   writable := false;
                   autostop := true;
                   key := "7";
                   sender := ":1.10";
                   app_info := sandboxed_app |}) as [Hdrop _].
    + exists [StartTransfer owner_call [] sandboxed_app 7]. reflexivity.
    + reflexivity.
    + exact (proj1 (Hdrop eq_refl)).
  - destruct (autostop_decides_teardown example_externals other_call "7"
                host_app [] (started [("autostop", VBool false)])
                {| files := [];
                   writable := false;
                   autostop := false;
                   key := "7";
                   sender := ":1.10";
                   app_info := sandboxed_app |}) as [_ Hkeep].
    + exists [StartTransfer owner_call [("autostop", VBool false)]
                sandboxed_app 7].
      reflexivity.
    + reflexivity.
    + destruct (Hkeep eq_refl) as [_ Hrun].
      destruct (Hrun [RetrieveFiles other_call "7" host_app [];
                      AddFiles owner_call "7" [0] sandboxed_app;
                      RetrieveFiles other_call "7" sandboxed_app []] eq_refl)
        as (transfer & Hk & Ha & _).
      exists transfer. split; assumption.
Defined.


Lemma host_round_trip_witness :
  fst (retrieve_files example_externals other_call "7" host_app [None]
         (snd (add_files example_externals owner_call "7" [0; 1] sandboxed_app
                 (started []))))
  = Returned (RetStrv ["/home/u/a.txt"; "/home/u/b.txt"]).
Proof.
  apply (host_round_trip example_externals owner_call [] sandboxed_app 7
           file_transfer_create owner_call sandboxed_app 0 1 3 4
           "/home/u/a.txt" "/home/u/b.txt" other_call host_app [None]);
    reflexivity.
Defined.

(** C2, at a failing call.  The owner attaches three descriptors and
    sends the payload 3, 2.  Index 2 names descriptor 5, which does not
    resolve, so the call is to return an error.  Index 3 comes first and
    names no descriptor: [add_files] ends in
    [g_dbus_method_invocation_return_gerror] with its [error] still NULL,
    and the caller gets no error, nor any reply.  The session is as it
    was.  Sent in the other order, the same two entries are answered with
    the not-allowed error. *)
Theorem refused_descriptor_without_error :
  descriptor owner_call 2 = Some 5 /\
  path_of example_externals sandboxed_app 5 = None /\
  attached owner_call 3 = false /\
  add_files example_externals owner_call "7" [3; 2] sandboxed_app (started [])
    = (NoReplyNullError, started []) /\
  error_reply
    (fst (add_files example_externals owner_call "7" [3; 2] sandboxed_app
            (started []))) = false /\
  add_files example_externals owner_call "7" [2; 3] sandboxed_app (started [])
    = (not_allowed, started []).
Proof. repeat split. Qed.

(** C8, at a failing call.  The owner adds two files and the host
    retrieves.  Behind its two elements the array's buffer holds a
    pointer left there by an earlier use of the memory, here to the
    string "/tmp/stale", and then a NULL cell: [g_strdupv] copies up to
    that NULL, and the answer has three paths for the two files. *)
Theorem host_retrieve_reads_past_the_files :
  fst (add_files example_externals owner_call "7" [0; 1] sandboxed_app
         (started []))
    = Returned RetNone /\
  fst (retrieve_files example_externals other_call "7" host_app
         [Some "/tmp/stale"; None]
         (snd (add_files example_externals owner_call "7" [0; 1] sandboxed_app
                 (started []))))
    = Returned (RetStrv ["/home/u/a.txt"; "/home/u/b.txt"; "/tmp/stale"]).
Proof. repeat split. Qed.

(** C9, at a failing call.  The owner attaches three descriptors and names
    index 3: [add_files] passes its [error], which nothing has set, to
    [g_dbus_method_invocation_return_gerror].  No reply goes out, and what
    comes back is no caller error; the session is as it was. *)
Theorem add_files_index_without_descriptor :
  attached owner_call 3 = false /\
  add_files example_externals owner_call "7" [3] sandboxed_app (started [])
    = (g_dbus_method_invocation_return_gerror None, started []) /\
  caller_error
    (fst (add_files example_externals owner_call "7" [3] sandboxed_app
            (started []))) = false /\
  error_reply
    (fst (add_files example_externals owner_call "7" [3] sandboxed_app
            (started []))) = false.
Proof. repeat split. Qed.

Lemma start_transfer_defaults_witness :
  exists transfer,
    lookup_transfer (started []) "7" = Some transfer /\
    writable transfer = false /\
    autostop transfer = true /\
    lookup_transfer
      (snd (retrieve_files example_externals other_call "7" host_app []
              (started []))) "7" = None.
Proof.
  destruct (start_transfer_defaults example_externals owner_call []
              sandboxed_app 7 file_transfer_create)
    as (transfer & Hk & Hw & Ha & Hget).
  exists transfer. split; [exact Hk |].
  split; [exact (Hw eq_refl) |]. split; [exact (Ha eq_refl) |].
  exact (proj1 (Hget other_call host_app []) eq_refl).
Defined.

End SessionExamples.

(** * Properties of the request handlers *)

(** Whether the call into the application is refused for its arguments. *)
Ltac destruct_refused :=
  try match goal with
      | |- context [Portal.call_refused ?B ?a ?p] =>
          destruct (Portal.call_refused B a p)
      end.

Section RequestProperties.
Import Portal Requests Vocabulary.

(** ** Traces *)

Lemma extends_refl w : extends w w [].
Proof. unfold extends. now rewrite app_nil_r. Qed.

Lemma extends_emit w w' events e :
  extends w w' events -> extends w (emit e w') (events ++ [e]).
Proof. unfold extends. simpl. intros ->. now rewrite app_assoc. Qed.

Lemma extends_trans w1 w2 w3 e12 e23 :
  extends w1 w2 e12 -> extends w2 w3 e23 -> extends w1 w3 (e12 ++ e23).
Proof. unfold extends. intros H12 ->. rewrite H12. now rewrite app_assoc. Qed.

Lemma extends_new_events w w' events :
  extends w w' events -> new_events w w' = events.
Proof.
  unfold extends, new_events. intros ->. apply drop_app_length.
Qed.

Lemma responses_for_app rid l1 l2 :
  responses_for rid (l1 ++ l2) = responses_for rid l1 ++ responses_for rid l2.
Proof.
  induction l1 as [| e l1 IH]; simpl; [reflexivity |].
  destruct e; try assumption.
  destruct (String.eqb request_id rid); simpl; now rewrite IH.
Qed.

Lemma responses_for_silent rid events :
  forallb (fun e => negb (is_response e)) events = true ->
  responses_for rid events = [].
Proof.
  induction events as [| e events IH]; simpl; [reflexivity |].
  intros H. apply andb_prop in H. destruct H as [He Hrest].
  destruct e; simpl in He; try discriminate; now apply IH.
Qed.

Lemma extends_set_store w w' events s :
  extends w w' events -> extends w (set_store w' s) events.
Proof. unfold extends. simpl. auto. Qed.

Lemma extends_set_geolocation_requests w w' events s :
  extends w w' events -> extends w (set_geolocation_requests w' s) events.
Proof. unfold extends. simpl. auto. Qed.

Lemma warnings_are_silent ws :
  forallb is_warning ws = true ->
  List.filter is_dialog ws = [] /\
  List.filter is_store_write ws = [] /\
  forallb (fun e => negb (is_response e)) ws = true.
Proof.
  induction ws as [| e ws IH]; simpl; [auto |].
  intros H. apply andb_prop in H. destruct H as [He Hws].
  destruct e; try discriminate. simpl. now apply IH.
Qed.

(** ** actions.c *)

(** [get_permission] reads the store and at most warns. *)
Lemma get_permission_world B w app application action :
  exists ws,
    extends w (snd (get_permission B w app application action)) ws /\
    forallb is_warning ws = true /\
    store (snd (get_permission B w app application action)) = store w.
Proof.
  unfold get_permission.
  destruct (call_lookup_sync B w TABLE_NAME (application +:+ "::" +:+ action))
    as [out_perms |].
  - destruct (out_perms !! app) as [[| p [| q l]] |]; simpl;
      repeat match goal with
             | |- context [String.eqb ?a ?b] => destruct (String.eqb a b)
             end;
      simpl;
      first [ exists []; split; [apply extends_refl | split; reflexivity]
            | eexists; split;
              [apply (extends_emit _ _ [] _ (extends_refl _))
              | split; reflexivity] ].
  - eexists. split;
      [apply (extends_emit _ _ [] _ (extends_refl _)) | split; reflexivity].
Qed.

Lemma get_permission_reads_store B w1 w2 app application action :
  store w1 = store w2 ->
  fst (get_permission B w1 app application action)
  = fst (get_permission B w2 app application action).
Proof.
  intros Hs. unfold get_permission, call_lookup_sync. rewrite Hs.
  destruct (lookup_error B); [reflexivity |].
  destruct (store w2 !! (TABLE_NAME, application +:+ "::" +:+ action))
    as [out_perms |]; [| reflexivity].
  destruct (out_perms !! app) as [[| p [| q l]] |]; try reflexivity.
  repeat match goal with
         | |- context [String.eqb ?a ?b] => destruct (String.eqb a b)
         end; reflexivity.
Qed.

(** A yes or no written with the store up is the one event of
    [set_permission], and it lands in the store. *)
Lemma set_permission_world B w app application action (allowed : bool) :
  set_permission_error B = None ->
  let w' := set_permission B w app application action
              (if allowed then YES else NO) in
  let obj := application +:+ "::" +:+ action in
  let token := if allowed then "yes" else "no" in
  extends w w' [SetPermission TABLE_NAME obj app [token]] /\
  store w'
  = <[(TABLE_NAME, obj) :=
        <[app := [token]]> (default ∅ (store w !! (TABLE_NAME, obj)))]>
      (store w).
Proof.
  intros Hup. unfold set_permission, call_set_permission_sync.
  rewrite Hup. destruct allowed; simpl;
    (split; [apply (extends_emit _ _ [] _ (extends_refl _)) | reflexivity]).
Qed.

(** What is read back once a yes or no is in the store. *)
Lemma get_permission_after_write B w app application action (allowed : bool) s :
  lookup_error B = None ->
  store w
  = <[(TABLE_NAME, application +:+ "::" +:+ action) :=
        <[app := [if allowed then "yes" else "no"]]> s]> (store w) ->
  fst (get_permission B w app application action)
  = if allowed then YES else NO.
Proof.
  intros Hup Hs. unfold get_permission, call_lookup_sync. rewrite Hup, Hs.
  rewrite lookup_insert_eq, lookup_insert_eq. destruct allowed; reflexivity.
Qed.

Lemma set_permission_silent B w app application action p :
  exists events,
    extends w (set_permission B w app application action p) events /\
    forallb (fun e => negb (is_response e)) events = true.
Proof.
  unfold set_permission, call_set_permission_sync.
  destruct p; destruct (set_permission_error B); simpl;
    eexists; (split; [repeat apply extends_emit; apply extends_refl
                     | reflexivity]).
Qed.

(** The worker of ActivateAction answers an exported request at its last
    statement, unless it has ended before in the read of the unset
    error. *)
Lemma handle_activate_action_in_thread_shape B r w :
  let answers :=
    exported r
    && negb (activation_crashes B (stored_permission B w r)
               (data_string r "application")) in
  exists pre,
    forallb (fun e => negb (is_response e)) pre = true /\
    extends w (snd (handle_activate_action_in_thread B (r, w)))
      (pre ++
       (if answers
        then [Response (id r) (activate_response B (stored_permission B w r))]
        else [])) /\
    fst (handle_activate_action_in_thread B (r, w))
    = (if answers then request_unexport r else r).
Proof.
  cbv zeta.
  unfold handle_activate_action_in_thread, activate_response,
    activation_crashes, activation_allowed, stored_permission.
  destruct (get_permission_world B w (app_id r) (data_string r "application")
              (data_string r "action")) as (ws & Hws & Hwarn & _).
  apply warnings_are_silent in Hwarn. destruct Hwarn as (_ & _ & Hquiet).
  destruct (get_permission B w (app_id r) (data_string r "application")
              (data_string r "action")) as [p w1].
  simpl in Hws.
  destruct p; destruct (access_dialog B) as [err | answer];
    try destruct answer;
    destruct_refused; destruct (activate_error B); destruct (exported r);
    simpl;
    try match goal with
        | |- context [set_permission ?B' ?W ?a ?b ?c ?q] =>
            destruct (set_permission_silent B' W a b c q) as (evs & Hevs & Hsil);
            generalize dependent (set_permission B' W a b c q); intros
        end;
    eexists;
    (split;
     [| split;
        [first [apply extends_emit | rewrite app_nil_r];
         repeat first
           [ exact Hws
           | exact Hevs
           | apply extends_emit
           | (eapply extends_trans; [| exact Hevs]) ]
        | reflexivity ]]);
    rewrite ?forallb_app; simpl; rewrite ?Hquiet, ?Hsil; reflexivity.
Qed.

Lemma store_up_inv B :
  store_up B = true -> lookup_error B = None /\ set_permission_error B = None.
Proof.
  unfold store_up.
  destruct (lookup_error B), (set_permission_error B); try discriminate; auto.
Qed.

Lemma decision_token_answer answer :
  decision_token (inr answer) = if answer =? 0 then "yes" else "no".
Proof. destruct answer; reflexivity. Qed.

Lemma filter_warnings_app (p : Event -> bool) ws l :
  List.filter p ws = [] -> List.filter p (ws ++ l) = List.filter p l.
Proof. intros H. now rewrite List.filter_app, H. Qed.

(** The first ActivateAction call for a triple without a stored decision:
    one dialog, one write of the answer, and the answer is in the store. *)
Lemma handle_activate_first_ask B r w :
  store_up B = true ->
  stored_permission B w r = UNSET ->
  exists events,
    extends w (snd (handle_activate_action_in_thread B (r, w))) events /\
    count_where is_dialog events = 1%nat /\
    store_writes events
    = [SetPermission TABLE_NAME (action_object r) (app_id r)
         [decision_token (access_dialog B)]] /\
    store (snd (handle_activate_action_in_thread B (r, w)))
    = <[(TABLE_NAME, action_object r) :=
          <[app_id r := [decision_token (access_dialog B)]]>
            (default ∅ (store w !! (TABLE_NAME, action_object r)))]>
        (store w).
Proof.
  intros Hup Hunset. apply store_up_inv in Hup. destruct Hup as [_ Hset].
  unfold stored_permission in Hunset.
  unfold handle_activate_action_in_thread, action_object.
  destruct (get_permission_world B w (app_id r) (data_string r "application")
              (data_string r "action")) as (ws & Hws & Hwarn & Hstore).
  apply warnings_are_silent in Hwarn. destruct Hwarn as (Hd & Hsw & _).
  destruct (get_permission B w (app_id r) (data_string r "application")
              (data_string r "action")) as [p w1].
  simpl in Hws, Hstore, Hunset. subst p.
  destruct (access_dialog B) as [err | answer];
    [| rewrite decision_token_answer; destruct (answer =? 0)];
    simpl;
    match goal with
    | |- context [set_permission ?B' ?W ?a ?b ?c (if ?al then YES else NO)] =>
        destruct (set_permission_world B' W a b c al Hset) as [Hevs Hst];
        simpl in Hevs, Hst
    | |- context [set_permission ?B' ?W ?a ?b ?c YES] =>
        destruct (set_permission_world B' W a b c true Hset) as [Hevs Hst];
        simpl in Hevs, Hst
    | |- context [set_permission ?B' ?W ?a ?b ?c NO] =>
        destruct (set_permission_world B' W a b c false Hset) as [Hevs Hst];
        simpl in Hevs, Hst
    end;
    destruct_refused; destruct (activate_error B); destruct (exported r); simpl;
    rewrite ?Hst, ?Hstore;
    eexists;
    (split;
     [repeat first
        [ exact Hws
        | apply extends_emit
        | (eapply extends_trans; [| exact Hevs]) ]
     |]);
    unfold count_where, store_writes;
    rewrite <- ?app_assoc;
    rewrite (filter_warnings_app _ _ _ Hd), (filter_warnings_app _ _ _ Hsw);
    simpl; auto.
Qed.

(** An ActivateAction call that finds yes or no stored asks nobody and
    writes nothing. *)
Lemma handle_activate_recall B r w :
  stored_permission B w r = YES \/ stored_permission B w r = NO ->
  exists events,
    extends w (snd (handle_activate_action_in_thread B (r, w))) events /\
    count_where is_dialog events = 0%nat /\
    store_writes events = [] /\
    store (snd (handle_activate_action_in_thread B (r, w))) = store w.
Proof.
  intros Hp. unfold stored_permission in Hp.
  unfold handle_activate_action_in_thread.
  destruct (get_permission_world B w (app_id r) (data_string r "application")
              (data_string r "action")) as (ws & Hws & Hwarn & Hstore).
  apply warnings_are_silent in Hwarn. destruct Hwarn as (Hd & Hsw & _).
  destruct (get_permission B w (app_id r) (data_string r "application")
              (data_string r "action")) as [p w1].
  simpl in Hws, Hstore, Hp.
  destruct Hp as [-> | ->];
    destruct_refused; destruct (activate_error B); destruct (exported r); simpl;
    rewrite ?Hstore;
    eexists;
    (split; [repeat first [exact Hws | apply extends_emit] |]);
    unfold count_where, store_writes;
    rewrite <- ?app_assoc;
    rewrite ?(filter_warnings_app _ _ _ Hd), ?(filter_warnings_app _ _ _ Hsw);
    rewrite ?Hd, ?Hsw;
    simpl; auto.
Qed.

Lemma stored_permission_same_triple B w r1 r2 :
  same_triple r1 r2 -> stored_permission B w r2 = stored_permission B w r1.
Proof.
  intros (Ha & Hb & Hc). unfold stored_permission. now rewrite Ha, Hb, Hc.
Qed.

Lemma stored_permission_reads_store B w1 w2 r :
  store w1 = store w2 -> stored_permission B w1 r = stored_permission B w2 r.
Proof. intros H. unfold stored_permission. now apply get_permission_reads_store. Qed.

(** What is stored does not depend on who looks, as long as the lookup
    goes through. *)
Lemma stored_permission_any_backend B1 B2 w r :
  lookup_error B1 = None -> lookup_error B2 = None ->
  stored_permission B1 w r = stored_permission B2 w r.
Proof.
  intros H1 H2. unfold stored_permission, get_permission, call_lookup_sync.
  rewrite H1, H2. reflexivity.
Qed.

(** Any number of later calls for a triple whose decision is stored. *)
Lemma run_activations_recall calls r0 w B0 :
  lookup_error B0 = None ->
  stored_permission B0 w r0 = YES \/ stored_permission B0 w r0 = NO ->
  Forall (fun c => lookup_error (fst c) = None /\ same_triple r0 (snd c))
    calls ->
  exists events,
    extends w (run_activations calls w) events /\
    count_where is_dialog events = 0%nat /\
    store_writes events = [] /\
    store (run_activations calls w) = store w.
Proof.
  intros HB0 Hp Hcalls. revert w Hp.
  induction Hcalls as [| [B r] calls [HB Hsame] _ IH]; intros w Hp.
  - exists []. repeat split. apply extends_refl.
  - simpl in HB, Hsame.
    assert (Hp' : stored_permission B w r = YES \/ stored_permission B w r = NO).
    { rewrite (stored_permission_same_triple B w r0 r Hsame).
      now rewrite (stored_permission_any_backend B B0 w r0 HB HB0). }
    destruct (handle_activate_recall B r w Hp') as (e1 & He1 & Hd1 & Hw1 & Hs1).
    change (run_activations ((B, r) :: calls) w)
      with (run_activations calls
              (snd (handle_activate_action_in_thread B (r, w)))).
    destruct (IH (snd (handle_activate_action_in_thread B (r, w))))
      as (e2 & He2 & Hd2 & Hw2 & Hs2).
    { now rewrite (stored_permission_reads_store B0 _ w r0 Hs1). }
    exists (e1 ++ e2). split; [eapply extends_trans; eassumption |].
    split; [| split].
    + unfold count_where in *. now rewrite List.filter_app, length_app, Hd1, Hd2.
    + unfold store_writes in *. now rewrite List.filter_app, Hw1, Hw2.
    + now rewrite Hs2.
Qed.

(** ** geolocation.c *)

Lemma get_geolocation_permissions_world B w app :
  exists ws,
    extends w (snd (get_geolocation_permissions B w app)) ws /\
    forallb is_warning ws = true /\
    store (snd (get_geolocation_permissions B w app)) = store w.
Proof.
  unfold get_geolocation_permissions.
  destruct (call_lookup_sync B w PERMISSIONS_TABLE PERMISSIONS_ID)
    as [out_perms |].
  - destruct (out_perms !! app) as [[| p [| q l]] |]; simpl;
      first [ exists []; split; [apply extends_refl | split; reflexivity]
            | eexists; split;
              [apply (extends_emit _ _ [] _ (extends_refl _))
              | split; reflexivity] ].
  - eexists. split;
      [apply (extends_emit _ _ [] _ (extends_refl _)) | split; reflexivity].
Qed.

Lemma set_geolocation_permissions_world B w app allowed timestamp :
  set_permission_error B = None ->
  let w' := set_geolocation_permissions B w app allowed timestamp in
  let permissions := [accuracy_token allowed; printf_li timestamp] in
  extends w w'
    [SetPermission PERMISSIONS_TABLE PERMISSIONS_ID app permissions] /\
  store w'
  = <[(PERMISSIONS_TABLE, PERMISSIONS_ID) :=
        <[app := permissions]>
          (default ∅ (store w !! (PERMISSIONS_TABLE, PERMISSIONS_ID)))]>
      (store w).
Proof.
  intros Hup. unfold set_geolocation_permissions, call_set_permission_sync.
  rewrite Hup. simpl.
  split; [apply (extends_emit _ _ [] _ (extends_refl _)) | reflexivity].
Qed.

Lemma set_geolocation_permissions_silent B w app allowed timestamp :
  exists events,
    extends w (set_geolocation_permissions B w app allowed timestamp) events /\
    forallb (fun e => negb (is_response e)) events = true.
Proof.
  unfold set_geolocation_permissions, call_set_permission_sync.
  destruct (set_permission_error B); simpl;
    eexists; (split; [repeat apply extends_emit; apply extends_refl
                     | reflexivity]).
Qed.

Lemma get_geolocation_permissions_after_write B w app allowed stamp s :
  lookup_error B = None ->
  store w
  = <[(PERMISSIONS_TABLE, PERMISSIONS_ID) :=
        <[app := [accuracy_token allowed; stamp]]> s]> (store w) ->
  fst (get_geolocation_permissions B w app)
  = Some (allowed, g_ascii_strtoll B stamp).
Proof.
  intros Hup Hs. unfold get_geolocation_permissions, call_lookup_sync.
  rewrite Hup, Hs, lookup_insert_eq, lookup_insert_eq.
  destruct allowed; reflexivity.
Qed.

(** The worker of TrackLocation answers an exported request at its last
    statement and leaves it exported. *)
Lemma handle_track_in_thread_func_shape B r w :
  exists pre code,
    forallb (fun e => negb (is_response e)) pre = true /\
    extends w (snd (handle_track_in_thread_func B (r, w)))
      (pre ++ (if exported r then [Response (id r) code] else [])) /\
    exported (fst (handle_track_in_thread_func B (r, w))) = exported r /\
    id (fst (handle_track_in_thread_func B (r, w))) = id r.
Proof.
  unfold handle_track_in_thread_func, track_permission.
  destruct (get_geolocation_permissions_world B w (app_id r))
    as (ws & Hws & Hwarn & _).
  apply warnings_are_silent in Hwarn. destruct Hwarn as (_ & _ & Hquiet).
  destruct (get_geolocation_permissions B w (app_id r)) as [found w1].
  simpl in Hws.
  destruct found as [[allowed last_used] |];
    [| destruct (access_dialog B) as [err | answer];
       [| destruct (answer =? 0)]];
    try destruct allowed; simpl;
    try match goal with
        | |- context [set_geolocation_permissions ?B' ?W ?a ?b ?c] =>
            destruct (set_geolocation_permissions_silent B' W a b c)
              as (evs & Hevs & Hsil);
            generalize dependent (set_geolocation_permissions B' W a b c);
            intros
        end;
    unfold emit_location_updated, track_request; simpl;
    destruct (exported r) eqn:Hex; simpl;
    eexists; eexists;
    first
      [ exact 0
      | (split;
         [| split;
            [first [apply extends_emit | rewrite app_nil_r];
             repeat first
               [ exact Hws
               | exact Hevs
               | apply extends_emit
               | apply extends_set_geolocation_requests
               | (eapply extends_trans; [| exact Hevs]) ]
            | split; first [reflexivity | exact Hex] ]];
         rewrite ?forallb_app; simpl; rewrite ?Hquiet, ?Hsil; reflexivity) ].
Qed.

(** The first TrackLocation call of an application without a stored
    decision, when the dialog call returns: one dialog, one write of the
    answer. *)
Lemma handle_track_first_ask B r w answer :
  store_up B = true ->
  fst (get_geolocation_permissions B w (app_id r)) = None ->
  access_dialog B = inr answer ->
  let permissions :=
    [accuracy_token (answer =? 0);
     printf_li (if answer =? 0 then g_get_monotonic_time B else 0)] in
  exists events,
    extends w (snd (handle_track_in_thread_func B (r, w))) events /\
    count_where is_dialog events = 1%nat /\
    store_writes events
    = [SetPermission PERMISSIONS_TABLE PERMISSIONS_ID (app_id r) permissions] /\
    store (snd (handle_track_in_thread_func B (r, w)))
    = <[(PERMISSIONS_TABLE, PERMISSIONS_ID) :=
          <[app_id r := permissions]>
            (default ∅ (store w !! (PERMISSIONS_TABLE, PERMISSIONS_ID)))]>
        (store w).
Proof.
  intros Hup Hunset Hanswer. apply store_up_inv in Hup.
  destruct Hup as [_ Hset].
  unfold handle_track_in_thread_func, track_permission.
  destruct (get_geolocation_permissions_world B w (app_id r))
    as (ws & Hws & Hwarn & Hstore).
  apply warnings_are_silent in Hwarn. destruct Hwarn as (Hd & Hsw & _).
  destruct (get_geolocation_permissions B w (app_id r)) as [found w1].
  simpl in Hws, Hstore, Hunset. subst found. rewrite Hanswer.
  destruct (answer =? 0); simpl;
    match goal with
    | |- context [set_geolocation_permissions ?B' ?W ?a ?b ?c] =>
        destruct (set_geolocation_permissions_world B' W a b c Hset)
          as [Hevs Hst];
        simpl in Hevs, Hst
    end;
    unfold emit_location_updated, track_request; simpl;
    destruct (exported r); simpl;
    rewrite ?Hst, ?Hstore;
    eexists;
    (split;
     [repeat first
        [ exact Hws
        | apply extends_emit
        | apply extends_set_geolocation_requests
        | (eapply extends_trans; [| exact Hevs]) ]
     |]);
    unfold count_where, store_writes;
    rewrite <- ?app_assoc;
    rewrite (filter_warnings_app _ _ _ Hd), (filter_warnings_app _ _ _ Hsw);
    simpl; auto.
Qed.

(** A TrackLocation call that finds a decision stored asks nobody, and
    writes the record once more. *)
Lemma handle_track_recall B r w allowed last_used :
  store_up B = true ->
  fst (get_geolocation_permissions B w (app_id r)) = Some (allowed, last_used) ->
  let permissions :=
    [accuracy_token allowed;
     printf_li (if allowed then g_get_monotonic_time B else last_used)] in
  exists events,
    extends w (snd (handle_track_in_thread_func B (r, w))) events /\
    count_where is_dialog events = 0%nat /\
    store_writes events
    = [SetPermission PERMISSIONS_TABLE PERMISSIONS_ID (app_id r) permissions].
Proof.
  intros Hup Hfound. apply store_up_inv in Hup. destruct Hup as [_ Hset].
  unfold handle_track_in_thread_func, track_permission.
  destruct (get_geolocation_permissions_world B w (app_id r))
    as (ws & Hws & Hwarn & Hstore).
  apply warnings_are_silent in Hwarn. destruct Hwarn as (Hd & Hsw & _).
  destruct (get_geolocation_permissions B w (app_id r)) as [found w1].
  simpl in Hws, Hstore, Hfound. subst found.
  destruct allowed; simpl;
    match goal with
    | |- context [set_geolocation_permissions ?B' ?W ?a ?b ?c] =>
        destruct (set_geolocation_permissions_world B' W a b c Hset)
          as [Hevs Hst];
        simpl in Hevs, Hst
    end;
    unfold emit_location_updated, track_request; simpl;
    destruct (exported r); simpl;
    eexists;
    (split;
     [repeat first
        [ exact Hws
        | apply extends_emit
        | apply extends_set_geolocation_requests
        | (eapply extends_trans; [| exact Hevs]) ]
     |]);
    unfold count_where, store_writes;
    rewrite <- ?app_assoc;
    rewrite (filter_warnings_app _ _ _ Hd), (filter_warnings_app _ _ _ Hsw);
    simpl; auto.
Qed.

(** ** One step on one request *)

Lemma responses_for_own rid (answer : list Z) :
  responses_for rid (map (Response rid) answer) = answer.
Proof.
  induction answer as [| a answer IH]; simpl; [reflexivity |].
  now rewrite String.eqb_refl, IH.
Qed.

(** Every step adds events that are silent about responses, followed by at
    most one response to its own request.  It answers only an exported
    request, and every step but the location worker's has the request
    unexported once it has answered. *)
Lemma step_answers s r w :
  exists pre answer,
    forallb (fun e => negb (is_response e)) pre = true /\
    extends w (snd (step s (r, w))) (pre ++ map (Response (id r)) answer) /\
    id (fst (step s (r, w))) = id r /\
    (length answer <= 1)%nat /\
    (exported r = false ->
     answer = [] /\ exported (fst (step s (r, w))) = false) /\
    (retires s = true -> answer <> [] ->
     exported (fst (step s (r, w))) = false).
Proof.
  destruct s as [B | B | finish | | response |]; unfold step.
  - destruct (handle_activate_action_in_thread_shape B r w)
      as (pre & Hpre & Hext & Hfst).
    exists pre,
      (if exported r
          && negb (activation_crashes B (stored_permission B w r)
                     (data_string r "application"))
       then [activate_response B (stored_permission B w r)] else []).
    rewrite Hfst. destruct (exported r) eqn:Hex;
      destruct (activation_crashes B (stored_permission B w r)
                  (data_string r "application"));
      simpl in *;
      repeat split; auto; try discriminate; try contradiction.
  - destruct (handle_track_in_thread_func_shape B r w)
      as (pre & code & Hpre & Hext & Hex' & Hid).
    exists pre, (if exported r then [code] else []).
    rewrite Hex', Hid. destruct (exported r) eqn:Hex; simpl;
      repeat split; auto; try discriminate; try contradiction.
  - unfold get_accounts_done.
    destruct finish as [err | answer]; simpl.
    + exists [Warning "Backend call failed"], []. simpl.
      repeat split; auto; try contradiction.
    + exists [], []. simpl. repeat split; auto; try contradiction.
      apply extends_refl.
  - unfold send_response_in_thread_func.
    exists [], (if exported r then [data_int r "response"] else []).
    destruct (exported r) eqn:Hex; simpl;
      repeat split; auto; try discriminate; try contradiction;
      apply extends_refl.
  - unfold respond.
    exists [], (if exported r then [response] else []).
    destruct (exported r) eqn:Hex; simpl;
      repeat split; auto; try discriminate; try contradiction;
      apply extends_refl.
  - unfold close.
    exists (match impl_request r with
            | Some handle => [CloseImpl handle]
            | None => []
            end),
      (if exported r then [XDG_DESKTOP_PORTAL_RESPONSE_CANCELLED] else []).
    destruct (impl_request r), (exported r) eqn:Hex; simpl;
      repeat split; auto; try discriminate; try contradiction;
      repeat first [apply extends_refl
                   | apply (extends_emit _ _ [] _ (extends_refl _))
                   | apply (extends_emit _ _ [_] _
                              (extends_emit _ _ [] _ (extends_refl _)))].
Qed.

Lemma step_responses s r w :
  exists answer,
    responses_for (id r) (trace (snd (step s (r, w))))
    = responses_for (id r) (trace w) ++ answer /\
    id (fst (step s (r, w))) = id r /\
    (length answer <= 1)%nat /\
    (exported r = false ->
     answer = [] /\ exported (fst (step s (r, w))) = false) /\
    (retires s = true -> answer <> [] ->
     exported (fst (step s (r, w))) = false).
Proof.
  destruct (step_answers s r w) as (pre & answer & Hpre & Hext & Hrest).
  exists answer. split; [| exact Hrest].
  unfold extends in Hext. rewrite Hext, !responses_for_app.
  now rewrite (responses_for_silent _ _ Hpre), responses_for_own.
Qed.

(** Through steps that retire what they answer, a request that is still
    exported has no response yet, and no request ever has two. *)
Lemma run_steps_at_most_one steps r w :
  forallb retires steps = true ->
  (length (responses_for (id r) (trace w)) <= 1)%nat ->
  (exported r = true -> responses_for (id r) (trace w) = []) ->
  (length
     (responses_for (id r) (trace (snd (run_steps steps (r, w))))) <= 1)%nat.
Proof.
  revert r w. induction steps as [| s steps IH]; intros r w Hret Hlen Hexp.
  - exact Hlen.
  - simpl in Hret. apply andb_prop in Hret. destruct Hret as [Hs Hsteps].
    unfold run_steps. simpl. fold (run_steps steps (step s (r, w))).
    destruct (step_responses s r w)
      as (answer & Hresp & Hid & Hone & Hunexp & Hretire).
    destruct (step s (r, w)) as [r' w'] eqn:Hstep. simpl in *.
    rewrite <- Hid. apply IH; [assumption | |]; rewrite Hid, Hresp.
    + destruct (exported r) eqn:Hex.
      * rewrite (Hexp eq_refl). simpl. exact Hone.
      * destruct (Hunexp eq_refl) as [-> _]. now rewrite app_nil_r.
    + intros Hex'. destruct (exported r) eqn:Hex.
      * rewrite (Hexp eq_refl). simpl.
        destruct answer as [| a answer]; [reflexivity |].
        rewrite (Hretire Hs) in Hex' by discriminate. discriminate.
      * destruct (Hunexp eq_refl) as [_ Hf]. congruence.
Qed.

(** ** Failing calls into the backend *)

(** The answer of the ActivateAction worker to an exported request: none
    when it ends in the read of the unset error. *)
Lemma handle_activate_action_in_thread_response B r w :
  exported r = true ->
  responses_for (id r)
    (new_events w (snd (handle_activate_action_in_thread B (r, w))))
  = if activation_crashes B (stored_permission B w r)
         (data_string r "application")
    then []
    else [activate_response B (stored_permission B w r)].
Proof.
  intros Hex.
  destruct (handle_activate_action_in_thread_shape B r w)
    as (pre & Hpre & Hext & _).
  rewrite Hex in Hext. rewrite (extends_new_events _ _ _ Hext).
  rewrite responses_for_app, (responses_for_silent _ _ Hpre).
  destruct (activation_crashes B (stored_permission B w r)
              (data_string r "application")); simpl; [reflexivity |].
  now rewrite String.eqb_refl.
Qed.

(** When the call into the target application goes out and fails, the
    answer is 2. *)
Lemma failed_activation_answers_other B r w err :
  exported r = true ->
  stored_permission B w r = YES ->
  call_refused B (data_string r "application")
    (application_path_from_appid (data_string r "application")) = false ->
  activate_error B = Some err ->
  responses_for (id r)
    (new_events w (snd (handle_activate_action_in_thread B (r, w))))
  = [XDG_DESKTOP_PORTAL_RESPONSE_OTHER].
Proof.
  intros Hex Hp Hgoes Herr.
  rewrite handle_activate_action_in_thread_response by assumption.
  unfold activation_crashes, activate_response. rewrite Hgoes, andb_false_r.
  now rewrite Hp, Herr.
Qed.

(** When the access dialog cannot be shown, the ActivateAction worker
    answers 1, whatever else happens. *)
Lemma failed_dialog_answers_cancelled B r w err :
  exported r = true ->
  stored_permission B w r = UNSET \/ stored_permission B w r = ASK ->
  access_dialog B = inl err ->
  responses_for (id r)
    (new_events w (snd (handle_activate_action_in_thread B (r, w))))
  = [XDG_DESKTOP_PORTAL_RESPONSE_CANCELLED].
Proof.
  intros Hex Hp Herr. rewrite handle_activate_action_in_thread_response by assumption.
  unfold activation_crashes, activation_allowed, activate_response.
  destruct Hp as [-> | ->]; now rewrite Herr.
Qed.

(** When the access dialog cannot be shown, the TrackLocation worker
    warns, writes nothing and answers 2. *)
Lemma track_failed_dialog_answers_other B r w err :
  exported r = true ->
  fst (get_geolocation_permissions B w (app_id r)) = None ->
  access_dialog B = inl err ->
  let events := new_events w (snd (handle_track_in_thread_func B (r, w))) in
  responses_for (id r) events = [XDG_DESKTOP_PORTAL_RESPONSE_OTHER] /\
  store_writes events = [] /\
  In (Warning "Failed to show access dialog") events.
Proof.
  intros Hex Hunset Herr.
  unfold handle_track_in_thread_func, track_permission.
  destruct (get_geolocation_permissions_world B w (app_id r))
    as (ws & Hws & Hwarn & _).
  apply warnings_are_silent in Hwarn. destruct Hwarn as (_ & Hsw & Hquiet).
  destruct (get_geolocation_permissions B w (app_id r)) as [found w1].
  simpl in Hws, Hunset. subst found. rewrite Herr. simpl. rewrite Hex. simpl.
  erewrite extends_new_events; [| repeat apply extends_emit; exact Hws].
  split; [| split].
  - rewrite !responses_for_app, (responses_for_silent _ _ Hquiet). simpl.
    now rewrite String.eqb_refl.
  - unfold store_writes. rewrite <- !app_assoc.
    now rewrite (filter_warnings_app _ _ _ Hsw).
  - rewrite !in_app_iff. simpl. tauto.
Qed.

Lemma data_int_set r k n : data_int (g_object_set_data r k (VUint32 n)) k = n.
Proof. unfold data_int, g_object_set_data. simpl. now rewrite lookup_insert_eq. Qed.

(** When a gnome-accounts backend call fails, the completion callback
    warns and the response task answers an exported request with 2. *)
Lemma accounts_failure_answers_other r w err :
  exported r = true ->
  let events :=
    new_events w
      (snd (run_steps [AccountsDone (inl err); SendResponseThread] (r, w))) in
  events = [Warning "Backend call failed";
            Response (id r) XDG_DESKTOP_PORTAL_RESPONSE_OTHER].
Proof.
  intros Hex. unfold run_steps. simpl. rewrite Hex. simpl.
  unfold new_events. simpl. rewrite <- app_assoc, drop_app_length.
  now rewrite data_int_set.
Qed.

(** ** The claims about requests *)

Lemma step_silent_elsewhere s r w rid :
  exported r = false ->
  responses_for rid (trace (snd (step s (r, w))))
  = responses_for rid (trace w).
Proof.
  intros Hex.
  destruct (step_answers s r w)
    as (pre & answer & Hpre & Hext & _ & _ & Hunexp & _).
  destruct (Hunexp Hex) as [-> _].
  unfold extends in Hext. rewrite Hext, !responses_for_app.
  rewrite (responses_for_silent _ _ Hpre). simpl. now rewrite app_nil_r.
Qed.

(** C4, as the code has it.  No step emits a response for a request that
    is not exported.  A step other than the location worker's that emits a
    response for its request leaves it unexported.  So a request with no
    response yet gets at most one through any series of such steps.  The
    location worker answers at most once per run and leaves the request
    exported as it found it. *)
Theorem one_response_through_retiring_steps :
  (forall s r w rid,
      exported r = false ->
      responses_for rid (trace (snd (step s (r, w))))
      = responses_for rid (trace w)) /\
  (forall s r w,
      retires s = true ->
      responses_for (id r) (trace (snd (step s (r, w))))
        <> responses_for (id r) (trace w) ->
      exported r = true /\ exported (fst (step s (r, w))) = false) /\
  (forall steps r w,
      forallb retires steps = true ->
      responses_for (id r) (trace w) = [] ->
      (length (responses_for (id r) (trace (snd (run_steps steps (r, w)))))
       <= 1)%nat) /\
  (forall B r w,
      exported (fst (handle_track_in_thread_func B (r, w))) = exported r /\
      (length
         (responses_for (id r)
            (new_events w (snd (handle_track_in_thread_func B (r, w)))))
       <= 1)%nat).
Proof.
  split; [| split; [| split]].
  - intros s r w rid Hex. now apply step_silent_elsewhere.
  - intros s r w Hret Hnew.
    destruct (step_responses s r w)
      as (answer & Hresp & _ & _ & Hunexp & Hretire).
    assert (Hanswer : answer <> []).
    { intros ->. rewrite app_nil_r in Hresp. contradiction. }
    split; [| now apply Hretire].
    destruct (exported r); [reflexivity |].
    destruct (Hunexp eq_refl) as [-> _]. contradiction.
  - intros steps r w Hret Hfresh.
    apply run_steps_at_most_one; [assumption | |].
    + rewrite Hfresh. simpl. lia.
    + intros _. exact Hfresh.
  - intros B r w.
    destruct (handle_track_in_thread_func_shape B r w)
      as (pre & code & Hpre & Hext & Hex & _).
    split; [exact Hex |].
    rewrite (extends_new_events _ _ _ Hext), responses_for_app.
    rewrite (responses_for_silent _ _ Hpre).
    destruct (exported r); simpl; [| lia].
    rewrite String.eqb_refl. simpl. lia.
Qed.

Lemma decision_token_allowed answer :
  decision_token answer
  = if (match answer with inr 0 => true | _ => false end) then "yes" else "no".
Proof. destruct answer as [err | [| p | p]]; reflexivity. Qed.

Lemma decision_allowed answer :
  decision answer
  = if (match answer with inr 0 => true | _ => false end) then YES else NO.
Proof. destruct answer as [err | [| p | p]]; reflexivity. Qed.

(** The store after a TrackLocation call that found the decision on
    file. *)
Lemma handle_track_recall_store B r w allowed last_used :
  store_up B = true ->
  fst (get_geolocation_permissions B w (app_id r)) = Some (allowed, last_used) ->
  store (snd (handle_track_in_thread_func B (r, w)))
  = <[(PERMISSIONS_TABLE, PERMISSIONS_ID) :=
        <[app_id r :=
            [accuracy_token allowed;
             printf_li (if allowed then g_get_monotonic_time B
                        else last_used)]]>
          (default ∅ (store w !! (PERMISSIONS_TABLE, PERMISSIONS_ID)))]>
      (store w).
Proof.
  intros Hup Hfound. apply store_up_inv in Hup. destruct Hup as [_ Hset].
  unfold handle_track_in_thread_func, track_permission.
  destruct (get_geolocation_permissions_world B w (app_id r))
    as (ws & _ & _ & Hstore).
  destruct (get_geolocation_permissions B w (app_id r)) as [found w1].
  simpl in Hstore, Hfound. subst found.
  destruct allowed; simpl;
    match goal with
    | |- context [set_geolocation_permissions ?B' ?W ?a ?b ?c] =>
        destruct (set_geolocation_permissions_world B' W a b c Hset)
          as [_ Hst];
        simpl in Hst
    end;
    unfold emit_location_updated, track_request, purge_dead_requests; simpl;
    destruct (exported r); simpl; rewrite Hst, Hstore; reflexivity.
Qed.

Lemma count_where_app (p : Event -> bool) l1 l2 :
  count_where p (l1 ++ l2) = (count_where p l1 + count_where p l2)%nat.
Proof. unfold count_where. now rewrite List.filter_app, length_app. Qed.

(** Any number of later TrackLocation calls of an application whose
    decision is on file: no dialog, and one write each. *)
Lemma run_tracks_recall later :
  forall w app allowed stamp s,
    store w
    = <[(PERMISSIONS_TABLE, PERMISSIONS_ID) :=
          <[app := [accuracy_token allowed; stamp]]> s]> (store w) ->
    Forall (fun c => store_up (fst c) = true /\ app_id (snd c) = app) later ->
    exists events,
      extends w (run_tracks later w) events /\
      count_where is_dialog events = 0%nat /\
      store_writes events = track_writes app allowed stamp later.
Proof.
  induction later as [| [B2 r2] rest IH]; intros w app allowed stamp s Hs Hall.
  - exists []. split; [apply extends_refl | split; reflexivity].
  - inversion Hall as [| c cs [Hup Happ] Hrest]; subst. simpl in Hup.
    destruct (store_up_inv B2 Hup) as [HB2 _].
    assert (Hfound :
              fst (get_geolocation_permissions B2 w (app_id r2))
              = Some (allowed, g_ascii_strtoll B2 stamp)).
    { eapply get_geolocation_permissions_after_write; [exact HB2 | exact Hs]. }
    destruct (handle_track_recall B2 r2 w _ _ Hup Hfound)
      as (e1 & He1 & Hd1 & Hw1).
    pose proof (handle_track_recall_store B2 r2 w _ _ Hup Hfound) as Hs1.
    destruct (IH (snd (handle_track_in_thread_func B2 (r2, w))) (app_id r2)
                allowed
                (printf_li (if allowed then g_get_monotonic_time B2
                            else g_ascii_strtoll B2 stamp))
                (default ∅ (store w !! (PERMISSIONS_TABLE, PERMISSIONS_ID))))
      as (e2 & He2 & Hd2 & Hw2).
    { rewrite Hs1, insert_insert_eq. reflexivity. }
    { exact Hrest. }
    exists (e1 ++ e2). split; [| split].
    + exact (extends_trans _ _ _ _ _ He1 He2).
    + rewrite count_where_app, Hd1, Hd2. reflexivity.
    + unfold store_writes in *. rewrite List.filter_app, Hw1, Hw2.
      reflexivity.
Qed.

(** C5, as the code has it.  ActivateAction: for a triple without a
    stored decision, with the store reachable, the first call shows one
    dialog and writes the yes or no once; after it every reachable lookup
    finds that decision, and any number of later calls for the triple show
    no dialog, write nothing and leave the store as it is.  TrackLocation:
    the first call of an application without a stored decision whose
    dialog call returns shows one dialog and writes the decision once;
    after it every reachable lookup finds that decision, and any number of
    later calls of the application show no dialog and write the record
    again, once each: the same decision, with the clock's time when the
    location is allowed and else with the time read back. *)
Theorem decision_written_once_then_recalled :
  (forall B r w later,
      store_up B = true ->
      stored_permission B w r = UNSET ->
      Forall (fun c => lookup_error (fst c) = None /\ same_triple r (snd c))
        later ->
      let w1 := snd (handle_activate_action_in_thread B (r, w)) in
      let w2 := run_activations later w1 in
      count_where is_dialog (new_events w w1) = 1%nat /\
      store_writes (new_events w w1)
      = [SetPermission TABLE_NAME (action_object r) (app_id r)
           [decision_token (access_dialog B)]] /\
      (forall B', lookup_error B' = None ->
                  stored_permission B' w1 r = decision (access_dialog B)) /\
      count_where is_dialog (new_events w1 w2) = 0%nat /\
      store_writes (new_events w1 w2) = [] /\
      store w2 = store w1) /\
  (forall B r w answer later,
      store_up B = true ->
      fst (get_geolocation_permissions B w (app_id r)) = None ->
      access_dialog B = inr answer ->
      Forall (fun c => store_up (fst c) = true /\ app_id (snd c) = app_id r)
        later ->
      let w1 := snd (handle_track_in_thread_func B (r, w)) in
      let w2 := run_tracks later w1 in
      let stamp := printf_li (if answer =? 0 then g_get_monotonic_time B
                              else 0) in
      count_where is_dialog (new_events w w1) = 1%nat /\
      store_writes (new_events w w1)
      = [SetPermission PERMISSIONS_TABLE PERMISSIONS_ID (app_id r)
           [accuracy_token (answer =? 0); stamp]] /\
      (forall B2, lookup_error B2 = None ->
                  fst (get_geolocation_permissions B2 w1 (app_id r))
                  = Some (answer =? 0, g_ascii_strtoll B2 stamp)) /\
      count_where is_dialog (new_events w1 w2) = 0%nat /\
      store_writes (new_events w1 w2)
      = track_writes (app_id r) (answer =? 0) stamp later /\
      length (store_writes (new_events w1 w2)) = length later).
Proof.
  split.
  - intros B r w later Hup Hunset Hlater w1 w2.
    destruct (handle_activate_first_ask B r w Hup Hunset)
      as (e1 & He1 & Hd1 & Hw1 & Hs1).
    fold w1 in He1, Hs1.
    assert (Hrecall :
              forall B', lookup_error B' = None ->
                         stored_permission B' w1 r = decision (access_dialog B)).
    { intros B' HB'. unfold stored_permission, action_object in *.
      rewrite decision_allowed. rewrite decision_token_allowed in Hs1.
      eapply get_permission_after_write; [exact HB' |].
      rewrite Hs1, insert_insert_eq. reflexivity. }
    destruct (store_up_inv B Hup) as [HB _].
    destruct (run_activations_recall later r w1 B HB) as (e2 & He2 & Hd2 & Hw2 & Hs2).
    { rewrite (Hrecall B HB), decision_allowed.
      destruct (match access_dialog B with inr 0 => true | _ => false end); auto. }
    { exact Hlater. }
    fold w2 in He2, Hs2.
    rewrite (extends_new_events _ _ _ He1), (extends_new_events _ _ _ He2).
    repeat split; assumption.
  - intros B r w answer later Hup Hunset Hanswer Hlater w1 w2 stamp.
    destruct (handle_track_first_ask B r w answer Hup Hunset Hanswer)
      as (e1 & He1 & Hd1 & Hw1 & Hs1).
    fold w1 in He1, Hs1. fold stamp in Hw1, Hs1.
    assert (Hfile :
              store w1
              = <[(PERMISSIONS_TABLE, PERMISSIONS_ID) :=
                    <[app_id r := [accuracy_token (answer =? 0); stamp]]>
                      (default ∅
                         (store w !! (PERMISSIONS_TABLE, PERMISSIONS_ID)))]>
                  (store w1)).
    { rewrite Hs1, insert_insert_eq. reflexivity. }
    destruct (run_tracks_recall later w1 (app_id r) (answer =? 0) stamp _
                Hfile Hlater) as (e2 & He2 & Hd2 & Hw2).
    fold w2 in He2.
    rewrite (extends_new_events _ _ _ He1), (extends_new_events _ _ _ He2).
    split; [exact Hd1 |]. split; [exact Hw1 |].
    split.
    { intros B2 HB2.
      eapply get_geolocation_permissions_after_write; [exact HB2 | exact Hfile]. }
    split; [exact Hd2 |]. split; [exact Hw2 |].
    rewrite Hw2. clear. generalize stamp.
    induction later as [| c rest IH]; intros stamp0; simpl;
      [reflexivity | now rewrite IH].
Qed.

End RequestProperties.

(** ** The request properties at concrete calls *)

Section RequestExamples.
Import Portal Requests.

(** C4, counterexample.  The location worker answers an exported request
    with 0 and leaves it exported; a close of the same request then emits
    a second response, and so would any other answering step. *)
Lemma location_request_answered_twice :
  let rw := handle_track_in_thread_func (working_backend (inr 0))
              (example_request, example_world) in
  exported (fst rw) = true /\
  responses_for (id example_request) (trace (snd rw)) = [0] /\
  responses_for (id example_request) (trace (snd (close rw))) = [0; 1] /\
  responses_for (id example_request)
    (trace (snd (send_response_in_thread_func rw))) = [0; 0].
Proof. vm_compute. repeat split. Qed.

(** C5, counterexample.  org.example.App has no location decision stored.
    Its first TrackLocation call shows the dialog and writes the decision;
    its second call shows no dialog and writes to the store again. *)
Lemma location_recall_writes_again :
  let B := working_backend (inr 0) in
  let w1 := snd (handle_track_in_thread_func B
                   (example_request, example_world)) in
  let w2 := snd (handle_track_in_thread_func B (example_request, w1)) in
  fst (get_geolocation_permissions B example_world "org.example.App") = None /\
  count_where is_dialog (new_events example_world w1) = 1%nat /\
  store_writes (new_events example_world w1)
  = [SetPermission "portals" "geolocation" "org.example.App"
       ["EXACT"; "1000"]] /\
  count_where is_dialog (new_events w1 w2) = 0%nat /\
  store_writes (new_events w1 w2)
  = [SetPermission "portals" "geolocation" "org.example.App"
       ["EXACT"; "1000"]].
Proof. vm_compute. repeat split. Qed.

(** C6, at a failing call.  org.example.App has no decision stored for the
    action and the access dialog cannot be shown: the worker warns, files
    a "no" for the application and answers the request with 1. *)
Theorem failed_dialog_is_answered_as_denial :
  trace
    (snd (handle_activate_action_in_thread (working_backend (inl backend_error))
            (example_request, example_world)))
  = [AccessDialog (id example_request) "org.example.App" "";
     Warning "A backend call failed";
     SetPermission "actions" "org.example.Target::open" "org.example.App"
       ["no"];
     Response (id example_request) XDG_DESKTOP_PORTAL_RESPONSE_CANCELLED].
Proof. vm_compute. reflexivity. Qed.

Lemma one_response_through_retiring_steps_witness :
  (length
     (responses_for (id example_request)
        (trace
           (snd (run_steps
                   [ActivateActionThread (working_backend (inr 0%Z));
                    Close;
                    SendResponseThread;
                    Respond 2%Z]
                   (example_request, example_world))))) <= 1)%nat.
Proof.
  destruct one_response_through_retiring_steps as (_ & _ & Hrun & _).
  apply Hrun; reflexivity.
Defined.

Lemma decision_written_once_then_recalled_witness :
  let B := working_backend (inr 0) in
  let w1 := snd (handle_activate_action_in_thread B
                   (example_request, example_world)) in
  let w2 := run_activations [(B, example_request); (B, example_request)] w1 in
  let t1 := snd (handle_track_in_thread_func B
                   (example_request, example_world)) in
  let t2 := run_tracks [(B, example_request); (B, example_request)] t1 in
  count_where is_dialog (new_events example_world w1) = 1%nat /\
  count_where is_dialog (new_events w1 w2) = 0%nat /\
  store_writes (new_events w1 w2) = [] /\
  count_where is_dialog (new_events example_world t1) = 1%nat /\
  count_where is_dialog (new_events t1 t2) = 0%nat /\
  store_writes (new_events t1 t2)
  = [SetPermission "portals" "geolocation" "org.example.App"
       ["EXACT"; "1000"];
     SetPermission "portals" "geolocation" "org.example.App"
       ["EXACT"; "1000"]].
Proof.
  intros B w1 w2 t1 t2.
  destruct decision_written_once_then_recalled as [Hactions Htracks].
  destruct (Hactions B example_request example_world
              [(B, example_request); (B, example_request)])
    as (Hd1 & _ & _ & Hd2 & Hw2 & _).
  - reflexivity.
  - reflexivity.
  - repeat constructor.
  - destruct (Htracks B example_request example_world 0
                [(B, example_request); (B, example_request)])
      as (Ht1 & _ & _ & Ht2 & Hwrites & _).
    + reflexivity.
    + reflexivity.
    + reflexivity.
    + repeat constructor.
    + split; [exact Hd1 |]. split; [exact Hd2 |]. split; [exact Hw2 |].
      split; [exact Ht1 |]. split; [exact Ht2 |]. exact Hwrites.
Defined.

End RequestExamples.

(** * More properties of the file-transfer sessions *)

(** The decimal text of a number determines the number. *)
Lemma to_uint_nonnil n : N.to_uint n <> Decimal.Nil.
Proof.
  destruct n as [| p]; [discriminate |].
  apply DecimalPos.Unsigned.to_uint_nonnil.
Qed.

Lemma printf_u_inj n m : printf_u n = printf_u m -> n = m.
Proof.
  unfold printf_u. intros H.
  apply (f_equal NilZero.uint_of_string) in H.
  rewrite !NilZero.usu in H by apply to_uint_nonnil.
  inversion H as [Hn].
  apply (f_equal N.of_uint) in Hn.
  now rewrite !DecimalN.Unsigned.of_to in Hn.
Qed.

Section SessionLaws.
Import FileTransfer Sessions Vocabulary.

Variable E : Externals.

(** X1.  Once [stop_transfer] has answered a call for a registered key,
    the session is queued for the idle free and the key is dead: every
    later [add_files], [retrieve_files] and [stop_transfer] with it, from
    any connection, gets the access-denied error and changes nothing. *)
Theorem stopped_key_is_denied invocation k app st transfer :
  reachable E st ->
  lookup_transfer st k = Some transfer ->
  let st' := snd (stop_transfer invocation k app st) in
  fst (stop_transfer invocation k app st) = Returned RetNone /\
  In transfer (idle st') /\
  forall invocation' fd_ids app' slack,
    add_files E invocation' k fd_ids app' st' = (access_denied, st') /\
    retrieve_files E invocation' k app' slack st' = (access_denied, st') /\
    stop_transfer invocation' k app' st' = (access_denied, st').
Proof.
  intros Hreach Hk st'.
  pose proof (reachable_keys_agree E st Hreach _ _ Hk) as Hkey.
  assert (Hgone : lookup_transfer st' k = None).
  { unfold st', lookup_transfer.
    rewrite (stop_transfer_transfers _ _ _ _ _ Hk), Hkey.
    apply lookup_delete_eq. }
  split; [unfold stop_transfer; now rewrite Hk |].
  split.
  - unfold st', stop_transfer. rewrite Hk. simpl.
    apply in_or_app. right. now left.
  - intros invocation' fd_ids app' slack. repeat split.
    + now apply add_files_unknown_key.
    + now apply retrieve_files_unknown_key.
    + now apply stop_transfer_unknown_key.
Qed.

Lemma refused_set_files transfer fs app fd :
  refused E (set_files transfer fs) app fd = refused E transfer app fd.
Proof. reflexivity. Qed.

(** X2.  Two [add_files] calls on one session that both succeed leave the
    session's path list as the old list followed by the paths of the first
    call and then those of the second, each in payload order; a host
    [retrieve_files] hands back exactly that list. *)
Theorem add_files_accumulate inv1 ids1 app1 inv2 ids2 app2 k st :
  fst (add_files E inv1 k ids1 app1 st) = Returned RetNone ->
  fst (add_files E inv2 k ids2 app2 (snd (add_files E inv1 k ids1 app1 st)))
    = Returned RetNone ->
  exists transfer paths1 paths2,
    lookup_transfer st k = Some transfer /\
    Forall2 (resolves E transfer inv1 app1) ids1 paths1 /\
    Forall2 (resolves E transfer inv2 app2) ids2 paths2 /\
    lookup_transfer
      (snd (add_files E inv2 k ids2 app2
              (snd (add_files E inv1 k ids1 app1 st)))) k
    = Some (set_files transfer (files transfer ++ paths1 ++ paths2)) /\
    forall inv3 host slack,
      xdp_app_info_is_host host = true ->
      terminated slack = true ->
      files transfer ++ paths1 ++ paths2 <> [] ->
      fst (retrieve_files E inv3 k host slack
             (snd (add_files E inv2 k ids2 app2
                     (snd (add_files E inv1 k ids1 app1 st)))))
      = Returned (RetStrv (files transfer ++ paths1 ++ paths2)).
Proof.
  intros H1 H2.
  destruct (add_files_returned E _ _ _ _ _ _ H1)
    as (transfer & p1 & Hk & Hloop1 & Hst1).
  destruct (add_files_returned E _ _ _ _ _ _ H2)
    as (transfer2 & p2 & Hk2 & Hloop2 & Hst2).
  rewrite Hst1 in Hk2. unfold lookup_transfer, set_transfers in Hk2.
  simpl in Hk2. rewrite lookup_insert_eq in Hk2. inversion Hk2; subst transfer2.
  destruct (add_files_loop_complete E _ _ _ _ _ _ Hloop1) as (ps1 & -> & Hall1).
  destruct (add_files_loop_complete E _ _ _ _ _ _ Hloop2) as (ps2 & -> & Hall2).
  simpl in *.
  assert (Hfinal :
            lookup_transfer
              (snd (add_files E inv2 k ids2 app2
                      (snd (add_files E inv1 k ids1 app1 st)))) k
            = Some (set_files transfer (files transfer ++ ps1 ++ ps2))).
  { rewrite Hst2. unfold lookup_transfer, set_transfers. simpl.
    rewrite lookup_insert_eq. unfold set_files. simpl.
    now rewrite <- app_assoc. }
  exists transfer, ps1, ps2. repeat split; try assumption.
  intros inv3 host slack Hh Ht Hne.
  now rewrite (retrieve_files_host E inv3 k host slack _ _ Hfinal Hh Hne Ht).
Qed.

Lemma set_files_same transfer : set_files transfer (files transfer) = transfer.
Proof. destruct transfer. reflexivity. Qed.

(** X3.  The owner's [add_files] with an empty payload succeeds and
    leaves the whole state as it was; it never reads the descriptor list
    of the message. *)
Theorem add_files_empty_payload invocation k app st transfer :
  lookup_transfer st k = Some transfer ->
  sender transfer = inv_sender invocation ->
  add_files E invocation k [] app st = (Returned RetNone, st).
Proof.
  intros Hk Hs. unfold add_files. rewrite Hk, Hs, String.eqb_refl. simpl.
  unfold file_transfer_add_files. rewrite app_nil_r, set_files_same.
  unfold lookup_transfer in Hk. rewrite (insert_id _ _ _ Hk).
  destruct st. reflexivity.
Qed.

(** X4.  [retrieve_files] on a session that holds no path: for a host
    caller [g_strdupv] gets the NULL buffer of the empty array, so
    [file_transfer_execute] returns NULL without setting an error, no reply
    goes out and the document store is not called; for a sandboxed caller
    the document store is called and the reply is the empty list, or the
    store's error. *)
Theorem retrieve_of_empty_session invocation k app slack st transfer :
  lookup_transfer st k = Some transfer ->
  files transfer = [] ->
  (xdp_app_info_is_host app = true ->
   fst (retrieve_files E invocation k app slack st) = NoReplyNullError /\
   document_adds (snd (retrieve_files E invocation k app slack st))
   = document_adds st) /\
  (xdp_app_info_is_host app = false ->
   fst (retrieve_files E invocation k app slack st) = Returned (RetStrv []) \/
   exists error,
     fst (retrieve_files E invocation k app slack st) = Failed error).
Proof.
  intros Hk Hf. unfold retrieve_files, file_transfer_execute. rewrite Hk, Hf.
  split; intros Hh; rewrite Hh; simpl.
  - destruct (autostop transfer); simpl; now rewrite app_nil_r.
  - match goal with
    | |- context [document_add_full E ?a ?b ?c ?d ?e] =>
        destruct (document_add_full E a b c d e) as [ids | error]
    end; simpl.
    + now left.
    + right. now exists error.
Qed.

(** X5.  [retrieve_files] for a sandboxed caller makes exactly one call to
    [document_add_full], with one descriptor per file.  Its error is the
    reply.  Where it returns fewer ids than there are files, the function
    reads behind them and the call has no defined reply.  Otherwise the
    reply names exactly one path per file of the session, in order: the
    file itself where the store gave the empty id, and mount point / id /
    basename elsewhere. *)
Theorem sandboxed_retrieve_names invocation k target slack st transfer :
  lookup_transfer st k = Some transfer ->
  xdp_app_info_is_host target = false ->
  exists c,
    document_adds (snd (retrieve_files E invocation k target slack st))
    = document_adds st ++ [c] /\
    add_fds c = map (open_path E) (files transfer) /\
    match document_add_full E (add_fds c) (add_flags c) (add_owner c)
            (add_target_app_id c) (add_perms c) with
    | inr error =>
        fst (retrieve_files E invocation k target slack st) = Failed error
    | inl ids =>
        if (length ids <? length (files transfer))%nat then
          fst (retrieve_files E invocation k target slack st) = Undefined
        else
          exists names,
            fst (retrieve_files E invocation k target slack st)
            = Returned (RetStrv names) /\
            length names = length (files transfer) /\
            forall i file id,
              files transfer !! i = Some file ->
              ids !! i = Some id ->
              names !! i
              = Some (if String.eqb id "" then file
                      else g_build_filename E
                             [xdp_fuse_get_mountpoint E; id;
                              g_path_get_basename E file])
    end.
Proof.
  intros Hk Hh. unfold retrieve_files, file_transfer_execute. rewrite Hk, Hh.
  match goal with
  | |- context [document_add_full E ?a ?b ?c ?d ?e] =>
      exists {| add_fds := a; add_flags := b; add_owner := c;
                add_target_app_id := d; add_perms := e |};
      cbn [add_fds add_flags add_owner add_target_app_id add_perms];
      destruct (document_add_full E a b c d e) as [ids | error]
  end.
  - destruct (length ids <? length (files transfer))%nat eqn:Hshort.
    { split; [destruct (autostop transfer); reflexivity |].
      split; [reflexivity |]. destruct (autostop transfer); reflexivity. }
    apply Nat.ltb_ge in Hshort.
    split; [destruct (autostop transfer); reflexivity |].
    split; [reflexivity |].
    eexists. split; [destruct (autostop transfer); reflexivity |].
    split.
    + rewrite length_map, length_combine. lia.
    + intros i file id Hf Hi.
      rewrite list_lookup_fmap.
      assert (Hc : combine (files transfer) ids !! i = Some (file, id)).
      { clear - Hf Hi. revert i ids Hf Hi.
        induction (files transfer) as [| f fs IH]; intros i ids Hf Hi.
        - destruct i; discriminate.
        - destruct ids as [| d ids]; [destruct i; discriminate |].
          destruct i as [| i]; simpl in *.
          + inversion Hf; inversion Hi; subst. reflexivity.
          + now apply IH. }
      rewrite Hc. simpl. unfold exported_name.
      destruct id; reflexivity.
  - split; [destruct (autostop transfer); reflexivity |].
    split; [reflexivity |]. destruct (autostop transfer); reflexivity.
Qed.

(** X6.  A call leaves every session it does not address as it was:
    after a call on another key (for a start, a call that generates
    another key), the lookup of [k] gives what it gave before. *)
Theorem other_sessions_untouched c k st :
  reachable E st ->
  call_key c <> k ->
  lookup_transfer (snd (call E c st)) k = lookup_transfer st k.
Proof.
  intros Hreach Hne. pose proof (reachable_keys_agree E st Hreach) as Hst.
  unfold lookup_transfer.
  destruct c as [inv options app rnd | inv k2 fd_ids app
                | inv k2 app slack | inv k2 app]; simpl in *.
  - now rewrite lookup_insert_ne.
  - destruct (add_files_transfers E inv k2 fd_ids app st)
      as [Heq | (t2 & paths & Hk2 & Heq)]; rewrite Heq; [reflexivity |].
    now rewrite lookup_insert_ne.
  - destruct (lookup_transfer st k2) as [t2 |] eqn:Hk2.
    + rewrite (retrieve_files_transfers E _ _ _ _ _ _ Hk2).
      destruct (autostop t2); [| reflexivity].
      rewrite lookup_delete_ne; [reflexivity |]. now rewrite (Hst _ _ Hk2).
    + now rewrite retrieve_files_unknown_key.
  - destruct (lookup_transfer st k2) as [t2 |] eqn:Hk2.
    + rewrite (stop_transfer_transfers _ _ _ _ _ Hk2).
      rewrite lookup_delete_ne; [reflexivity |]. now rewrite (Hst _ _ Hk2).
    + now rewrite stop_transfer_unknown_key.
Qed.

Lemma files_grow_by_owner c k st transfer transfer' :
  lookup_transfer st k = Some transfer ->
  spares k c = true ->
  lookup_transfer (snd (call E c st)) k = Some transfer' ->
  exists more,
    files transfer' = files transfer ++ more /\
    (call_sender c <> sender transfer -> more = []).
Proof.
  intros Hk Hsp Hk'. unfold lookup_transfer in *.
  assert (Hsame : forall t, Some transfer = Some t ->
                            exists more, files t = files transfer ++ more /\
                              (call_sender c <> sender transfer -> more = [])).
  { intros t Ht. inversion Ht; subst. exists []. now rewrite app_nil_r. }
  destruct c as [inv options app rnd | inv k2 fd_ids app
                | inv k2 app slack | inv k2 app]; simpl in *.
  - rewrite lookup_insert_ne in Hk'.
    + apply Hsame. congruence.
    + intros Heq. rewrite Heq, String.eqb_refl in Hsp. discriminate.
  - unfold add_files in *.
    destruct (lookup_transfer st k2) as [t2 |] eqn:Hk2;
      [| simpl in Hk'; apply Hsame; congruence].
    destruct (String.eqb_spec (sender t2) (inv_sender inv)) as [Hs | Hs];
      simpl in Hk'; [| apply Hsame; congruence].
    destruct (add_files_loop E t2 app (inv_fd_list inv) fd_ids [])
      as [early | paths]; simpl in Hk'; [apply Hsame; congruence |].
    destruct (decide (k2 = k)) as [-> | Hne].
    + unfold lookup_transfer in Hk2. rewrite Hk in Hk2.
      inversion Hk2; subst t2.
      rewrite lookup_insert_eq in Hk'. inversion Hk'; subst transfer'.
      exists paths. split; [reflexivity |]. intros Hother. congruence.
    + rewrite lookup_insert_ne in Hk' by assumption. apply Hsame. congruence.
  - destruct (lookup_transfer st k2) as [t2 |] eqn:Hk2.
    + rewrite (retrieve_files_transfers E _ _ _ _ _ _ Hk2) in Hk'.
      destruct (autostop t2); [| apply Hsame; congruence].
      destruct (decide (key t2 = k)) as [Heq | Hne].
      * rewrite Heq, lookup_delete_eq in Hk'. discriminate.
      * rewrite lookup_delete_ne in Hk' by assumption. apply Hsame. congruence.
    + rewrite retrieve_files_unknown_key in Hk' by assumption.
      apply Hsame. simpl in Hk'. congruence.
  - destruct (lookup_transfer st k2) as [t2 |] eqn:Hk2.
    + rewrite (stop_transfer_transfers _ _ _ _ _ Hk2) in Hk'.
      destruct (decide (key t2 = k)) as [Heq | Hne].
      * rewrite Heq, lookup_delete_eq in Hk'. discriminate.
      * rewrite lookup_delete_ne in Hk' by assumption. apply Hsame. congruence.
    + rewrite stop_transfer_unknown_key in Hk' by assumption.
      apply Hsame. simpl in Hk'. congruence.
Qed.

(** X7.  As long as a session stays registered, its path list only
    grows at the end; and calls that all come from connections other than
    the owner's leave it as it was. *)
Theorem path_list_append_only cs k st transfer transfer' :
  lookup_transfer st k = Some transfer ->
  forallb (spares k) cs = true ->
  lookup_transfer (run_calls E cs st) k = Some transfer' ->
  exists more,
    files transfer' = files transfer ++ more /\
    (Forall (fun c => call_sender c <> sender transfer) cs -> more = []).
Proof.
  revert st transfer. induction cs as [| c cs IH]; intros st transfer Hk Hsp Hk'.
  - simpl in Hk'. rewrite Hk in Hk'. inversion Hk'; subst.
    exists []. now rewrite app_nil_r.
  - simpl in Hsp. apply andb_prop in Hsp. destruct Hsp as [Hc Hcs].
    simpl in Hk'.
    destruct (lookup_transfer (snd (call E c st)) k) as [t1 |] eqn:Hk1.
    + destruct (files_grow_by_owner c k st transfer t1 Hk Hc Hk1)
        as (m1 & Hm1 & Ho1).
      destruct (session_fields_fixed E c k st transfer t1 Hk Hc Hk1)
        as (_ & _ & Hs1).
      destruct (IH _ _ Hk1 Hcs Hk') as (m2 & Hm2 & Ho2).
      exists (m1 ++ m2). split.
      * now rewrite Hm2, Hm1, app_assoc.
      * intros Hall. inversion Hall as [| c' cs' Hc' Hcs']; subst.
        rewrite (Ho1 Hc'). rewrite Hs1 in Ho2. now rewrite (Ho2 Hcs').
    + rewrite (spared_key_stays_gone_run E cs k _ Hk1 Hcs) in Hk'. discriminate.
Qed.

(** X8.  [file_transfer_start] registers the new session under the
    decimal text of the random number, and the text of a different number
    is a different key: a session registered under it is not touched. *)
Theorem start_keeps_other_keys invocation options app n m st :
  n <> m ->
  lookup_transfer (snd (start_transfer invocation options app n st))
    (printf_u m)
  = lookup_transfer st (printf_u m) /\
  is_Some (lookup_transfer (snd (start_transfer invocation options app n st))
             (printf_u n)).
Proof.
  intros Hne. unfold start_transfer, file_transfer_start, lookup_transfer.
  simpl. split.
  - rewrite lookup_insert_ne; [reflexivity |].
    intros Heq. apply printf_u_inj in Heq. contradiction.
  - rewrite lookup_insert_eq. eauto.
Qed.
End SessionLaws.

(** * More properties of the request handlers *)

Section RequestLaws.
Import Portal Requests PortalMethods Vocabulary.

(** ** application_path_from_appid *)

Lemma map_string_length f s : String.length (map_string f s) = String.length s.
Proof. induction s as [| c s IH]; simpl; [reflexivity | now rewrite IH]. Qed.

Lemma path_char_clean c : path_char c <> "."%char /\ path_char c <> "-"%char.
Proof.
  unfold path_char.
  destruct (Ascii.eqb_spec c "."%char) as [-> | Hdot]; [split; discriminate |].
  destruct (Ascii.eqb_spec c "-"%char) as [-> | Hdash]; [split; discriminate |].
  split; assumption.
Qed.

Lemma map_string_in f s c :
  In c (list_ascii_of_string (map_string f s)) ->
  exists c0, In c0 (list_ascii_of_string s) /\ c = f c0.
Proof.
  induction s as [| a s IH]; simpl; [contradiction |].
  intros [<- | Hin].
  - exists a. auto.
  - destruct (IH Hin) as (c0 & Hc0 & ->). exists c0. auto.
Qed.

Lemma map_string_id f s :
  (forall c, In c (list_ascii_of_string s) -> f c = c) -> map_string f s = s.
Proof.
  induction s as [| a s IH]; simpl; [reflexivity |].
  intros H. rewrite H by auto. rewrite IH; [reflexivity |]. auto.
Qed.

Lemma map_string_get f s i c :
  String.get i s = Some c -> String.get i (map_string f s) = Some (f c).
Proof.
  revert i. induction s as [| a s IH]; intros i H; [discriminate |].
  destruct i as [| i]; simpl in *.
  - now inversion H.
  - now apply IH.
Qed.

(** X9.  [application_path_from_appid] gives a slash followed by the
    application id, character by character, with every dot turned into a
    slash, every dash into an underscore and every other character kept.
    So the path is one character longer than the id, holds no dot and no
    dash, and is the id behind a slash when the id has none of the two. *)
Theorem application_path_is_clean appid :
  (exists rest,
      application_path_from_appid appid = String "/" rest /\
      String.length rest = String.length appid /\
      forall i c,
        String.get i appid = Some c ->
        (c = "."%char -> String.get i rest = Some "/"%char) /\
        (c = "-"%char -> String.get i rest = Some "_"%char) /\
        (c <> "."%char -> c <> "-"%char -> String.get i rest = Some c)) /\
  (forall c,
      In c (list_ascii_of_string (application_path_from_appid appid)) ->
      c <> "."%char /\ c <> "-"%char) /\
  ((forall c, In c (list_ascii_of_string appid) ->
              c <> "."%char /\ c <> "-"%char) ->
   application_path_from_appid appid = "/" +:+ appid).
Proof.
  unfold application_path_from_appid. split; [| split].
  - exists (map_string path_char appid). split; [reflexivity |].
    split; [apply map_string_length |].
    intros i c Hget.
    rewrite (map_string_get path_char _ _ _ Hget). unfold path_char.
    split; [| split].
    + intros ->. reflexivity.
    + intros ->. reflexivity.
    + intros Hdot Hdash.
      destruct (Ascii.eqb_spec c "."%char); [contradiction |].
      destruct (Ascii.eqb_spec c "-"%char); [contradiction | reflexivity].
  - intros c Hin. destruct (map_string_in _ _ _ Hin) as (c0 & _ & ->).
    apply path_char_clean.
  - intros Hclean. apply map_string_id. intros c [<- | Hin]; [reflexivity |].
    destruct (Hclean c Hin) as [Hdot Hdash]. unfold path_char.
    destruct (Ascii.eqb_spec c "."%char); [contradiction |].
    destruct (Ascii.eqb_spec c "-"%char); [contradiction | reflexivity].
Qed.

(** ** set_permission and get_permission *)

Lemma set_permission_store B w app application action p :
  set_permission_error B = None ->
  p <> UNSET ->
  store (set_permission B w app application action p)
  = <[(TABLE_NAME, application +:+ "::" +:+ action) :=
        <[app := [match p with
                  | ASK => "ask"
                  | YES => "yes"
                  | _ => "no"
                  end]]>
          (default ∅
             (store w !! (TABLE_NAME, application +:+ "::" +:+ action)))]>
      (store w).
Proof.
  intros Hup Hp. unfold set_permission, call_set_permission_sync.
  rewrite Hup. destruct p; try contradiction; reflexivity.
Qed.

(** X10.  A yes, no or ask that [set_permission] files with the store up
    is what [get_permission] reads back for the same app id, under every
    application and action whose texts joined by "::" give the same record
    name. *)
Theorem decision_round_trip
  B B' w app application action application' action' p :
  p <> UNSET ->
  set_permission_error B = None ->
  lookup_error B' = None ->
  application +:+ "::" +:+ action = application' +:+ "::" +:+ action' ->
  fst (get_permission B'
         (set_permission B w app application action p)
         app application' action') = p.
Proof.
  intros Hp Hup Hlook Hobj.
  unfold get_permission, call_lookup_sync.
  rewrite Hlook, <- Hobj, (set_permission_store B w app application action p Hup Hp).
  rewrite lookup_insert_eq, lookup_insert_eq.
  destruct p; try contradiction; reflexivity.
Qed.

(** X11.  [set_permission] changes the decision of one app id under one
    record only: [get_permission] for another app id, or for another
    record, reads what it read before; and so it does for any triple when
    the write fails. *)
Theorem decision_of_others_unchanged
  B B' w app application action p app' application' action' :
  app' <> app \/
  application' +:+ "::" +:+ action' <> application +:+ "::" +:+ action ->
  fst (get_permission B'
         (set_permission B w app application action p)
         app' application' action')
  = fst (get_permission B' w app' application' action').
Proof.
  intros Hother.
  destruct (set_permission_error B) as [err |] eqn:Hup.
  { apply get_permission_reads_store.
    unfold set_permission, call_set_permission_sync. rewrite Hup.
    destruct p; reflexivity. }
  assert (Hcases : p = UNSET \/ p <> UNSET)
    by (destruct p; auto; right; discriminate).
  destruct Hcases as [-> | Hp].
  { apply get_permission_reads_store. reflexivity. }
  unfold get_permission, call_lookup_sync.
  rewrite (set_permission_store B w app application action p Hup Hp).
  destruct (lookup_error B'); [reflexivity |].
  destruct (decide (application' +:+ "::" +:+ action'
                    = application +:+ "::" +:+ action)) as [Heq | Hne].
  - rewrite Heq, lookup_insert_eq.
    destruct Hother as [Happ | Hobj]; [| contradiction].
    rewrite lookup_insert_ne by congruence.
    destruct (store w !! (TABLE_NAME, application +:+ "::" +:+ action))
      as [record |]; cbn [from_option]; unfold Datatypes.id;
      [| rewrite lookup_empty; reflexivity].
    destruct (record !! app') as [[| token [|]] |]; try reflexivity.
    repeat (destruct (_ =? _)%string; try reflexivity).
  - rewrite lookup_insert_ne by congruence.
    destruct (store w !! (TABLE_NAME, application' +:+ "::" +:+ action'))
      as [record |]; [| reflexivity].
    destruct (record !! app') as [[| token [|]] |]; try reflexivity.
    repeat (destruct (_ =? _)%string; try reflexivity).
Qed.

(** ** The worker of ActivateAction, event by event *)

Lemma set_permission_events B w app application action p :
  exists events,
    extends w (set_permission B w app application action p) events /\
    List.filter is_activation events = [] /\
    List.filter is_dialog events = [].
Proof.
  unfold set_permission, call_set_permission_sync.
  destruct p; destruct (set_permission_error B); simpl;
    eexists; (split; [repeat apply extends_emit; apply extends_refl
                     | split; reflexivity]).
Qed.

Lemma warnings_no_activation ws :
  forallb is_warning ws = true -> List.filter is_activation ws = [].
Proof.
  induction ws as [| e ws IH]; [reflexivity |].
  simpl. intros H. apply andb_prop in H. destruct H as [He Hws].
  destruct e; try discriminate. simpl. auto.
Qed.

(** X12.  The ActivateAction worker calls the target application at most
    once, and exactly when a yes is stored, or nothing usable or an ask is
    stored and the dialog is answered with 0; the call goes to the path
    made from the application id, with the action that was asked for.
    Whether the request is still exported plays no part. *)
Theorem activation_iff_allowed B r w :
  List.filter is_activation
    (new_events w (snd (handle_activate_action_in_thread B (r, w))))
  = if activation_allowed B (stored_permission B w r)
    then [ActivateAction (data_string r "application")
            (application_path_from_appid (data_string r "application"))
            (data_string r "action")]
    else [].
Proof.
  unfold handle_activate_action_in_thread, activation_allowed, stored_permission.
  destruct (get_permission_world B w (app_id r) (data_string r "application")
              (data_string r "action")) as (ws & Hws & Hwarn & _).
  apply warnings_no_activation in Hwarn.
  destruct (get_permission B w (app_id r) (data_string r "application")
              (data_string r "action")) as [p w1].
  simpl in Hws. cbn [fst].
  destruct p; destruct (access_dialog B) as [err | answer];
    try destruct answer;
    destruct_refused; destruct (activate_error B); destruct (exported r);
    simpl;
    try match goal with
        | |- context [set_permission ?B' ?W ?a ?b ?c ?q] =>
            destruct (set_permission_events B' W a b c q)
              as (evs & Hevs & Hsil & _);
            generalize dependent (set_permission B' W a b c q); intros
        end;
    match goal with
    | |- List.filter _ (new_events _ ?W) = _ =>
        let H := fresh in
        eassert (H : extends w W _) by
          (repeat first
             [ exact Hws
             | exact Hevs
             | apply extends_emit
             | (eapply extends_trans; [| exact Hevs]) ]);
        rewrite (extends_new_events _ _ _ H)
    end;
    rewrite ?List.filter_app; simpl; rewrite ?Hwarn, ?Hsil; reflexivity.
Qed.


(** X13.  A request that was closed before the ActivateAction worker ran
    gets the same dialog, store write and activation as an exported one.
    Where the worker ends in the read of the unset error, both runs leave
    the same world and the exported request stays exported, unanswered;
    elsewhere the world after the exported run is the world after the
    closed run followed by the response.  The closed run emits no
    response. *)
Theorem closed_request_still_acts B r w :
  let closed := handle_activate_action_in_thread B (set_exported r false, w) in
  let live := handle_activate_action_in_thread B (set_exported r true, w) in
  let crashes :=
    activation_crashes B (stored_permission B w r)
      (data_string r "application") in
  snd live
  = (if crashes then snd closed
     else emit (Response (id r)
                  (activate_response B (stored_permission B w r)))
            (snd closed)) /\
  List.filter is_response (new_events w (snd closed)) = [] /\
  fst closed = set_exported r false /\
  exported (fst live) = crashes.
Proof.
  cbv zeta.
  destruct (handle_activate_action_in_thread_shape B (set_exported r false) w)
    as (pre & Hpre & Hext & Hfst).
  cbn [exported set_exported andb] in Hext, Hfst.
  rewrite app_nil_r in Hext.
  rewrite (extends_new_events _ _ _ Hext). clear Hext.
  split; [| split; [| split; [exact Hfst |]]].
  - unfold handle_activate_action_in_thread, activate_response,
      activation_crashes, activation_allowed, stored_permission.
    cbn [exported set_exported app_id id data_string data].
    unfold data_string. cbn [data set_exported].
    destruct (get_permission B w (app_id r)
                match data r !! "application" with
                | Some (VString s) => s
                | _ => ""
                end
                match data r !! "action" with
                | Some (VString s) => s
                | _ => ""
                end) as [p w1].
    cbn [fst].
    destruct p; destruct (access_dialog B) as [err | answer];
      try destruct answer; destruct_refused; destruct (activate_error B);
      reflexivity.
  - clear Hfst. induction pre as [| e pre IH]; [reflexivity |].
    simpl in Hpre. apply andb_prop in Hpre. destruct Hpre as [He Hpre].
    simpl. destruct (is_response e); [discriminate |]. auto.
  - destruct (handle_activate_action_in_thread_shape B (set_exported r true) w)
      as (_ & _ & _ & ->).
    cbn [exported set_exported andb].
    change (stored_permission B w (set_exported r true))
      with (stored_permission B w r).
    change (data_string (set_exported r true) "application")
      with (data_string r "application").
    destruct (activation_crashes B (stored_permission B w r)
                (data_string r "application")); reflexivity.
Qed.

(** X14.  With an ask stored, the ActivateAction worker shows the dialog,
    writes nothing to the store and leaves it as it was, so that the next
    call finds the ask again. *)
Theorem ask_is_never_remembered B r w :
  stored_permission B w r = ASK ->
  let w' := snd (handle_activate_action_in_thread B (r, w)) in
  count_where is_dialog (new_events w w') = 1%nat /\
  store_writes (new_events w w') = [] /\
  store w' = store w /\
  forall B', lookup_error B' = None -> stored_permission B' w' r = ASK.
Proof.
  intros Hask. cbv zeta.
  assert (Hup : lookup_error B = None).
  { unfold stored_permission, get_permission, call_lookup_sync in Hask.
    destruct (lookup_error B); [discriminate | reflexivity]. }
  assert (Hrun :
    exists events,
      extends w (snd (handle_activate_action_in_thread B (r, w))) events /\
      count_where is_dialog events = 1%nat /\
      store_writes events = [] /\
      store (snd (handle_activate_action_in_thread B (r, w))) = store w).
  { unfold stored_permission in Hask.
    unfold handle_activate_action_in_thread.
    destruct (get_permission_world B w (app_id r)
                (data_string r "application") (data_string r "action"))
      as (ws & Hws & Hwarn & Hstore).
    apply warnings_are_silent in Hwarn.
    destruct Hwarn as (Hnodialog & Hnowrite & _).
    destruct (get_permission B w (app_id r) (data_string r "application")
                (data_string r "action")) as [p w1].
    simpl in Hask, Hws, Hstore. subst p.
    destruct (access_dialog B) as [err | answer]; try destruct answer;
      destruct_refused; destruct (activate_error B); destruct (exported r); simpl;
      eexists;
      (split; [repeat first [exact Hws | apply extends_emit] |]);
      unfold count_where, store_writes;
      rewrite ?List.filter_app; simpl; rewrite ?Hnodialog, ?Hnowrite;
      (split; [reflexivity | split; [reflexivity | exact Hstore]]). }
  destruct Hrun as (events & Hext & Hdialog & Hwrites & Hstore).
  rewrite (extends_new_events _ _ _ Hext).
  split; [exact Hdialog | split; [exact Hwrites | split; [exact Hstore |]]].
  intros B' Hup'.
  rewrite (stored_permission_reads_store B' _ w r Hstore).
  rewrite (stored_permission_any_backend B' B w r Hup' Hup). exact Hask.
Qed.


(** ** The worker of TrackLocation *)

Lemma set_geolocation_permissions_frame B w app allowed timestamp :
  exists events,
    extends w (set_geolocation_permissions B w app allowed timestamp) events /\
    List.filter is_location_update events = [] /\
    forallb (fun e => negb (is_response e)) events = true /\
    geolocation_requests (set_geolocation_permissions B w app allowed timestamp)
    = geolocation_requests w.
Proof.
  unfold set_geolocation_permissions, call_set_permission_sync.
  destruct (set_permission_error B); simpl;
    eexists; (split; [repeat apply extends_emit; apply extends_refl
                     | repeat split; reflexivity]).
Qed.

Lemma get_geolocation_permissions_frame B w app :
  exists ws,
    extends w (snd (get_geolocation_permissions B w app)) ws /\
    List.filter is_location_update ws = [] /\
    forallb (fun e => negb (is_response e)) ws = true /\
    geolocation_requests (snd (get_geolocation_permissions B w app))
    = geolocation_requests w.
Proof.
  unfold get_geolocation_permissions.
  destruct (call_lookup_sync B w PERMISSIONS_TABLE PERMISSIONS_ID)
    as [out_perms |].
  - destruct (out_perms !! app) as [[| p [| q l]] |]; simpl;
      first [ exists []; split; [apply extends_refl | repeat split; reflexivity]
            | eexists; split;
              [apply (extends_emit _ _ [] _ (extends_refl _))
              | repeat split; reflexivity] ].
  - eexists. split;
      [apply (extends_emit _ _ [] _ (extends_refl _))
      | repeat split; reflexivity].
Qed.

Lemma responses_for_quiet_then rid pre answer :
  forallb (fun e => negb (is_response e)) pre = true ->
  responses_for rid (pre ++ map (Response rid) answer) = answer.
Proof.
  intros Hpre.
  rewrite responses_for_app, (responses_for_silent _ _ Hpre).
  apply responses_for_own.
Qed.

(** What the TrackLocation worker emits, leaves in the table of tracked
    requests and answers. *)
Lemma handle_track_in_thread_func_outcome B r w :
  let out := handle_track_in_thread_func B (r, w) in
  let events := new_events w (snd out) in
  let allowed := track_allowed B w r in
  List.filter is_location_update events
  = (if allowed && exported r then [LocationUpdated (id r)] else []) /\
  geolocation_requests (snd out)
  = (if allowed
     then ({[id r]} ∪ geolocation_requests w)
          ∖ (if exported r then unexported_requests B ∖ {[id r]}
             else unexported_requests B ∪ {[id r]})
     else geolocation_requests w) /\
  responses_for (id r) events
  = (if exported r
     then [if allowed then XDG_DESKTOP_PORTAL_RESPONSE_SUCCESS
           else match fst (get_geolocation_permissions B w (app_id r)),
                      access_dialog B with
                | None, inl _ => XDG_DESKTOP_PORTAL_RESPONSE_OTHER
                | _, _ => XDG_DESKTOP_PORTAL_RESPONSE_CANCELLED
                end]
     else []).
Proof.
  cbv zeta.
  unfold handle_track_in_thread_func, track_permission, track_allowed.
  destruct (get_geolocation_permissions_frame B w (app_id r))
    as (ws & Hws & Hwsl & Hwsr & Hwsg).
  destruct (get_geolocation_permissions B w (app_id r)) as [found w1].
  simpl in Hws, Hwsg. cbn [fst].
  destruct found as [[allowed last_used] |];
    [| destruct (access_dialog B) as [err | answer];
       [| destruct answer]];
    try destruct allowed; simpl;
    try match goal with
        | |- context [set_geolocation_permissions ?B' ?W ?a ?b ?c] =>
            destruct (set_geolocation_permissions_frame B' W a b c)
              as (evs & Hevs & Hevsl & Hevsr & Hevsg);
            generalize dependent (set_geolocation_permissions B' W a b c);
            intros
        end;
    unfold emit_location_updated, track_request; simpl;
    destruct (exported r) eqn:Hex; simpl;
    match goal with
    | |- List.filter _ (new_events _ ?W) = _ /\ _ =>
        let H := fresh in
        eassert (H : extends w W _) by
          (repeat first
             [ exact Hws
             | exact Hevs
             | apply extends_emit
             | apply extends_set_geolocation_requests
             | (eapply extends_trans; [| exact Hevs]) ]);
        rewrite (extends_new_events _ _ _ H); clear H
    end;
    (split; [| split]);
    rewrite ?List.filter_app, ?responses_for_app; simpl;
    rewrite ?Hwsl, ?Hevsl, ?(responses_for_silent _ _ Hwsr),
      ?(responses_for_silent _ _ Hevsr), ?String.eqb_refl, ?Hevsg;
    simpl; unfold purge_dead_requests; simpl;
    rewrite ?Hevsg, ?Hwsg; reflexivity.
Qed.

(** X15.  The TrackLocation worker emits a location update only for an
    exported request that is allowed.  When the location is allowed, the
    table of tracked requests afterwards holds the request itself exactly
    if it is exported, and of the other requests those that were in the
    table and are still exported: the purge drops every dead request.
    When the location is not allowed the table is left alone.  An
    exported request is answered once: with 0 when allowed, with 2 when
    no decision is stored and the dialog call fails, with 1 otherwise. *)
Theorem track_only_when_allowed B r w :
  let out := handle_track_in_thread_func B (r, w) in
  let events := new_events w (snd out) in
  let allowed := track_allowed B w r in
  List.filter is_location_update events
  = (if allowed && exported r then [LocationUpdated (id r)] else []) /\
  (if allowed
   then forall i,
          i ∈ geolocation_requests (snd out) <->
          (i = id r /\ exported r = true) \/
          (i <> id r /\ i ∈ geolocation_requests w /\
           i ∉ unexported_requests B)
   else geolocation_requests (snd out) = geolocation_requests w) /\
  responses_for (id r) events
  = (if exported r
     then [if allowed then XDG_DESKTOP_PORTAL_RESPONSE_SUCCESS
           else match fst (get_geolocation_permissions B w (app_id r)),
                      access_dialog B with
                | None, inl _ => XDG_DESKTOP_PORTAL_RESPONSE_OTHER
                | _, _ => XDG_DESKTOP_PORTAL_RESPONSE_CANCELLED
                end]
     else []).
Proof.
  cbv zeta.
  destruct (handle_track_in_thread_func_outcome B r w)
    as (Hupdates & Htable & Hanswer).
  split; [exact Hupdates |]. split; [| exact Hanswer].
  rewrite Htable. destruct (track_allowed B w r); [| reflexivity].
  intros i. destruct (exported r);
    rewrite elem_of_difference, elem_of_union, elem_of_singleton;
    [rewrite elem_of_difference | rewrite elem_of_union];
    rewrite elem_of_singleton;
    destruct (decide (i = id r)); intuition (try congruence).
Qed.

(** ** From the method call to the response *)

(** X16.  From the ActivateAction method call to the response, for
    options that do not hold the key "@a{sv}" (the one the method looks
    up): the call is answered with the request's handle and the worker
    runs on the exported request with the backend handle attached; it
    reads the decision of the caller's app id for the application and
    action of the call and shows the dialog (if any) for the call's parent
    window.  Where the call into the application is made and refused for
    its bus name or object path, the worker ends in the read of the unset
    error: the request gets no response and stays exported.  Elsewhere
    the worker answers the request once and unexports it. *)
Theorem activate_action_end_to_end
  B impl r window application action options w :
  g_variant_lookup_value options "@a{sv}" = None ->
  exists started,
    handle_activate_action (inr impl) r window application action options
    = (Returned (RetString (id r)), Some started) /\
    let out := handle_activate_action_in_thread B (started, w) in
    let p := fst (get_permission B w (app_id r) application action) in
    let crashes := activation_crashes B p application in
    responses_for (id r) (new_events w (snd out))
    = (if crashes then [] else [activate_response B p]) /\
    List.filter is_dialog (new_events w (snd out))
    = match p with
      | ASK | UNSET => [AccessDialog (id r) (app_id r) window]
      | _ => []
      end /\
    exported (fst out) = crashes /\
    impl_request (fst out) = Some impl.
Proof.
  intros Hoptions. unfold handle_activate_action. rewrite Hoptions.
  eexists. split; [reflexivity |]. cbv zeta.
  set (started := request_export _).
  assert (Happlication : data_string started "application" = application).
  { unfold data_string, started. cbn [data request_export set_exported
      request_set_impl_request g_object_set_data].
    rewrite lookup_insert_ne by discriminate.
    rewrite lookup_insert_eq. reflexivity. }
  assert (Haction : data_string started "action" = action).
  { unfold data_string, started. cbn [data request_export set_exported
      request_set_impl_request g_object_set_data].
    rewrite lookup_insert_eq. reflexivity. }
  assert (Hwin : data_string started "window" = window).
  { unfold data_string, started. cbn [data request_export set_exported
      request_set_impl_request g_object_set_data].
    rewrite lookup_insert_ne by discriminate.
    rewrite lookup_insert_ne by discriminate.
    rewrite lookup_insert_eq. reflexivity. }
  assert (Hex : exported started = true) by reflexivity.
  assert (Hid : id started = id r) by reflexivity.
  assert (Happ : app_id started = app_id r) by reflexivity.
  assert (Himpl : impl_request started = Some impl) by reflexivity.
  clearbody started.
  split; [| split; [| split]].
  - rewrite <- Hid.
    rewrite (handle_activate_action_in_thread_response B started w Hex).
    unfold stored_permission. rewrite Happ, Happlication, Haction.
    reflexivity.
  - unfold handle_activate_action_in_thread.
    rewrite Happ, Happlication, Haction, Hwin, Hid, Hex.
    destruct (get_permission_world B w (app_id r) application action)
      as (ws & Hws & Hwarn & _).
    apply warnings_are_silent in Hwarn. destruct Hwarn as (Hnodialog & _ & _).
    destruct (get_permission B w (app_id r) application action) as [p w1].
    simpl in Hws. cbn [fst].
    destruct p; destruct (access_dialog B) as [err | answer];
      try destruct answer; destruct_refused; destruct (activate_error B);
      simpl;
      try match goal with
          | |- context [set_permission ?B' ?W ?a ?b ?c ?q] =>
              destruct (set_permission_events B' W a b c q)
                as (evs & Hevs & _ & Hsil);
              generalize dependent (set_permission B' W a b c q); intros
          end;
      match goal with
      | |- List.filter _ (new_events _ ?W) = _ =>
          let H := fresh in
          eassert (H : extends w W _) by
            (repeat first
               [ exact Hws
               | exact Hevs
               | apply extends_emit
               | (eapply extends_trans; [| exact Hevs]) ]);
          rewrite (extends_new_events _ _ _ H)
      end;
      rewrite ?List.filter_app; simpl; rewrite ?Hnodialog, ?Hsil; reflexivity.
  - destruct (handle_activate_action_in_thread_shape B started w)
      as (_ & _ & _ & ->). rewrite Hex, Happlication.
    unfold stored_permission. rewrite Happ, Happlication, Haction.
    cbn [andb].
    destruct (activation_crashes B
                (fst (get_permission B w (app_id r) application action))
                application); [exact Hex | reflexivity].
  - destruct (handle_activate_action_in_thread_shape B started w)
      as (_ & _ & _ & ->). rewrite Hex. cbn [andb].
    destruct (negb _); exact Himpl.
Qed.

(** X17.  From the GetAccounts method call to the response: the call is
    answered with the request's handle; the response task then sends the
    backend's response code unchanged, or logs the failure and sends 2,
    and unexports the request. *)
Theorem accounts_response_forwarded impl r w finish :
  exists started,
    handle_get_accounts (inr impl) r
    = (Returned (RetString (id r)), Some started) /\
    let out := run_steps [AccountsDone finish; SendResponseThread]
                 (started, w) in
    new_events w (snd out)
    = match finish with
      | inl _ => [Warning "Backend call failed";
                  Response (id r) XDG_DESKTOP_PORTAL_RESPONSE_OTHER]
      | inr code => [Response (id r) code]
      end /\
    exported (fst out) = false.
Proof.
  eexists. split; [reflexivity |]. cbv zeta.
  unfold run_steps. cbn [fold_left step].
  unfold get_accounts_done, send_response_in_thread_func.
  destruct finish as [err | code];
    cbn [request_export set_exported request_set_impl_request exported id
         g_object_set_data];
    rewrite data_int_set; unfold new_events; cbn [snd fst emit trace];
    rewrite <- ?app_assoc, drop_app_length; (split; reflexivity).
Qed.

End RequestLaws.

(** * Properties of the notification and proxy-resolver handlers *)

Section NotificationLaws.
Import Portal Notification ProxyResolver Vocabulary.

Variable g_icon_deserialize : Value -> bool.

(** ** The checks of a notification *)

Lemma check_button_loop_ok entries has_label has_action l a :
  check_button_loop entries has_label has_action = inr (l, a) ->
  Forall (fun entry => In (fst entry) button_keys) entries /\
  l = has_label || existsb (fun entry => String.eqb (fst entry) "label") entries /\
  a = has_action || existsb (fun entry => String.eqb (fst entry) "action") entries.
Proof.
  revert has_label has_action.
  induction entries as [| [k v] rest IH]; intros has_label has_action H.
  - simpl in H. injection H as <- <-. rewrite !orb_false_r. auto.
  - simpl in H. cbn [existsb fst].
    destruct (String.eqb k "label") eqn:Hl.
    + apply String.eqb_eq in Hl. subst k.
      apply IH in H. destruct H as (Hall & -> & ->).
      split; [constructor; [simpl; auto | exact Hall] |].
      simpl. rewrite !orb_true_r. auto.
    + destruct (String.eqb k "action") eqn:Ha.
      * apply String.eqb_eq in Ha. subst k.
        apply IH in H. destruct H as (Hall & -> & ->).
        split; [constructor; [simpl; auto | exact Hall] |].
        simpl. rewrite !orb_true_r. auto.
      * destruct (String.eqb k "target") eqn:Ht; [| discriminate].
        apply String.eqb_eq in Ht. subst k.
        apply IH in H. destruct H as (Hall & -> & ->).
        split; [constructor; [simpl; auto | exact Hall] |].
        simpl. auto.
Qed.

Lemma check_button_loop_keys entries has_label has_action :
  Forall (fun entry => In (fst entry) button_keys) entries ->
  exists l a, check_button_loop entries has_label has_action = inr (l, a).
Proof.
  intros Hall. revert has_label has_action.
  induction Hall as [| [k v] rest Hk _ IH]; intros has_label has_action.
  - simpl. eauto.
  - simpl in Hk. simpl.
    destruct Hk as [<- | [<- | [<- | []]]]; simpl; apply IH.
Qed.

Lemma existsb_key k (entries : list (string * Value)) :
  existsb (fun entry => String.eqb (fst entry) k) entries = true <->
  In k (map fst entries).
Proof.
  rewrite existsb_exists, in_map_iff. split.
  - intros (e & He & Heq). apply String.eqb_eq in Heq. eauto.
  - intros (e & Heq & He). exists e. split; [exact He |].
    now apply String.eqb_eq.
Qed.

(** X18.  [check_button] accepts a button exactly when every key of it
    is label, action or target, and label and action both occur. *)
Theorem check_button_accepts button :
  check_button button = None <->
  Forall (fun entry => In (fst entry) button_keys) button /\
  In "label" (map fst button) /\
  In "action" (map fst button).
Proof.
  unfold check_button. split.
  - destruct (check_button_loop button false false) as [error | [l a]] eqn:Hloop;
      [discriminate |].
    apply check_button_loop_ok in Hloop. destruct Hloop as (Hall & Hl & Ha).
    simpl in Hl, Ha. subst l a. intros H.
    destruct (existsb (fun entry => String.eqb (fst entry) "label") button)
      eqn:Hl; [| discriminate].
    destruct (existsb (fun entry => String.eqb (fst entry) "action") button)
      eqn:Ha; [| discriminate].
    apply existsb_key in Hl. apply existsb_key in Ha. auto.
  - intros (Hall & Hl & Ha).
    destruct (check_button_loop_keys button false false Hall) as (l & a & Hloop).
    rewrite Hloop. apply check_button_loop_ok in Hloop.
    destruct Hloop as (_ & -> & ->). simpl.
    apply existsb_key in Hl. apply existsb_key in Ha. rewrite Hl, Ha.
    reflexivity.
Qed.


Lemma check_value_type_name k value t error :
  check_value_type k value t = Some error ->
  error_name error = XDG_DESKTOP_PORTAL_ERROR_INVALID_ARGUMENT.
Proof.
  unfold check_value_type.
  destruct (g_variant_is_of_type value t); [discriminate |].
  intros H. injection H as <-. reflexivity.
Qed.

Lemma check_button_name button error :
  check_button button = Some error ->
  error_name error = XDG_DESKTOP_PORTAL_ERROR_INVALID_ARGUMENT.
Proof.
  unfold check_button.
  assert (Hloop : forall entries l a e,
             check_button_loop entries l a = inl e ->
             error_name e = XDG_DESKTOP_PORTAL_ERROR_INVALID_ARGUMENT).
  { induction entries as [| [k v] rest IH]; intros l a e H; [discriminate |].
    simpl in H.
    destruct (String.eqb k "label"); [eauto |].
    destruct (String.eqb k "action"); [eauto |].
    destruct (String.eqb k "target"); [eauto |].
    injection H as <-. reflexivity. }
  destruct (check_button_loop button false false) as [e | [l a]] eqn:H.
  - intros Heq. injection Heq as <-. eauto.
  - destruct l, a; simpl; intros Heq; try discriminate;
      injection Heq as <-; reflexivity.
Qed.

Lemma check_buttons_name value error :
  check_buttons value = Some error ->
  error_name error = XDG_DESKTOP_PORTAL_ERROR_INVALID_ARGUMENT.
Proof.
  unfold check_buttons.
  destruct (check_value_type "buttons" value TYPE_AASV) as [e |] eqn:Ht.
  - intros H. injection H as <-. eapply check_value_type_name, Ht.
  - destruct value as [| | buttons |]; try discriminate. clear Ht.
    induction buttons as [| button rest IH]; [discriminate |].
    simpl. destruct (check_button button) as [e |] eqn:Hb.
    + intros H. injection H as <-. simpl. eapply check_button_name, Hb.
    + exact IH.
Qed.

Lemma check_entry_name k value error :
  check_entry g_icon_deserialize k value = Some error ->
  error_name error = XDG_DESKTOP_PORTAL_ERROR_INVALID_ARGUMENT.
Proof.
  unfold check_entry, check_serialized_icon, check_priority.
  repeat match goal with
         | |- context [if ?c then _ else _] => destruct c eqn:?
         | |- context [match check_value_type ?a ?b ?c with _ => _ end] =>
             destruct (check_value_type a b c) eqn:?
         | |- context [match value with _ => _ end] => destruct value
         end;
    intros H; try discriminate;
    try (injection H as <-; first [reflexivity | eapply check_value_type_name; eassumption]);
    try (eapply check_value_type_name; eassumption);
    try (eapply check_buttons_name; eassumption).
Qed.

Lemma check_notification_first_error notification :
  match check_notification g_icon_deserialize notification with
  | None => Forall (entry_ok g_icon_deserialize) notification
  | Some error =>
      exists good k value rest,
        notification = good ++ (k, value) :: rest /\
        Forall (entry_ok g_icon_deserialize) good /\
        check_entry g_icon_deserialize k value = Some error
  end.
Proof.
  induction notification as [| [k value] rest IH]; simpl; [constructor |].
  destruct (check_entry g_icon_deserialize k value) as [error |] eqn:He.
  - exists [], k, value, rest. auto.
  - destruct (check_notification g_icon_deserialize rest) as [error |].
    + destruct IH as (good & k' & value' & rest' & -> & Hgood & Hbad).
      exists ((k, value) :: good), k', value', rest'.
      split; [reflexivity |]. split; [| exact Hbad].
      constructor; [exact He | exact Hgood].
    + constructor; [exact He | exact IH].
Qed.

(** X19.  AddNotification starts its worker, on a request carrying the
    notification and its id, exactly when every entry of the notification
    passes its check.  Otherwise no worker is started and the reply is an
    invalid-argument error whose message is that of the first failing
    entry behind "invalid notification: ". *)
Theorem add_notification_checked request arg_id notification :
  (Forall (entry_ok g_icon_deserialize) notification ->
   exists task,
     notification_handle_add_notification g_icon_deserialize request arg_id
       notification
     = (Returned RetNone, Some task) /\
     app_id (task_request task) = app_id request /\
     sender (task_request task) = sender request /\
     data_string (task_request task) "id" = arg_id /\
     task_notification task = notification) /\
  (~ Forall (entry_ok g_icon_deserialize) notification ->
   exists good k value rest error,
     notification = good ++ (k, value) :: rest /\
     Forall (entry_ok g_icon_deserialize) good /\
     check_entry g_icon_deserialize k value = Some error /\
     error_name error = XDG_DESKTOP_PORTAL_ERROR_INVALID_ARGUMENT /\
     notification_handle_add_notification g_icon_deserialize request arg_id
       notification
     = (Failed {| error_name := XDG_DESKTOP_PORTAL_ERROR_INVALID_ARGUMENT;
                  error_message :=
                    "invalid notification: " +:+ error_message error |},
        None)).
Proof.
  pose proof (check_notification_first_error notification) as Hcheck.
  unfold notification_handle_add_notification.
  destruct (check_notification g_icon_deserialize notification) as [error |].
  - destruct Hcheck as (good & k & value & rest & -> & Hgood & Hbad).
    split.
    + intros Hall. apply Forall_app in Hall. destruct Hall as [_ Hall].
      inversion Hall as [| ? ? Hok _]. unfold entry_ok in Hok. simpl in Hok.
      congruence.
    + intros _. exists good, k, value, rest, error.
      pose proof (check_entry_name _ _ _ Hbad) as Hname.
      repeat (split; [first [reflexivity | assumption] |]).
      unfold g_prefix_error. rewrite Hname. reflexivity.
  - split; [| intros Hnot; contradiction].
    intros _. eexists. split; [reflexivity |].
    split; [reflexivity |]. split; [reflexivity |].
    split; [| reflexivity].
    cbn [task_request]. unfold data_string, g_object_set_data. cbn [data].
    rewrite lookup_insert_eq. reflexivity.
Qed.


(** ** The worker of AddNotification *)

Lemma g_strv_contains_In strv s : g_strv_contains strv s = true <-> In s strv.
Proof.
  unfold g_strv_contains. rewrite existsb_exists. split.
  - intros (x & Hx & Heq). apply String.eqb_eq in Heq. now subst.
  - intros H. exists s. split; [exact H | apply String.eqb_refl].
Qed.

(** X20.  The AddNotification worker drops a notification, silently and
    without any effect, in one case only: the caller has a non-empty app
    id, the lookup goes through and the record holds a "no" among the
    app's permissions.  In every other case, a failing lookup included,
    the notification goes to the backend, after at most warnings. *)
Theorem notification_suppressed_only_by_stored_no lookup_error task st :
  let request := task_request task in
  let st' := handle_add_in_thread_func lookup_error task st in
  let forbidden :=
    app_id request <> "" /\
    lookup_error = None /\
    exists record perms,
      store st !! (TABLE_NAME, "notification") = Some record /\
      record !! app_id request = Some perms /\
      In "no" perms in
  (forbidden -> st' = st) /\
  (~ forbidden ->
   exists warnings,
     Forall (fun e => exists message, e = Warning message) warnings /\
     trace st'
     = trace st ++ warnings ++
       [CallAddNotification (app_id request) (data_string request "id")
          (task_notification task)] /\
     active st' = active st /\
     store st' = store st).
Proof.
  cbv zeta. unfold handle_add_in_thread_func, get_notification_allowed.
  destruct (String.eqb (app_id (task_request task)) "") eqn:Hhost.
  { apply String.eqb_eq in Hhost. simpl. split.
    - intros (Hne & _). contradiction.
    - intros _. exists []. repeat split; constructor. }
  apply String.eqb_neq in Hhost. cbn [negb].
  destruct lookup_error as [error |].
  { simpl. split.
    - intros (_ & Hnone & _). discriminate.
    - intros _. exists [Warning "Error getting permissions"].
      split; [repeat constructor; eauto |].
      simpl. rewrite <- app_assoc. repeat split; reflexivity. }
  destruct (store st !! (TABLE_NAME, "notification")) as [record |] eqn:Hrec.
  2:{ simpl. split.
      - intros (_ & _ & record & perms & Hr & _). discriminate.
      - intros _. exists [Warning "Error getting permissions"].
        split; [repeat constructor; eauto |].
        simpl. rewrite <- app_assoc. repeat split; reflexivity. }
  destruct (record !! app_id (task_request task)) as [perms |] eqn:Hperms.
  2:{ simpl. split.
      - intros (_ & _ & record' & perms & Hr & Hp & _). congruence.
      - intros _. exists []. repeat split; constructor. }
  destruct (g_strv_contains perms "no") eqn:Hno; simpl.
  - split; [reflexivity |].
    intros Hnot. exfalso. apply Hnot.
    split; [exact Hhost |]. split; [reflexivity |].
    exists record, perms. split; [reflexivity |]. split; [exact Hperms |].
    now apply g_strv_contains_In.
  - split.
    + intros (_ & _ & record' & perms' & Hr & Hp & Hin).
      assert (perms' = perms) by congruence. subst perms'.
      apply g_strv_contains_In in Hin. congruence.
    + intros _. exists []. repeat split; constructor.
Qed.

(** ** The table of active notifications *)

(** X21.  Once [add_done] has recorded a notification, an action the
    backend reports for it is sent to the connection that added it; once
    [remove_done] has run for the same app id and id, the action is
    dropped.  Entries under other pairs are left alone by both. *)
Theorem action_routed_to_registrant task st app id action :
  let request := task_request task in
  let key := (app_id request, data_string request "id") in
  let added := add_done None task st in
  let removed := remove_done None request added in
  action_invoked (fst key) (snd key) action added
  = emit (ActionInvoked (sender request) (snd key) action) added /\
  action_invoked (fst key) (snd key) action removed = removed /\
  ((app, id) <> key ->
   active added !! (app, id) = active st !! (app, id) /\
   active removed !! (app, id) = active st !! (app, id)).
Proof.
  cbv zeta. unfold action_invoked, add_done, remove_done.
  cbn [fst snd active set_active].
  split; [| split].
  - rewrite lookup_insert_eq. reflexivity.
  - rewrite lookup_delete_eq. reflexivity.
  - intros Hne.
    rewrite lookup_delete_ne by congruence.
    rewrite lookup_insert_ne by congruence. auto.
Qed.

(** X22.  [name_owner_changed] drops entries by application id, not by
    the connection recorded in them: every entry whose app id differs from
    the vanished name stays, so an action for a notification that the
    vanished connection had added is still sent to that name; the entries
    whose app id is the name are dropped. *)
Theorem vanished_name_drops_by_app_id name from to st app id action :
  let st' := name_owner_changed name from to st in
  (app <> name -> active st' !! (app, id) = active st !! (app, id)) /\
  (app <> name -> active st !! (app, id) = Some name ->
   action_invoked app id action st' = emit (ActionInvoked name id action) st') /\
  (is_unique_name name = true -> from = name -> to = "" ->
   active st' !! (name, id) = None) /\
  trace st' = trace st.
Proof.
  cbv zeta.
  assert (Hkept : app <> name ->
            active (name_owner_changed name from to st) !! (app, id)
            = active st !! (app, id)).
  { intros Hne. unfold name_owner_changed.
    destruct (is_unique_name name && String.eqb name from && String.eqb to "");
      [| reflexivity].
    cbn [active set_active].
    destruct (active st !! (app, id)) as [destination |] eqn:Hl.
    - apply map_lookup_filter_Some. split; [exact Hl | exact Hne].
    - apply map_lookup_filter_None. left. exact Hl. }
  split; [exact Hkept |].
  split; [intros Hne Hl; unfold action_invoked;
          rewrite (Hkept Hne), Hl; reflexivity |].
  unfold name_owner_changed. split.
  - intros -> <- ->. rewrite String.eqb_refl. simpl.
    apply map_lookup_filter_None. right. intros destination _ Hkeep.
    apply Hkeep. reflexivity.
  - destruct (is_unique_name name && String.eqb name from && String.eqb to "");
      reflexivity.
Qed.


(** ** proxy-resolver.c *)

(** X23.  The proxy lookup is refused, with the not-allowed error and
    without consulting the resolver, exactly for a caller with application
    info whose shared contexts are missing or lack "network"; otherwise
    the resolver is asked once for the URI and its proxies, or its error,
    are the reply. *)
Theorem proxy_lookup_needs_network app_info lookup arg_uri :
  let confined :=
    exists key_file,
      app_info = Some key_file /\
      forall shared,
        g_key_file_get_string_list key_file "Context" "shared" = Some shared ->
        ~ In "network" shared in
  (confined ->
   proxy_resolver_handle_lookup app_info lookup arg_uri
   = (Failed {| error_name := XDG_DESKTOP_PORTAL_ERROR_NOT_ALLOWED;
                error_message :=
                  "This call is not available inside the sandbox" |}, [])) /\
  (~ confined ->
   proxy_resolver_handle_lookup app_info lookup arg_uri
   = (match lookup arg_uri with
      | inl error => Failed error
      | inr proxies => Returned (RetStrv proxies)
      end, [arg_uri])).
Proof.
  cbv zeta. unfold proxy_resolver_handle_lookup.
  destruct app_info as [key_file |].
  2:{ simpl. split.
      - intros (key_file & Heq & _). discriminate.
      - intros _. destruct (lookup arg_uri); reflexivity. }
  destruct (g_key_file_get_string_list key_file "Context" "shared")
    as [shared |] eqn:Hshared.
  2:{ simpl. split; [reflexivity |].
      intros Hnot. exfalso. apply Hnot. exists key_file.
      split; [reflexivity |]. intros shared Hs. congruence. }
  destruct (g_strv_contains shared "network") eqn:Hnet; simpl.
  - split.
    + intros (key_file' & Heq & Hno). injection Heq as <-.
      apply g_strv_contains_In in Hnet. exfalso. exact (Hno _ Hshared Hnet).
    + intros _. destruct (lookup arg_uri); reflexivity.
  - split; [reflexivity |].
    intros Hnot. exfalso. apply Hnot. exists key_file.
    split; [reflexivity |]. intros shared' Hs Hin.
    assert (shared' = shared) by congruence. subst shared'.
    apply g_strv_contains_In in Hin. congruence.
Qed.

End NotificationLaws.

(** ** The properties above at concrete calls *)

Section MoreSessionExamples.
Import FileTransfer Sessions Vocabulary.

(** Any connection stops the session under key "7"; the owner's calls
    with the key are then refused. *)
Lemma stopped_key_is_denied_witness :
  add_files example_externals owner_call "7" [0] sandboxed_app
    (snd (stop_transfer other_call "7" host_app (started [])))
  = (access_denied, snd (stop_transfer other_call "7" host_app (started []))) /\
  retrieve_files example_externals owner_call "7" host_app []
    (snd (stop_transfer other_call "7" host_app (started [])))
  = (access_denied, snd (stop_transfer other_call "7" host_app (started []))).
Proof.
  destruct (stopped_key_is_denied example_externals other_call "7" host_app
              (started [])
              {| files := [];
                 writable := false;
                 autostop := true;
                 key := "7";
                 sender := ":1.10";
                 app_info := sandboxed_app |}) as (_ & _ & Hdead).
  - exists [StartTransfer owner_call [] sandboxed_app 7]. reflexivity.
  - reflexivity.
  - destruct (Hdead owner_call [0] sandboxed_app []) as (Ha & _).
    destruct (Hdead owner_call [0] host_app []) as (_ & Hr & _).
    split; [exact Ha | exact Hr].
Defined.

(** The owner adds descriptor 0 and then descriptor 1. *)
Lemma add_files_accumulate_witness :
  exists transfer,
    lookup_transfer
      (snd (add_files example_externals owner_call "7" [1] sandboxed_app
              (snd (add_files example_externals owner_call "7" [0]
                      sandboxed_app (started []))))) "7"
    = Some transfer /\
    files transfer = ["/home/u/a.txt"; "/home/u/b.txt"].
Proof.
  destruct (add_files_accumulate example_externals
              owner_call [0] sandboxed_app owner_call [1] sandboxed_app "7"
              (started []) eq_refl eq_refl)
    as (transfer & paths1 & paths2 & _ & _ & _ & Hfinal & _).
  eexists. split; [exact Hfinal |].
  simpl in Hfinal. injection Hfinal as Hfiles. simpl. symmetry. exact Hfiles.
Defined.

Lemma add_files_empty_payload_witness :
  add_files example_externals owner_call "7" [] sandboxed_app (started [])
  = (Returned RetNone, started []).
Proof.
  apply (add_files_empty_payload example_externals owner_call "7"
           sandboxed_app (started [])
           {| files := [];
              writable := false;
              autostop := true;
              key := "7";
              sender := ":1.10";
              app_info := sandboxed_app |}); reflexivity.
Defined.

(** A host caller retrieves from the session before anything was added. *)
Lemma retrieve_of_empty_session_witness :
  fst (retrieve_files example_externals other_call "7" host_app []
         (started [])) = NoReplyNullError.
Proof.
  destruct (retrieve_of_empty_session example_externals other_call "7"
              host_app [] (started [])
              {| files := [];
                 writable := false;
                 autostop := true;
                 key := "7";
                 sender := ":1.10";
                 app_info := sandboxed_app |} eq_refl eq_refl) as [Hhost _].
  exact (proj1 (Hhost eq_refl)).
Defined.

(** The owner has added the descriptors at indices 0 and 1; the document
    store gives both files the id "doc", and a sandboxed caller gets
    their names under the mount point. *)
Lemma sandboxed_retrieve_names_witness :
  exists names,
    fst (retrieve_files example_externals other_call "7" sandboxed_app []
           (snd (add_files example_externals owner_call "7" [0; 1]
                   sandboxed_app (started []))))
    = Returned (RetStrv names) /\
    length names = 2%nat /\
    names !! 0%nat = Some "/run/user/1000/doc/doc//home/u/a.txt" /\
    names !! 1%nat = Some "/run/user/1000/doc/doc//home/u/b.txt".
Proof.
  destruct (sandboxed_retrieve_names example_externals other_call "7"
              sandboxed_app []
              (snd (add_files example_externals owner_call "7" [0; 1]
                      sandboxed_app (started [])))
              {| files := ["/home/u/a.txt"; "/home/u/b.txt"];
                 writable := false;
                 autostop := true;
                 key := "7";
                 sender := ":1.10";
                 app_info := sandboxed_app |} eq_refl eq_refl)
    as (c & _ & Hfds & Hreply).
  cbn [example_externals document_add_full files] in Hreply.
  rewrite Hfds in Hreply. cbn in Hreply.
  destruct Hreply as (names & Hnames & Hlen & Hat).
  exists names. split; [exact Hnames |]. split; [exact Hlen |].
  split.
  - exact (Hat 0%nat "/home/u/a.txt" "doc" eq_refl eq_refl).
  - exact (Hat 1%nat "/home/u/b.txt" "doc" eq_refl eq_refl).
Defined.

(** A stop of key "8" leaves the session under key "7" alone. *)
Lemma other_sessions_untouched_witness :
  lookup_transfer
    (snd (call example_externals (StopTransfer other_call "8" host_app)
            (started []))) "7"
  = lookup_transfer (started []) "7".
Proof.
  apply other_sessions_untouched.
  - exists [StartTransfer owner_call [] sandboxed_app 7]. reflexivity.
  - discriminate.
Defined.

(** The session under key "7" holds one file and has autostop off.
    Another connection tries to add a file and a host retrieves; then
    the owner adds the descriptor at index 1: the list has grown by that
    file, at its end.  The calls of the other connection alone leave the
    list as it was. *)
Lemma path_list_append_only_witness :
  (exists transfer' more,
      lookup_transfer
        (run_calls example_externals
           [AddFiles other_call "7" [0] sandboxed_app;
            RetrieveFiles other_call "7" host_app [];
            AddFiles owner_call "7" [1] sandboxed_app]
           (snd (add_files example_externals owner_call "7" [0] sandboxed_app
                   (started [("autostop", VBool false)])))) "7"
      = Some transfer' /\
      files transfer' = ["/home/u/a.txt"] ++ more /\
      more = ["/home/u/b.txt"]) /\
  (exists transfer' more,
      lookup_transfer
        (run_calls example_externals
           [AddFiles other_call "7" [0] sandboxed_app;
            RetrieveFiles other_call "7" host_app []]
           (snd (add_files example_externals owner_call "7" [0] sandboxed_app
                   (started [("autostop", VBool false)])))) "7"
      = Some transfer' /\
      files transfer' = ["/home/u/a.txt"] ++ more /\
      more = []).
Proof.
  split.
  - destruct (path_list_append_only example_externals
                [AddFiles other_call "7" [0] sandboxed_app;
                 RetrieveFiles other_call "7" host_app [];
                 AddFiles owner_call "7" [1] sandboxed_app]
                "7"
                (snd (add_files example_externals owner_call "7" [0]
                        sandboxed_app (started [("autostop", VBool false)])))
                {| files := ["/home/u/a.txt"];
                   writable := false;
                   autostop := false;
                   key := "7";
                   sender := ":1.10";
                   app_info := sandboxed_app |}
                {| files := ["/home/u/a.txt"; "/home/u/b.txt"];
                   writable := false;
                   autostop := false;
                   key := "7";
                   sender := ":1.10";
                   app_info := sandboxed_app |} eq_refl eq_refl eq_refl)
      as (more & Hfiles & _).
    eexists. exists more. split; [reflexivity |]. split; [exact Hfiles |].
    symmetry.
    exact (app_inv_head ["/home/u/a.txt"] ["/home/u/b.txt"] more Hfiles).
  - destruct (path_list_append_only example_externals
                [AddFiles other_call "7" [0] sandboxed_app;
                 RetrieveFiles other_call "7" host_app []]
                "7"
                (snd (add_files example_externals owner_call "7" [0]
                        sandboxed_app (started [("autostop", VBool false)])))
                {| files := ["/home/u/a.txt"];
                   writable := false;
                   autostop := false;
                   key := "7";
                   sender := ":1.10";
                   app_info := sandboxed_app |}
                {| files := ["/home/u/a.txt"];
                   writable := false;
                   autostop := false;
                   key := "7";
                   sender := ":1.10";
                   app_info := sandboxed_app |} eq_refl eq_refl eq_refl)
      as (more & Hfiles & Hnone).
    eexists. exists more. split; [reflexivity |]. split; [exact Hfiles |].
    apply Hnone. repeat constructor; discriminate.
Defined.

Lemma start_keeps_other_keys_witness :
  lookup_transfer
    (snd (start_transfer other_call [] host_app 8 (started []))) (printf_u 7)
  = lookup_transfer (started []) (printf_u 7).
Proof.
  apply (start_keeps_other_keys other_call [] host_app 8 7 (started [])).
  discriminate.
Defined.

End MoreSessionExamples.

Section MoreRequestExamples.
Import Portal Requests PortalMethods Vocabulary.

(** In the path of org.example-app the dot at index 3 has become a slash
    and the dash at index 11 an underscore. *)
Lemma application_path_is_clean_witness :
  exists rest,
    application_path_from_appid "org.example-app" = String "/" rest /\
    String.get 3 rest = Some "/"%char /\
    String.get 11 rest = Some "_"%char /\
    String.get 4 rest = Some "e"%char.
Proof.
  destruct (application_path_is_clean "org.example-app")
    as ((rest & Hpath & _ & Hat) & _ & _).
  exists rest. split; [exact Hpath |]. split; [| split].
  - exact (proj1 (Hat 3%nat "."%char eq_refl) eq_refl).
  - exact (proj1 (proj2 (Hat 11%nat "-"%char eq_refl)) eq_refl).
  - apply (proj2 (proj2 (Hat 4%nat "e"%char eq_refl))); discriminate.
Defined.

(** The decision filed for the action "a::b" of org.example.Target is the
    one read for the action "b" of an application named
    org.example.Target::a. *)
Lemma decision_round_trip_witness :
  fst (get_permission (working_backend (inr 0))
         (set_permission (working_backend (inr 0)) example_world
            "org.example.App" "org.example.Target" "a::b" YES)
         "org.example.App" "org.example.Target::a" "b") = YES.
Proof.
  apply decision_round_trip; [discriminate | reflexivity ..].
Defined.

Lemma decision_of_others_unchanged_witness :
  fst (get_permission (working_backend (inr 0))
         (set_permission (working_backend (inr 0)) example_world
            "org.example.App" "org.example.Target" "open" YES)
         "org.example.Other" "org.example.Target" "open")
  = fst (get_permission (working_backend (inr 0)) example_world
           "org.example.Other" "org.example.Target" "open").
Proof.
  apply decision_of_others_unchanged. left. discriminate.
Defined.

(** The location is allowed: the request enters the table, and the closed
    request of the earlier call leaves it. *)
Lemma track_only_when_allowed_witness :
  id example_request
    ∈ geolocation_requests
        (snd (handle_track_in_thread_func purging_backend
                (example_request, tracking_world))) /\
  closed_request_id
    ∉ geolocation_requests
        (snd (handle_track_in_thread_func purging_backend
                (example_request, tracking_world))).
Proof.
  destruct (track_only_when_allowed purging_backend example_request
              tracking_world) as (_ & Htable & _).
  assert (Hallowed :
            track_allowed purging_backend tracking_world example_request
            = true) by reflexivity.
  rewrite Hallowed in Htable. split.
  - apply Htable. left. split; reflexivity.
  - intros Hin. apply Htable in Hin.
    destruct Hin as [[Hown _] | (_ & _ & Hlive)]; [discriminate Hown |].
    apply Hlive. unfold purging_backend. cbn [unexported_requests].
    now apply elem_of_singleton.
Defined.

(** ActivateAction for the application "", which is no bus name: the
    method answers with the handle; the worker asks, files the yes and
    goes on to the call, which is refused, and ends without a response
    for the request, which stays exported. *)
Lemma activate_action_end_to_end_witness :
  exists started,
    handle_activate_action (inr "/impl") example_request "" "" "open" []
    = (Returned (RetString (id example_request)), Some started) /\
    responses_for (id example_request)
      (new_events example_world
         (snd (handle_activate_action_in_thread (working_backend (inr 0))
                 (started, example_world)))) = [] /\
    exported
      (fst (handle_activate_action_in_thread (working_backend (inr 0))
              (started, example_world))) = true.
Proof.
  destruct (activate_action_end_to_end (working_backend (inr 0)) "/impl"
              example_request "" "" "open" [] example_world eq_refl)
    as (started & Hreply & Hanswer & _ & Hexported & _).
  exists started. split; [exact Hreply |]. split.
  - exact Hanswer.
  - exact Hexported.
Defined.

(** An ask is on file for org.example.App and the action. *)
Lemma ask_is_never_remembered_witness :
  let B := working_backend (inr 0) in
  let w := set_permission B example_world "org.example.App"
             "org.example.Target" "open" ASK in
  let w' := snd (handle_activate_action_in_thread B (example_request, w)) in
  count_where is_dialog (new_events w w') = 1%nat /\
  store w' = store w /\
  stored_permission B w' example_request = ASK.
Proof.
  intros B w w'.
  destruct (ask_is_never_remembered B example_request w)
    as (Hdialog & _ & Hstore & Hnext).
  - vm_compute. reflexivity.
  - split; [exact Hdialog |]. split; [exact Hstore |].
    apply Hnext. reflexivity.
Defined.

End MoreRequestExamples.

Section MoreNotificationExamples.
Import Portal Notification ProxyResolver Vocabulary.

Lemma check_button_accepts_witness :
  check_button [("label", VS "Open"); ("action", VS "open")] = None.
Proof.
  apply check_button_accepts. split; [| split].
  - repeat apply Forall_cons; try apply Forall_nil; simpl; auto.
  - simpl. auto.
  - simpl. auto.
Defined.

(** A notification with a title and a priority that is none. *)
Lemma add_notification_checked_witness :
  exists message,
    notification_handle_add_notification (fun _ => true)
      notification_request "n1"
      [("title", VS "Hello"); ("priority", VS "loud")]
    = (Failed {| error_name := XDG_DESKTOP_PORTAL_ERROR_INVALID_ARGUMENT;
                 error_message := "invalid notification: " +:+ message |},
       None).
Proof.
  destruct (add_notification_checked (fun _ => true) notification_request
              "n1" [("title", VS "Hello"); ("priority", VS "loud")])
    as [_ Hbad].
  destruct Hbad as (good & k & value & rest & error & _ & _ & _ & _ & Hreply).
  - intros Hall. inversion Hall as [| ? ? _ Hrest].
    inversion Hrest as [| ? ? Hpriority _]. discriminate Hpriority.
  - exists (error_message error). exact Hreply.
Defined.

(** Nothing is on file for org.example.App: its notification goes out. *)
Lemma notification_suppressed_only_by_stored_no_witness :
  exists warnings,
    trace (handle_add_in_thread_func None notification_task
             notifications_empty)
    = trace notifications_empty ++ warnings ++
      [CallAddNotification "org.example.App" "n1" [("title", VS "Hello")]].
Proof.
  destruct (notification_suppressed_only_by_stored_no None notification_task
              notifications_empty) as [_ Hsent].
  destruct Hsent as (warnings & _ & Htrace & _).
  - intros (_ & _ & record & perms & Hrecord & Hperms & _).
    vm_compute in Hrecord. injection Hrecord as <-. discriminate Hperms.
  - exists warnings. exact Htrace.
Defined.

(** Another notification of the same application stays on record. *)
Lemma action_routed_to_registrant_witness :
  active (remove_done None notification_request
            (add_done None notification_task
               (set_active notifications_empty
                  {[("org.example.App", "n2") := ":1.10"]})))
    !! ("org.example.App", "n2")
  = active (set_active notifications_empty
              {[("org.example.App", "n2") := ":1.10"]})
      !! ("org.example.App", "n2").
Proof.
  destruct (action_routed_to_registrant notification_task
              (set_active notifications_empty
                 {[("org.example.App", "n2") := ":1.10"]})
              "org.example.App" "n2" "open") as (_ & _ & Hframe).
  destruct Hframe as [_ Hremoved]; [discriminate |].
  exact Hremoved.
Defined.

(** Connection :1.10 vanishes; the notification it added for
    org.example.App stays on record. *)
Lemma vanished_name_drops_by_app_id_witness :
  active (name_owner_changed ":1.10" ":1.10" ""
            (add_done None notification_task notifications_empty))
    !! ("org.example.App", "n1")
  = Some ":1.10".
Proof.
  destruct (vanished_name_drops_by_app_id ":1.10" ":1.10" ""
              (add_done None notification_task notifications_empty)
              "org.example.App" "n1" "open") as (Hkept & _).
  rewrite Hkept by discriminate. reflexivity.
Defined.

(** An application whose shared contexts are "ipc" only. *)
Lemma proxy_lookup_needs_network_witness :
  proxy_resolver_handle_lookup
    (Some {[("Context", "shared") := ["ipc"]]})
    (fun _ => inr ["direct://"]) "http://example.org"
  = (Failed {| error_name := XDG_DESKTOP_PORTAL_ERROR_NOT_ALLOWED;
               error_message :=
                 "This call is not available inside the sandbox" |}, []).
Proof.
  apply proxy_lookup_needs_network.
  eexists. split; [reflexivity |].
  intros shared Hshared. vm_compute in Hshared. injection Hshared as <-.
  intros [Heq | []]. discriminate Heq.
Defined.

End MoreNotificationExamples.
